(** * Neo.js: a 2D affine matrix library, embedded and verified

    The development follows src/Neo.js.

    - [Number] is the interface of the JavaScript number operations the
      library uses.  It has two instances: [R_number], exact real
      arithmetic (the idealisation under which the algebraic theorems are
      proved; NaN and the infinities are outside it), and [F64_number],
      IEEE-754 binary64 (what a JavaScript engine computes; used to
      evaluate the code at concrete inputs, and for the properties of
      the determinant, which rounding, underflow and overflow decide).
    - The methods of [Neo.prototype] and the static functions
      [Neo.decompose] and [Neo.fromString] are written once, over any
      [Number], as functions on the six matrix elements.
    - Module [Str] has the string built-ins that [Neo.fromString] calls:
      the regular expressions, [split], [replace], and the conversion of
      a string to a number.
    - Module [Store] adds the object layer: instances live in a store and
      carry the two properties [elements] and [decomposed] that the
      methods read and assign.

    The embedding comes first, then the vocabulary of the properties,
    then the properties. *)

From Stdlib Require Import ZArith Reals Lra Lia Bool List String Ascii Sorted.
From Stdlib Require Import Floats.
From stdpp Require Import base list.
Import ListNotations.

Set Default Proof Using "Type".

(** ** JavaScript numbers *)

Declare Scope js_scope.
Delimit Scope js_scope with js.

Class Number (num : Type) : Type := {
  (** the integer literal [z] *)
  of_Z : Z -> num;
  (** the decimal literal [m / 10^k], e.g. [decimal 1 7] for [1e-7] *)
  decimal : Z -> nat -> num;
  add : num -> num -> num;
  sub : num -> num -> num;
  mul : num -> num -> num;
  div : num -> num -> num;
  neg : num -> num;
  (** [x < y]; [x > y] is [lt y x] *)
  lt : num -> num -> bool;
  (** [x <= y]; [x >= y] is [le y x] *)
  le : num -> num -> bool;
  (** [x === y] on two numbers *)
  strict_eq : num -> num -> bool;
  (** ToBoolean: what [x || d] and [x ? _ : _] test *)
  truthy : num -> bool;
  Math_PI : num;
  Math_sqrt : num -> num;
  Math_cos : num -> num;
  Math_sin : num -> num;
  Math_tan : num -> num;
  Math_acos : num -> num;
  Math_atan : num -> num;
  (** [+( x.toFixed(p) )]: [x] rounded to [p] decimals, as a number *)
  toFixed : num -> nat -> num
}.

Notation "x + y" := (add x y) : js_scope.
Notation "x - y" := (sub x y) : js_scope.
Notation "x * y" := (mul x y) : js_scope.
Notation "x / y" := (div x y) : js_scope.
Notation "- x" := (neg x) : js_scope.
Notation "x <? y" := (lt x y) : js_scope.
Notation "x >? y" := (lt y x) : js_scope.
Notation "x >=? y" := (le y x) : js_scope.
Notation "x === y" := (strict_eq x y) (at level 70, no associativity) : js_scope.
Notation "0" := (of_Z 0) : js_scope.
Notation "1" := (of_Z 1) : js_scope.
Notation "2" := (of_Z 2) : js_scope.

(** *** Exact real arithmetic *)

Module RNum.

Definition ltb (x y : R) : bool := if Rlt_dec x y then true else false.
Definition leb (x y : R) : bool := if Rle_dec x y then true else false.
Definition eqb (x y : R) : bool := if Req_dec_T x y then true else false.

Definition pow10 (k : nat) : R := IZR (10 ^ Z.of_nat k).

(** [Number.prototype.toFixed]: the integer [n] for which [n / 10^p - x]
    is closest to zero, the larger one on a tie; a negative [x] is
    rounded through [-x]. *)
Definition round_half_up (x : R) : Z := Zfloor (x + / 2).
Definition to_fixed (x : R) (p : nat) : R :=
  if Rlt_dec x 0
  then - (IZR (round_half_up (- x * pow10 p)) / pow10 p)
  else IZR (round_half_up (x * pow10 p)) / pow10 p.

End RNum.

#[export] Instance R_number : Number R := {|
  of_Z := IZR;
  decimal m k := (IZR m / RNum.pow10 k)%R;
  add := Rplus;
  sub := Rminus;
  mul := Rmult;
  div := Rdiv;
  neg := Ropp;
  lt := RNum.ltb;
  le := RNum.leb;
  strict_eq := RNum.eqb;
  truthy x := negb (RNum.eqb x 0%R);
  Math_PI := PI;
  Math_sqrt := R_sqrt.sqrt;
  Math_cos := cos;
  Math_sin := sin;
  Math_tan := tan;
  Math_acos := acos;
  Math_atan := atan;
  toFixed := RNum.to_fixed
|}.

(** *** IEEE-754 binary64 *)

Module F64.

(** The double nearest to the integer [z]. *)
Definition of_Z (z : Z) : float :=
  SF2Prim (SpecFloat.binary_normalize prec emax z 0 false).

(** The double nearest to [m / 10^k], ties to even: the value of the
    decimal literal, for every [m] and [k].  The quotient is taken with
    at least 64 bits, and one more bit says whether the division left a
    remainder; rounding that integer is rounding the exact quotient.
    Results below the normal range are subnormal or zero, results above
    the range are infinite. *)
Definition decimal (m : Z) (k : nat) : float :=
  let d := (10 ^ Z.of_nat k)%Z in
  let s := Z.max 0 (Z.log2 d + 64 - Z.log2 (Z.abs m)) in
  let n := Z.shiftl (Z.abs m) s in
  let q := (2 * (n / d) + (if (n mod d =? 0)%Z then 0 else 1))%Z in
  let r := SpecFloat.binary_normalize prec emax q (- (s + 1)) false in
  SF2Prim (if (m <? 0)%Z then SpecFloat.SFopp r else r).

(** The real number that a finite double is, and 0 for the others *)
Definition to_R (x : float) : R :=
  match Prim2SF x with
  | SpecFloat.S754_finite s m e =>
      ((if s then -1 else 1) * IZR (Zpos m) * powerRZ 2 e)%R
  | _ => 0%R
  end.

Definition is_nan (x : float) : bool := negb (PrimFloat.eqb x x).

Definition truthy (x : float) : bool :=
  negb (PrimFloat.eqb x PrimFloat.zero || is_nan x).

(** [Math.PI] *)
Definition PI : float := 0x1.921fb54442d18p+1%float.

End F64.

Section Binary64.

(** ECMAScript leaves the results of the transcendental functions
    implementation-approximated, and [toFixed] goes through a decimal
    string: both stay abstract in the binary64 instance. *)
Variables f_cos f_sin f_tan f_acos f_atan : float -> float.
Variable f_toFixed : float -> nat -> float.

Definition F64_number : Number float := {|
  of_Z := F64.of_Z;
  decimal := F64.decimal;
  add := PrimFloat.add;
  sub := PrimFloat.sub;
  mul := PrimFloat.mul;
  div := PrimFloat.div;
  neg := PrimFloat.opp;
  lt := PrimFloat.ltb;
  le := PrimFloat.leb;
  strict_eq := PrimFloat.eqb;
  truthy := F64.truthy;
  Math_PI := F64.PI;
  Math_sqrt := PrimFloat.sqrt;
  Math_cos := f_cos;
  Math_sin := f_sin;
  Math_tan := f_tan;
  Math_acos := f_acos;
  Math_atan := f_atan;
  toFixed := f_toFixed
  |}.

End Binary64.

(** ** The matrix: [this.elements = [ a, b, c, d, e, f ]] *)

Record Neo (num : Type) : Type := Elements {
  elt_a : num;  (* elements[0] *)
  elt_b : num;  (* elements[1] *)
  elt_c : num;  (* elements[2] *)
  elt_d : num;  (* elements[3] *)
  elt_e : num;  (* elements[4] *)
  elt_f : num   (* elements[5] *)
}.
Arguments Elements {num} _ _ _ _ _ _.
Arguments elt_a {num} _.
Arguments elt_b {num} _.
Arguments elt_c {num} _.
Arguments elt_d {num} _.
Arguments elt_e {num} _.
Arguments elt_f {num} _.

Section Methods.

Context {num : Type} {N : Number num}.
Local Open Scope js_scope.

(** The array as a list, for the code that indexes it in a loop. *)
Definition to_list (m : Neo num) : list num :=
  [elt_a m; elt_b m; elt_c m; elt_d m; elt_e m; elt_f m].

Definition index (m : Neo num) (i : nat) : num := nth i (to_list m) 0.

(** [x || d] where [x] may be [undefined] *)
Definition or_default (x : option num) (d : num) : num :=
  match x with
  | Some v => if truthy v then v else d
  | None => d
  end.

(** [reset]: [this.elements = [ 1, 0, 0, 1, 0, 0 ]]; [new Neo()] *)
Definition identity : Neo num := Elements 1 0 0 1 0 0.

Definition apply (this : Neo num) (x y : num) : num * num :=
  ( (elt_a this * x) + (elt_c this * y) + elt_e this,
    (elt_b this * x) + (elt_d this * y) + elt_f this ).

(** [multiply]: [m2] is [o.elements] or the six arguments. *)
Definition multiply (this m2 : Neo num) : Neo num :=
  let '(Elements a1 b1 c1 d1 e1 f1) := this in
  let '(Elements a2 b2 c2 d2 e2 f2) := m2 in
  (Elements ((a1 * a2) + (c1 * b2))
            ((b1 * a2) + (d1 * b2))
            ((a1 * c2) + (c1 * d2))
            ((b1 * c2) + (d1 * d2))
            ((a1 * e2) + (c1 * f2) + e1)
            ((b1 * e2) + (d1 * f2) + f1)).

Definition translate (this : Neo num) (tx ty : num) : Neo num :=
  multiply this (Elements 1 0 0 1 tx ty).

Definition translateX (this : Neo num) (tx : num) : Neo num :=
  multiply this (Elements 1 0 0 1 tx 0).

Definition translateY (this : Neo num) (ty : num) : Neo num :=
  multiply this (Elements 1 0 0 1 0 ty).

(** [scale] when [ox === undefined]: the [else] branch. *)
Definition scale_plain (this : Neo num) (sx : num) (sy : option num) : Neo num :=
  let sy := or_default sy sx in
  multiply this (Elements sx 0 0 sy 0 0).

(** [scale( sx, sy, ox, oy )].  The pivot is passed as a pair: the code
    assumes that [oy] is passed whenever [ox] is.  The inner call
    [.scale( sx, sy )] has no pivot, so it runs [scale_plain]. *)
Definition scale (this : Neo num) (sx : num) (sy : option num)
    (pivot : option (num * num)) : Neo num :=
  let sy := or_default sy sx in
  match pivot with
  | Some (ox, oy) =>
      translate (scale_plain (translate this (- ox) (- oy)) sx (Some sy)) ox oy
  | None => multiply this (Elements sx 0 0 sy 0 0)
  end.

Definition scaleX (this : Neo num) (sx : num) : Neo num :=
  multiply this (Elements sx 0 0 1 0 0).

Definition scaleY (this : Neo num) (sy : num) : Neo num :=
  multiply this (Elements 1 0 0 sy 0 0).

Definition rotateRad (this : Neo num) (r : num) : Neo num :=
  let cosR := Math_cos r in
  let sinR := Math_sin r in
  multiply this (Elements cosR sinR (- sinR) cosR 0 0).

(** degrees to radians, as the code writes it *)
Definition deg2rad : num := decimal 1745329251994 14.

Definition rotate_plain (this : Neo num) (r : num) : Neo num :=
  rotateRad this (r * deg2rad).

Definition rotate (this : Neo num) (r : num) (pivot : option (num * num)) : Neo num :=
  match pivot with
  | Some (ox, oy) =>
      translate (rotate_plain (translate this (- ox) (- oy)) r) ox oy
  | None => rotateRad this (r * deg2rad)
  end.

Definition flipX (this : Neo num) : Neo num :=
  scale this (neg 1) (Some 1) None.

Definition flipY (this : Neo num) : Neo num :=
  scale this 1 (Some (neg 1)) None.

Definition skewXRad (this : Neo num) (ax : num) : Neo num :=
  multiply this (Elements 1 0 (Math_tan ax) 1 0 0).

Definition skewYRad (this : Neo num) (ay : num) : Neo num :=
  multiply this (Elements 1 (Math_tan ay) 0 1 0 0).

Definition skewX (this : Neo num) (ax : num) : Neo num :=
  skewXRad this (ax * deg2rad).

Definition skewY (this : Neo num) (ay : num) : Neo num :=
  skewYRad this (ay * deg2rad).

Definition clone (this : Neo num) : Neo num :=
  Elements (elt_a this) (elt_b this) (elt_c this)
           (elt_d this) (elt_e this) (elt_f this).

(** [inverse]: six quotients by the determinant, no test on it. *)
Definition inverse (this : Neo num) : Neo num :=
  let '(Elements m0 m1 m2 m3 m4 m5) := this in
  let determinant := (m0 * m3) - (m2 * m1) in
  (Elements (m3 / determinant)
            ((- m1) / determinant)
            ((- m2) / determinant)
            (m0 / determinant)
            (((m2 * m5) - (m4 * m3)) / determinant)
            (((m4 * m1) - (m0 * m5)) / determinant)).

(** [equals]: [m] is [a.elements] or the six leading arguments;
    [tolerance] is the argument that follows them. *)
Definition equals (this m : Neo num) (tolerance : option num) : bool :=
  let tolerance := or_default tolerance (decimal 1 7) in
  fold_left
    (fun equals i =>
       let e1 := index this i in
       let e2 := index m i in
       if (e1 >? e2 + tolerance) || (e1 <? e2 - tolerance)
       then false else equals)
    (seq 0%nat 6%nat) true.

End Methods.

(** ** [Neo.decompose] *)

(** The object [Neo.decompose] returns, fields in the order they are
  assigned. *)
Record Decomposed (num : Type) : Type := Result {
  translateX_of : num;
  translateY_of : num;
  scaleX_of : num;
  scaleY_of : num;
  shear_of : num;
  rotate_of : num;
  rotationRads_of : num;
  rotationDegs_of : num
}.
Arguments Result {num} _ _ _ _ _ _ _ _.
Arguments translateX_of {num} _.
Arguments translateY_of {num} _.
Arguments scaleX_of {num} _.
Arguments scaleY_of {num} _.
Arguments shear_of {num} _.
Arguments rotate_of {num} _.
Arguments rotationRads_of {num} _.
Arguments rotationDegs_of {num} _.

Section Decompose.

Context {num : Type} {N : Number num}.
Local Open Scope js_scope.

Definition magnitude (vector : num * num) : num :=
  Math_sqrt ((fst vector * fst vector) + (snd vector * snd vector)).

Definition dotProduct (vector1 vector2 : num * num) : num :=
  (fst vector1 * fst vector2) + (snd vector1 * snd vector2).

Definition combine (vector1 vector2 : num * num) : num * num :=
  (fst vector1 + fst vector2, snd vector1 + snd vector2).

Definition scalar (vector : num * num) (s : num) : num * num :=
  (fst vector * s, snd vector * s).

(** [None] is the [false] that the code returns for a zero determinant. *)
Definition Neo_decompose (m : Neo num) : option (Decomposed num) :=
  let '(Elements a b c d e f) := m in
  if ((a * d) - (b * c)) === 0 then None
  else
    let translateX := e in
    let translateY := f in
    let mag := magnitude (a, b) in
    let scaleX := mag in
    let a := a / mag in
    let b := b / mag in
    let scaledShear := dotProduct (a, b) (c, d) in
    let desheared := combine (scalar (a, b) (- scaledShear)) (c, d) in
    let scaleY := magnitude (fst desheared, snd desheared) in
    let shear := scaledShear / scaleY in
    let cosA := a in
    let sinA := b in
    let rotate :=
      if sinA >=? 0 then Math_acos cosA
      else (2 * Math_PI) - Math_acos cosA in
    let rotationRads := rotate in
    let rotationDegs := rotationRads * (of_Z 180 / Math_PI) in
    Some (Result translateX translateY scaleX scaleY shear
                 rotate rotationRads rotationDegs).

End Decompose.

(** ** [toCSSString] *)

(** What [toCSSString] puts between the brackets of [scale( )]: the number
  [scaleX], or the string [scaleX + ',' + scaleY]. *)
Inductive scale_value (num : Type) : Type :=
| ScaleBoth (s : num)
| ScalePair (sx sy : num).
Arguments ScaleBoth {num} _.
Arguments ScalePair {num} _ _.

(** One entry of the array that [toCSSString] joins; the numbers are the
  ones concatenated into the entry. *)
Inductive token (num : Type) : Type :=
| Ttranslate (tx ty : num)      (* translate(<tx>px,<ty>px) *)
| TtranslateX (tx : num)        (* translateX(<tx>px) *)
| TtranslateY (ty : num)        (* translateY(<ty>px) *)
| Trotate (deg : num)           (* rotate(<deg>deg) *)
| Tscale (s : scale_value num)  (* scale(<s>) or scale(<sx>,<sy>) *)
| TskewX (deg : num)            (* skewX(<deg>deg) *)
| TscaleX (sx : num)            (* scaleX(<sx>) *)
| TscaleY (sy : num).           (* scaleY(<sy>) *)
Arguments Ttranslate {num} _ _.
Arguments TtranslateX {num} _.
Arguments TtranslateY {num} _.
Arguments Trotate {num} _.
Arguments Tscale {num} _.
Arguments TskewX {num} _.
Arguments TscaleX {num} _.
Arguments TscaleY {num} _.

(** The result before it is turned into text: the eight entries of the
  joined array ([None] is the empty string), or the elements of the
  [matrix( )] fallback. *)
Inductive css (num : Type) : Type :=
| Functions (entries : list (option (token num)))
| Matrix (m : Neo num).
Arguments Functions {num} _.
Arguments Matrix {num} _.

(** A call that returns a value or throws a RangeError *)
Inductive outcome (A : Type) : Type :=
| Returns (x : A)
| RangeError
| TypeError.
Arguments Returns {A} _.
Arguments RangeError {A}.
Arguments TypeError {A}.

Section ToCSSString.

Context {num : Type} {N : Number num}.
Local Open Scope js_scope.

(** [precision || 7], for a [precision] that is a count of digits *)
Definition digits (precision : option nat) : nat :=
  match precision with
  | Some (S p) => S p
  | _ => 7
  end.

Definition r2d : num := decimal 5729577951308232 14.

(** [+( '1e-' + ( precision || 7 ) )] *)
Definition limit (precision : option nat) : num := decimal 1 (digits precision).

(** [s]: [+( float ? float.toFixed( precision || 7 ) : false )].  This is
    the value when [toFixed] returns one; with more than 100 digits it
    throws, which [toCSSString_outcome] below accounts for. *)
Definition s (precision : option nat) (float : num) : num :=
  if truthy float then toFixed float (digits precision) else 0.

Section Parts.

  (** [d] is [this.decompose()]; on [false] every property is
      [undefined] and every comparison below is false. *)
Variable d : option (Decomposed num).
Variable precision : option nat.

Let lim := limit precision.

  (** The number in [rotate], which is that number followed by ['deg'] *)
Definition rotate_var : option num :=
    match d with
    | Some d =>
        if (rotate_of d >? lim) && (rotate_of d <? of_Z 360 - lim)
        then Some (s precision (rotate_of d * r2d)) else None
    | None => None
    end.

Definition skewX_var : option num :=
    match d with
    | Some d =>
        if (shear_of d >? lim) || (shear_of d <? - lim)
        then Some (s precision (Math_atan (shear_of d) * r2d)) else None
    | None => None
    end.

Definition scaleX_var : option num :=
    match d with
    | Some d =>
        if (scaleX_of d >? 1 + lim) || (scaleX_of d <? 1 - lim)
        then Some (s precision (scaleX_of d)) else None
    | None => None
    end.

Definition scaleY_var : option num :=
    match d with
    | Some d =>
        if (scaleY_of d >? 1 + lim) || (scaleY_of d <? 1 - lim)
        then Some (s precision (scaleY_of d)) else None
    | None => None
    end.

Definition translateX_var : option num :=
    match d with
    | Some d =>
        if (translateX_of d >? lim) || (translateX_of d <? - lim)
        then Some (s precision (translateX_of d)) else None
    | None => None
    end.

Definition translateY_var : option num :=
    match d with
    | Some d =>
        if (translateY_of d >? lim) || (translateY_of d <? - lim)
        then Some (s precision (translateY_of d)) else None
    | None => None
    end.

  (** [if ( rotate === '360deg' ) rotate = false]: the string is
      ['360deg'] exactly when the number in front of ['deg'] is 360. *)
Definition rotate_final : option num :=
    match rotate_var with
    | Some r => if r === of_Z 360 then None else Some r
    | None => None
    end.

  (** [scale], and [scaleX], [scaleY] after the collapse *)
Definition scale_final : option (scale_value num) * option num * option num :=
    match scaleX_var, scaleY_var with
    | Some sx, Some sy =>
        (Some (if sx === sy then ScaleBoth sx else ScalePair sx sy), None, None)
    | sx, sy => (None, sx, sy)
    end.

  (** [translate], and [translateX], [translateY] after the collapse *)
Definition translate_final : option (num * num) * option num * option num :=
    match translateX_var, translateY_var with
    | Some tx, Some ty => (Some (tx, ty), None, None)
    | tx, ty => (None, tx, ty)
    end.

  (** A number is tested by its value, a string by being non-empty. *)
Definition number_entry (mk : num -> token num) (v : option num) : option (token num) :=
    match v with
    | Some x => if truthy x then Some (mk x) else None
    | None => None
    end.

Definition string_entry (mk : num -> token num) (v : option num) : option (token num) :=
    option_map mk v.

Definition scale_entry (v : option (scale_value num)) : option (token num) :=
    match v with
    | Some (ScaleBoth x) => if truthy x then Some (Tscale (ScaleBoth x)) else None
    | Some (ScalePair x y) => Some (Tscale (ScalePair x y))
    | None => None
    end.

  (** The array literal of the [if ( d )] branch. *)
Definition entries : list (option (token num)) :=
    let '(scale, scaleX, scaleY) := scale_final in
    let '(translate, translateX, translateY) := translate_final in
    [ option_map (fun t => Ttranslate (fst t) (snd t)) translate;
      string_entry TtranslateX translateX;
      string_entry TtranslateY translateY;
      string_entry Trotate rotate_final;
      scale_entry scale;
      string_entry TskewX skewX_var;
      number_entry TscaleX scaleX;
      number_entry TscaleY scaleY ].

End Parts.

Definition toCSSString_parts (this : Neo num) (precision : option nat) : css num :=
  let d := Neo_decompose this in
  match d with
  | Some _ => Functions (entries d precision)
  | None => Matrix this
  end.

(** [Number.prototype.toFixed] throws a RangeError when it is asked for
    more than 100 digits.  A call of [s] reaches [toFixed] when the test
    in front of it holds and its argument is truthy. *)
Definition reaches_toFixed (test : bool) (float : num) : bool :=
  test && truthy float.

(** Whether one of the six calls of [s] in [toCSSString] reaches
    [toFixed]; on [false] for [d] no test holds. *)
Definition calls_toFixed (d : option (Decomposed num)) (precision : option nat) : bool :=
  let lim := limit precision in
  match d with
  | Some d =>
      reaches_toFixed ((rotate_of d >? lim) && (rotate_of d <? of_Z 360 - lim))
                      (rotate_of d * r2d)
      || reaches_toFixed ((shear_of d >? lim) || (shear_of d <? - lim))
                         (Math_atan (shear_of d) * r2d)
      || reaches_toFixed ((scaleX_of d >? 1 + lim) || (scaleX_of d <? 1 - lim))
                         (scaleX_of d)
      || reaches_toFixed ((scaleY_of d >? 1 + lim) || (scaleY_of d <? 1 - lim))
                         (scaleY_of d)
      || reaches_toFixed ((translateX_of d >? lim) || (translateX_of d <? - lim))
                         (translateX_of d)
      || reaches_toFixed ((translateY_of d >? lim) || (translateY_of d <? - lim))
                         (translateY_of d)
  | None => false
  end.

(** [toCSSString] with the RangeError of [toFixed]: the call throws when
    [precision || 7] is above 100 and a call of [s] reaches [toFixed],
    and returns the entries otherwise. *)
Definition toCSSString_outcome (this : Neo num) (precision : option nat)
    : outcome (css num) :=
  if (100 <? digits precision)%nat && calls_toFixed (Neo_decompose this) precision
  then RangeError
  else Returns (toCSSString_parts this precision).

Section Text.

  (** Number-to-string conversion of the engine *)
Variable show : num -> string.
Local Open Scope string_scope.

Definition show_scale (v : scale_value num) : string :=
    match v with
    | ScaleBoth x => show x
    | ScalePair x y => show x ++ "," ++ show y
    end.

Definition show_token (t : token num) : string :=
    match t with
    | Ttranslate tx ty => "translate(" ++ show tx ++ "px," ++ show ty ++ "px)"
    | TtranslateX tx => "translateX(" ++ show tx ++ "px)"
    | TtranslateY ty => "translateY(" ++ show ty ++ "px)"
    | Trotate deg => "rotate(" ++ show deg ++ "deg)"
    | Tscale v => "scale(" ++ show_scale v ++ ")"
    | TskewX deg => "skewX(" ++ show deg ++ "deg)"
    | TscaleX sx => "scaleX(" ++ show sx ++ ")"
    | TscaleY sy => "scaleY(" ++ show sy ++ ")"
    end.

Definition show_entry (e : option (token num)) : string :=
    match e with
    | Some t => show_token t
    | None => ""
    end.

  (** [toString]: ['matrix(' + this.elements.join( ',' ) + ')'] *)
Definition toString (this : Neo num) : string :=
    "matrix(" ++ String.concat "," (map show (to_list this)) ++ ")".

Definition toCSSString (this : Neo num) (precision : option nat) : string :=
    match toCSSString_parts this precision with
    | Functions es => String.concat " " (map show_entry es)
    | Matrix m => toString m
    end.

End Text.

End ToCSSString.

(** ** Strings: the built-ins that [Neo.fromString] calls *)

Module Str.

Local Open Scope string_scope.

Definition is_upper (c : ascii) : bool :=
  (65 <=? nat_of_ascii c)%nat && (nat_of_ascii c <=? 90)%nat.

Definition lower (c : ascii) : ascii :=
  if is_upper c then ascii_of_nat (nat_of_ascii c + 32) else c.

(** [String.prototype.toLowerCase], on ASCII *)
Fixpoint toLowerCase (s : string) : string :=
  match s with
  | EmptyString => EmptyString
  | String c r => String (lower c) (toLowerCase r)
  end.

(** [p] read at the start of [s]: the text read and what follows it.
    With [ci] the comparison ignores case, as under the [i] flag. *)
Fixpoint read (ci : bool) (p s : string) : option (string * string) :=
  match p, s with
  | EmptyString, _ => Some (EmptyString, s)
  | String _ _, EmptyString => None
  | String cp rp, String cs rs =>
      if (if ci then Ascii.eqb (lower cp) (lower cs) else Ascii.eqb cp cs)
      then match read ci rp rs with
           | Some (got, rest) => Some (String cs got, rest)
           | None => None
           end
      else None
  end.

(** The first of the alternatives [alts] that reads at the start of [s] *)
Fixpoint read_any (ci : bool) (alts : list string) (s : string)
    : option (string * string) :=
  match alts with
  | [] => None
  | p :: alts' =>
      match read ci p s with
      | Some r => Some r
      | None => read_any ci alts' s
      end
  end.

(** [/alt1|alt2|.../.exec( s )]: the leftmost match, as the text before
    it, the match and the text after it *)
Fixpoint exec (alts : list string) (s : string) : option (string * string * string) :=
  match read_any false alts s with
  | Some (got, rest) => Some (EmptyString, got, rest)
  | None =>
      match s with
      | EmptyString => None
      | String c r =>
          match exec alts r with
          | Some (before, got, rest) => Some (String c before, got, rest)
          | None => None
          end
      end
  end.

(** [s.replace( pattern, replacement )] for a pattern without the [g]
    flag: only the first match is replaced. *)
Definition replace (alts : list string) (replacement s : string) : string :=
  match exec alts s with
  | Some (before, _, rest) => before ++ replacement ++ rest
  | None => s
  end.

(** [s.split( c )] *)
Fixpoint split (c : ascii) (s : string) : list string :=
  match s with
  | EmptyString => [EmptyString]
  | String x r =>
      if Ascii.eqb x c then EmptyString :: split c r
      else match split c r with
           | first :: others => String x first :: others
           | [] => [String x EmptyString]
           end
  end.

(** *** ToNumber on a string *)

Definition is_space (c : ascii) : bool :=
  let n := nat_of_ascii c in
  (n =? 32)%nat || ((9 <=? n)%nat && (n <=? 13)%nat).

Fixpoint trim_start (s : string) : string :=
  match s with
  | String c r => if is_space c then trim_start r else s
  | EmptyString => EmptyString
  end.

Fixpoint rev_onto (s acc : string) : string :=
  match s with
  | EmptyString => acc
  | String c r => rev_onto r (String c acc)
  end.

Definition trim (s : string) : string :=
  rev_onto (trim_start (rev_onto (trim_start s) EmptyString)) EmptyString.

(** The value of a digit in a base up to 16 *)
Definition digit_value (base : Z) (c : ascii) : option Z :=
  let n := Z.of_nat (nat_of_ascii (lower c)) in
  let v := if (48 <=? n)%Z && (n <=? 57)%Z then (n - 48)%Z
           else if (97 <=? n)%Z && (n <=? 102)%Z then (n - 87)%Z
           else 16%Z in
  if (v <? base)%Z then Some v else None.

(** The longest run of digits at the start of [s], read onto [acc]:
    the number read, how many digits, and what follows. *)
Fixpoint read_digits (base : Z) (s : string) (acc : Z) (count : nat)
    : Z * nat * string :=
  match s with
  | EmptyString => (acc, count, s)
  | String c r =>
      match digit_value base c with
      | Some v => read_digits base r (acc * base + v)%Z (S count)
      | None => (acc, count, s)
      end
  end.

(** A parsed numeric literal: [sign * mantissa * 10^exponent] *)
Inductive literal : Type :=
| Finite (negative : bool) (mantissa : Z) (exponent : Z)
| Infinite (negative : bool)
| NotANumber.

(** ExponentPart, optional; nothing may follow it. *)
Definition read_exponent (s : string) : option Z :=
  match s with
  | EmptyString => Some 0%Z
  | String c r =>
      if Ascii.eqb (lower c) "e" then
        let '(negative, r) :=
          match r with
          | String "-" r' => (true, r')
          | String "+" r' => (false, r')
          | _ => (false, r)
          end in
        match read_digits 10 r 0 0 with
        | (e, S _, EmptyString) => Some (if negative then (- e)%Z else e)
        | _ => None
        end
      else None
  end.

(** StrUnsignedDecimalLiteral *)
Definition read_unsigned (negative : bool) (s : string) : literal :=
  if String.eqb s "Infinity" then Infinite negative
  else
    let '(i, ni, r1) := read_digits 10 s 0 0 in
    let '(m, nf, r2) :=
      match r1 with
      | String "." r => let '(m, n, r2) := read_digits 10 r i 0 in (m, n, r2)
      | _ => (i, 0%nat, r1)
      end in
    match (ni + nf)%nat, read_exponent r2 with
    | S _, Some e => Finite negative m (e - Z.of_nat nf)
    | _, _ => NotANumber
    end.

(** NonDecimalIntegerLiteral: [0x], [0o], [0b] *)
Definition read_non_decimal (s : string) : option literal :=
  match s with
  | String "0" (String c r) =>
      let base :=
        match lower c with
        | "x"%char => Some 16%Z
        | "o"%char => Some 8%Z
        | "b"%char => Some 2%Z
        | _ => None
        end in
      match base with
      | Some b =>
          match read_digits b r 0 0 with
          | (v, S _, EmptyString) => Some (Finite false v 0)
          | _ => Some NotANumber
          end
      | None => None
      end
  | _ => None
  end.

(** StringToNumber: white space is trimmed and the empty string is 0. *)
Definition StringNumericLiteral (s : string) : literal :=
  let t := trim s in
  match t with
  | EmptyString => Finite false 0 0
  | String "-" r => read_unsigned true r
  | String "+" r => read_unsigned false r
  | _ =>
      match read_non_decimal t with
      | Some l => l
      | None => read_unsigned false t
      end
  end.

End Str.

(** ** [Neo.fromString] *)

(** The methods that [matrix[ type ]] can name. *)
Inductive method : Type :=
| M_translate | M_translateX | M_translateY
| M_scale | M_scaleX | M_scaleY
| M_rotate | M_skewX | M_skewY
| M_multiply.

Section FromString.

Context {num : Type} {N : Number num}.
Local Open Scope js_scope.

(** [+string].  [None] is a result outside the number model: [NaN], or an
    infinity written as the literal [Infinity].  The value of a literal
    is the integer [m * 10^e], or the quotient [m / 10^-e], converted
    once: in binary64, the double nearest to it, an infinity when the
    literal is above the range. *)
Definition to_number (s : string) : option num :=
  match Str.StringNumericLiteral s with
  | Str.Finite negative m e =>
      let v := if (0 <=? e)%Z then of_Z (m * 10 ^ e)%Z
               else decimal m (Z.to_nat (- e)) in
      Some (if negative then neg v else v)
  | Str.Infinite _ => None
  | Str.NotANumber => None
  end.

Definition transformTypes : list string :=
  [ "translate"; "translateX"; "translateY";
    "scale"; "scaleX"; "scaleY";
    "rotate"; "skewX"; "skewY"; "matrix" ]%string.

Definition angleUnits : list string := [ "grad"; "rad"; "deg"; "turn" ]%string.

(** [[^\)]+\)] : the longest run of characters other than [)], then [)] *)
Fixpoint read_arguments (s : string) : option (string * string) :=
  match s with
  | EmptyString => None
  | String c r =>
      if Ascii.eqb c ")" then Some (EmptyString, r)
      else match read_arguments r with
           | Some (args, rest) => Some (String c args, rest)
           | None => None
           end
  end.

(** The pattern [(translate|...|matrix)\(([^\)]+)\)] tried at the start of
    [s], alternatives in order: [match[1]], [match[2]]. *)
Fixpoint pattern_at (alts : list string) (s : string) : option (string * string) :=
  match alts with
  | [] => None
  | p :: alts' =>
      match Str.read true p s with
      | Some (name, String "(" r) =>
          match read_arguments r with
          | Some (String c args, _) => Some (name, String c args)
          | _ => pattern_at alts' s
          end
      | _ => pattern_at alts' s
      end
  end.

(** The successive results of [pattern.exec( string )] under the [g]
    flag.  After a match the search resumes behind it: [skip] counts the
    characters of the match that are still to be passed. *)
Fixpoint exec_all (skip : nat) (s : string) : list (string * string) :=
  match s with
  | EmptyString => []
  | String _ r =>
      match skip with
      | S k => exec_all k r
      | O =>
          match pattern_at transformTypes s with
          | Some (name, args) =>
              (name, args) :: exec_all (String.length name + String.length args + 1) r
          | None => exec_all 0 r
          end
      end
  end.

Definition rad2deg : num := of_Z 180 / Math_PI.
Definition grad2deg : num := of_Z 200 / Math_PI.
Definition turn2deg : num := of_Z 360.

(** The body of the [for] loop of [getParameters], for one piece of the
    split string *)
Definition getParameter (piece : string) : option num :=
  let parameterString := Str.replace ["px"%string] "" piece in
  match Str.exec angleUnits parameterString with
  | Some (before, angleUnit, rest) =>
      let angle := to_number (before ++ rest) in
      let angleUnit := Str.toLowerCase angleUnit in
      if String.eqb angleUnit "rad" then option_map (fun a => a * rad2deg) angle
      else if String.eqb angleUnit "grad" then option_map (fun a => a * grad2deg) angle
      else if String.eqb angleUnit "turn" then option_map (fun a => a * turn2deg) angle
      else angle
  | None => to_number parameterString
  end.

Definition getParameters (string : string) : list (option num) :=
  map getParameter (Str.split "," string).

(** [match[1].toLowerCase().replace( 'x', 'X' ).replace( 'y', 'Y' ).replace( 'iX', 'ix' )] *)
Definition type_of (match1 : string) : string :=
  Str.replace ["iX"%string] "ix"
    (Str.replace ["y"%string] "Y"
       (Str.replace ["x"%string] "X" (Str.toLowerCase match1))).

(** [matrix[ type ]], and [matrix.multiply] when [type === 'matrix'] *)
Definition method_of (type : string) : option method :=
  if String.eqb type "matrix" then Some M_multiply
  else if String.eqb type "translate" then Some M_translate
  else if String.eqb type "translateX" then Some M_translateX
  else if String.eqb type "translateY" then Some M_translateY
  else if String.eqb type "scale" then Some M_scale
  else if String.eqb type "scaleX" then Some M_scaleX
  else if String.eqb type "scaleY" then Some M_scaleY
  else if String.eqb type "rotate" then Some M_rotate
  else if String.eqb type "skewX" then Some M_skewX
  else if String.eqb type "skewY" then Some M_skewY
  else None.

(** The argument at position [i] when it is a number of the model *)
Definition number_at (parameters : list (option num)) (i : nat) : option num :=
  match nth_error parameters i with
  | Some (Some x) => Some x
  | _ => None
  end.

(** The pivot arguments at positions [i] and [i + 1]: [Some None] when
    none is passed, [None] when one is passed that is not a number of the
    model. *)
Definition pivot_at (parameters : list (option num)) (i : nat)
    : option (option (num * num)) :=
  match nth_error parameters i with
  | None => Some None
  | Some ox =>
      match ox, number_at parameters (S i) with
      | Some ox, Some oy => Some (Some (ox, oy))
      | _, _ => None
      end
  end.

(** [method.apply( matrix, parameters )].  [None] is a matrix with a
    component outside the number model. *)
Definition call (m : method) (matrix : Neo num) (parameters : list (option num))
    : option (Neo num) :=
  let arg := number_at parameters in
  match m with
  | M_translate =>
      match arg 0%nat, arg 1%nat with
      | Some tx, Some ty => Some (translate matrix tx ty)
      | _, _ => None
      end
  | M_translateX => option_map (translateX matrix) (arg 0%nat)
  | M_translateY => option_map (translateY matrix) (arg 0%nat)
  | M_scale =>
      match arg 0%nat, pivot_at parameters 2 with
      | Some sx, Some pivot => Some (scale matrix sx (arg 1%nat) pivot)
      | _, _ => None
      end
  | M_scaleX => option_map (scaleX matrix) (arg 0%nat)
  | M_scaleY => option_map (scaleY matrix) (arg 0%nat)
  | M_rotate =>
      match arg 0%nat, pivot_at parameters 1 with
      | Some r, Some pivot => Some (rotate matrix r pivot)
      | _, _ => None
      end
  | M_skewX => option_map (skewX matrix) (arg 0%nat)
  | M_skewY => option_map (skewY matrix) (arg 0%nat)
  | M_multiply =>
      match arg 0%nat, arg 1%nat, arg 2%nat, arg 3%nat, arg 4%nat, arg 5%nat with
      | Some a, Some b, Some c, Some d, Some e, Some f =>
          Some (multiply matrix (Elements a b c d e f))
      | _, _, _, _, _, _ => None
      end
  end.

(** The [while] loop over the matches.  The value of the method call is
    an expression statement: nothing is assigned, [matrix] stays the
    variable's value.  [None] is the TypeError of calling a method that
    does not exist. *)
Fixpoint fromString_loop (matrix : Neo num) (matches : list (string * string))
    : option (Neo num) :=
  match matches with
  | [] => Some matrix
  | (match1, match2) :: rest =>
      let type := type_of match1 in
      let parameters := getParameters match2 in
      match method_of type with
      | Some m =>
          let _ := call m matrix parameters in
          fromString_loop matrix rest
      | None => None
      end
  end.

Definition Neo_fromString (string : string) : option (Neo num) :=
  let matrix := identity in
  fromString_loop matrix (exec_all 0 string).

End FromString.

(** ** The object layer: instances in a store

    An instance of [Neo] is an object with two properties: [elements],
    the array of the six numbers, and [decomposed], which [reset], [set]
    and [decompose] assign.  No method writes into an array it did not
    create itself ([inverse] fills the array of the instance it has just
    made), so an array is stored by value. *)

Module Store.

(** The value of the [decomposed] property *)
Inductive value (num : Type) : Type :=
| V_undefined
| V_false
| V_object (properties : list (string * num)).
Arguments V_undefined {num}.
Arguments V_false {num}.
Arguments V_object {num} _.

(** A value passed to the constructor: the values that its tests tell
    apart.  Booleans, functions and the objects that are not arrays are
    left out. *)
#[warnings="-register-all"] Inductive passed (num : Type) : Type :=
| P_undefined
| P_null
| P_number (x : num)
| P_string (s : string)
| P_array (items : list (passed num)).
Arguments P_undefined {num}.
Arguments P_null {num}.
Arguments P_number {num} _.
Arguments P_string {num} _.
Arguments P_array {num} _.

Record instance (num : Type) : Type := Instance {
  elements : Neo num;
  decomposed : value num
}.
Arguments Instance {num} _ _.
Arguments elements {num} _.
Arguments decomposed {num} _.

(** References are positions in the store. *)
Definition ref : Type := nat.
Definition store (num : Type) : Type := list (instance num).

(** Computations on the store; [None] is a dangling reference. *)
Definition M (num A : Type) : Type := store num -> option (A * store num).

Definition ret {num A} (x : A) : M num A := fun h => Some (x, h).

Definition bind {num A B} (c : M num A) (k : A -> M num B) : M num B :=
  fun h => match c h with
           | Some (x, h') => k x h'
           | None => None
           end.

Notation "x <- c ;; k" := (bind c (fun x => k))
  (at level 63, c at next level, right associativity).
Notation "c ;;; k" := (bind c (fun _ => k))
  (at level 63, right associativity).

Definition alloc {num} (o : instance num) : M num ref :=
  fun h => Some (length h, h ++ [o]).

Definition read {num} (l : ref) : M num (instance num) :=
  fun h => match h !! l with
           | Some o => Some (o, h)
           | None => None
           end.

Definition write {num} (l : ref) (o : instance num) : M num unit :=
  fun h => match h !! l with
           | Some _ => Some (tt, <[l := o]> h)
           | None => None
           end.

(** The argument of [multiply] and [equals]: an instance or six numbers *)
Inductive argument (num : Type) : Type :=
| Instance_arg (o : ref)
| Numbers_arg (m : Neo num).
Arguments Instance_arg {num} _.
Arguments Numbers_arg {num} _.

Section Objects.

Context {num : Type} {N : Number num}.
Local Open Scope js_scope.

Definition get_elements (l : ref) : M num (Neo num) :=
  o <- read l ;; ret (elements o).

Definition set_elements (l : ref) (m : Neo num) : M num unit :=
  o <- read l ;; write l (Instance m (decomposed o)).

Definition set_decomposed (l : ref) (v : value num) : M num unit :=
  o <- read l ;; write l (Instance (elements o) v).

(** [elements[ i ] = v] *)
Definition set_index (l : ref) (i : nat) (v : num) : M num unit :=
  o <- read l ;;
  let '(Elements a b c d e f) := elements o in
  let m := match i with
           | 0%nat => (Elements v b c d e f)
           | 1%nat => (Elements a v c d e f)
           | 2%nat => (Elements a b v d e f)
           | 3%nat => (Elements a b c v e f)
           | 4%nat => (Elements a b c d v f)
           | _ => (Elements a b c d e v)
           end in
  write l (Instance m (decomposed o)).

(** The object literal of [reset] *)
Definition reset_literal : value num :=
  V_object [ ("rotate", 0); ("scaleX", 1); ("scaleY", 1);
           ("shear", 0); ("translateX", 0); ("translateY", 0) ]%string.

(** The object that [Neo.decompose] builds, or its [false] *)
Definition value_of (r : option (Decomposed num)) : value num :=
  match r with
  | Some d =>
      V_object [ ("translateX", translateX_of d); ("translateY", translateY_of d);
               ("scaleX", scaleX_of d); ("scaleY", scaleY_of d);
               ("shear", shear_of d); ("rotate", rotate_of d);
               ("rotationRads", rotationRads_of d);
               ("rotationDegs", rotationDegs_of d) ]%string
  | None => V_false
  end.

(** [reset] and [set] assign both properties and return [this]. *)
Definition reset (this : ref) : M num ref :=
  write this (Instance identity reset_literal) ;;; ret this.

Definition set (this : ref) (m : Neo num) : M num ref :=
  write this (Instance m (V_object [])) ;;; ret this.

(** [new Neo()]: the constructor runs [this.reset()]. *)
Definition new_Neo : M num ref :=
  alloc (Instance identity reset_literal).

(** [new Neo( a, b, c, d, e, f )] and [new Neo( array )]: only
    [elements] is assigned. *)
Definition new_Neo_of (m : Neo num) : M num ref :=
  alloc (Instance m V_undefined).

Definition elements_of (o : argument num) : M num (Neo num) :=
  match o with
  | Instance_arg l => get_elements l
  | Numbers_arg m => ret m
  end.

Definition multiply (this : ref) (o : argument num) : M num ref :=
  m1 <- get_elements this ;;
  m2 <- elements_of o ;;
  m3 <- new_Neo ;;
  set_elements m3 (multiply m1 m2) ;;;
  ret m3.

Definition translate (this : ref) (tx ty : num) : M num ref :=
  multiply this (Numbers_arg (Elements 1 0 0 1 tx ty)).

Definition translateX (this : ref) (tx : num) : M num ref :=
  multiply this (Numbers_arg (Elements 1 0 0 1 tx 0)).

Definition translateY (this : ref) (ty : num) : M num ref :=
  multiply this (Numbers_arg (Elements 1 0 0 1 0 ty)).

Definition scale_plain (this : ref) (sx : num) (sy : option num) : M num ref :=
  let sy := or_default sy sx in
  multiply this (Numbers_arg (Elements sx 0 0 sy 0 0)).

Definition scale (this : ref) (sx : num) (sy : option num)
    (pivot : option (num * num)) : M num ref :=
  let sy := or_default sy sx in
  match pivot with
  | Some (ox, oy) =>
      t <- translate this (- ox) (- oy) ;;
      u <- scale_plain t sx (Some sy) ;;
      translate u ox oy
  | None => multiply this (Numbers_arg (Elements sx 0 0 sy 0 0))
  end.

Definition scaleX (this : ref) (sx : num) : M num ref :=
  multiply this (Numbers_arg (Elements sx 0 0 1 0 0)).

Definition scaleY (this : ref) (sy : num) : M num ref :=
  multiply this (Numbers_arg (Elements 1 0 0 sy 0 0)).

Definition rotateRad (this : ref) (r : num) : M num ref :=
  let cosR := Math_cos r in
  let sinR := Math_sin r in
  multiply this (Numbers_arg (Elements cosR sinR (- sinR) cosR 0 0)).

Definition rotate (this : ref) (r : num) (pivot : option (num * num)) : M num ref :=
  match pivot with
  | Some (ox, oy) =>
      t <- translate this (- ox) (- oy) ;;
      u <- rotateRad t (r * deg2rad) ;;
      translate u ox oy
  | None => rotateRad this (r * deg2rad)
  end.

Definition flipX (this : ref) : M num ref := scale this (neg 1) (Some 1) None.

Definition flipY (this : ref) : M num ref := scale this 1 (Some (neg 1)) None.

Definition skewXRad (this : ref) (ax : num) : M num ref :=
  multiply this (Numbers_arg (Elements 1 0 (Math_tan ax) 1 0 0)).

Definition skewYRad (this : ref) (ay : num) : M num ref :=
  multiply this (Numbers_arg (Elements 1 (Math_tan ay) 0 1 0 0)).

Definition skewX (this : ref) (ax : num) : M num ref :=
  skewXRad this (ax * deg2rad).

Definition skewY (this : ref) (ay : num) : M num ref :=
  skewYRad this (ay * deg2rad).

(** [decompose]: [this.decomposed = Neo.decompose( this )] *)
Definition decompose (this : ref) : M num (option (Decomposed num)) :=
  m <- get_elements this ;;
  let result := Neo_decompose m in
  set_decomposed this (value_of result) ;;;
  ret result.

Definition clone (this : ref) : M num ref :=
  m <- get_elements this ;;
  new_Neo_of (Elements (elt_a m) (elt_b m) (elt_c m) (elt_d m) (elt_e m) (elt_f m)).

Definition inverse (this : ref) : M num ref :=
  m <- get_elements this ;;
  inverted <- new_Neo ;;
  let '(Elements m0 m1 m2 m3 m4 m5) := m in
  let determinant := (m0 * m3) - (m2 * m1) in
  set_index inverted 0 (m3 / determinant) ;;;
  set_index inverted 1 ((- m1) / determinant) ;;;
  set_index inverted 2 ((- m2) / determinant) ;;;
  set_index inverted 3 (m0 / determinant) ;;;
  set_index inverted 4 (((m2 * m5) - (m4 * m3)) / determinant) ;;;
  set_index inverted 5 (((m4 * m1) - (m0 * m5)) / determinant) ;;;
  ret inverted.

Definition equals (this : ref) (a : argument num) (tolerance : option num) : M num bool :=
  m <- elements_of a ;;
  e <- get_elements this ;;
  ret (equals e m tolerance).

Definition apply (this : ref) (x y : num) : M num (num * num) :=
  m <- get_elements this ;;
  ret (apply m x y).

(** [toCSSString] starts with [d = this.decompose()]. *)
Definition toCSSString (this : ref) (precision : option nat) : M num (css num) :=
  d <- decompose this ;;
  m <- get_elements this ;;
  ret (match d with
       | Some _ => Functions (entries d precision)
       | None => Matrix m
       end).

(** [method.apply( matrix, parameters )] on the store.  A call with an
    argument outside the number model is left out: the model cannot list
    the elements of the instance it makes, and nothing refers to it. *)
Definition call (m : method) (matrix : ref) (parameters : list (option num)) : M num unit :=
  let arg := number_at parameters in
  match m with
  | M_translate =>
      match arg 0%nat, arg 1%nat with
      | Some tx, Some ty => translate matrix tx ty ;;; ret tt
      | _, _ => ret tt
      end
  | M_translateX =>
      match arg 0%nat with Some tx => translateX matrix tx ;;; ret tt | None => ret tt end
  | M_translateY =>
      match arg 0%nat with Some ty => translateY matrix ty ;;; ret tt | None => ret tt end
  | M_scale =>
      match arg 0%nat, pivot_at parameters 2 with
      | Some sx, Some pivot => scale matrix sx (arg 1%nat) pivot ;;; ret tt
      | _, _ => ret tt
      end
  | M_scaleX =>
      match arg 0%nat with Some sx => scaleX matrix sx ;;; ret tt | None => ret tt end
  | M_scaleY =>
      match arg 0%nat with Some sy => scaleY matrix sy ;;; ret tt | None => ret tt end
  | M_rotate =>
      match arg 0%nat, pivot_at parameters 1 with
      | Some r, Some pivot => rotate matrix r pivot ;;; ret tt
      | _, _ => ret tt
      end
  | M_skewX =>
      match arg 0%nat with Some ax => skewX matrix ax ;;; ret tt | None => ret tt end
  | M_skewY =>
      match arg 0%nat with Some ay => skewY matrix ay ;;; ret tt | None => ret tt end
  | M_multiply =>
      match arg 0%nat, arg 1%nat, arg 2%nat, arg 3%nat, arg 4%nat, arg 5%nat with
      | Some a, Some b, Some c, Some d, Some e, Some f =>
          multiply matrix (Numbers_arg (Elements a b c d e f)) ;;; ret tt
      | _, _, _, _, _, _ => ret tt
      end
  end.

(** The [while] loop of [Neo.fromString] on the store: each match calls
    its method on [matrix], and the instance that the call returns is
    assigned to nothing.  The result [None] is the TypeError of a method
    that does not exist. *)
Fixpoint fromString_loop (matrix : ref) (matches : list (string * string))
    : M num (option ref) :=
  match matches with
  | [] => ret (Some matrix)
  | (match1, match2) :: rest =>
      let type := type_of match1 in
      let parameters := getParameters match2 in
      match method_of type with
      | Some m => call m matrix parameters ;;; fromString_loop matrix rest
      | None => ret None
      end
  end.

Definition fromString (string : string) : M num (option ref) :=
  matrix <- new_Neo ;;
  fromString_loop matrix (exec_all 0 string).

(** The calls of the public interface on a receiver *)
Inductive operation : Type :=
| Multiply (o : argument num)
| Translate (tx ty : num)
| TranslateX (tx : num)
| TranslateY (ty : num)
| Scale (sx : num) (sy : option num) (pivot : option (num * num))
| ScaleX (sx : num)
| ScaleY (sy : num)
| Rotate (r : num) (pivot : option (num * num))
| RotateRad (r : num)
| FlipX
| FlipY
| SkewX (ax : num)
| SkewY (ay : num)
| SkewXRad (ax : num)
| SkewYRad (ay : num)
| Inverse
| Clone
| Equals (a : argument num) (tolerance : option num)
| Apply (x y : num)
| Decompose
| ToCSSString (precision : option nat)
| Set_ (m : Neo num)
| Reset.

(** A call that returns an instance, and one that returns another value *)
Definition as_instance (c : M num ref) : M num (option ref) :=
  l <- c ;; ret (Some l).

Definition as_value {A : Type} (c : M num A) : M num (option ref) :=
  c ;;; ret None.

(** Running a call: the store after it, and the instance it returns when
    it returns one *)
Definition perform (op : operation) (this : ref) : M num (option ref) :=
  match op with
  | Multiply o => as_instance (multiply this o)
  | Translate tx ty => as_instance (translate this tx ty)
  | TranslateX tx => as_instance (translateX this tx)
  | TranslateY ty => as_instance (translateY this ty)
  | Scale sx sy pivot => as_instance (scale this sx sy pivot)
  | ScaleX sx => as_instance (scaleX this sx)
  | ScaleY sy => as_instance (scaleY this sy)
  | Rotate r pivot => as_instance (rotate this r pivot)
  | RotateRad r => as_instance (rotateRad this r)
  | FlipX => as_instance (flipX this)
  | FlipY => as_instance (flipY this)
  | SkewX ax => as_instance (skewX this ax)
  | SkewY ay => as_instance (skewY this ay)
  | SkewXRad ax => as_instance (skewXRad this ax)
  | SkewYRad ay => as_instance (skewYRad this ay)
  | Inverse => as_instance (inverse this)
  | Clone => as_instance (clone this)
  | Equals a tolerance => as_value (equals this a tolerance)
  | Apply x y => as_value (apply this x y)
  | Decompose => as_value (decompose this)
  | ToCSSString precision => as_value (toCSSString this precision)
  | Set_ m => as_instance (set this m)
  | Reset => as_instance (reset this)
  end.

(** The calls that assign a property of their receiver *)
Definition assigns (op : operation) : bool :=
  match op with
  | Decompose | ToCSSString _ | Set_ _ | Reset => true
  | _ => false
  end.

(** The instances that a call mentions in its arguments *)
Definition mentions (op : operation) : list ref :=
  match op with
  | Multiply (Instance_arg o) => [o]
  | Equals (Instance_arg o) _ => [o]
  | _ => []
  end.

(** [typeof a] *)
Definition typeof (a : passed num) : string :=
  match a with
  | P_undefined => "undefined"
  | P_null => "object"
  | P_number _ => "number"
  | P_string _ => "string"
  | P_array _ => "object"
  end.

(** [a.length]: the count of the items of an array and of the
    characters of a string, [undefined] on a number, and a TypeError on
    [null] and [undefined], which have no properties *)
Definition length_of (a : passed num) : outcome (option nat) :=
  match a with
  | P_undefined | P_null => TypeError
  | P_number _ => Returns None
  | P_string s => Returns (Some (String.length s))
  | P_array items => Returns (Some (List.length items))
  end.

Definition is_undefined (a : passed num) : bool :=
  match a with
  | P_undefined => true
  | _ => false
  end.

(** The parameter in place [i] of a call: [undefined] when the call
    passes fewer arguments *)
Definition parameter (arguments : list (passed num)) (i : nat) : passed num :=
  nth i arguments P_undefined.

(** The constructor [Neo( a, b, c, d, e, f )]: what it leaves in
    [elements] and in [decomposed].  [a.length] is read only when
    [typeof a === 'object'] holds.  The array of the first branch is the
    one of the caller, not a copy, which a value does not show. *)
Definition Neo_constructor (arguments : list (passed num))
    : outcome (passed num * value num) :=
  let a := parameter arguments 0 in
  let b := parameter arguments 1 in
  let c := parameter arguments 2 in
  let d := parameter arguments 3 in
  let e := parameter arguments 4 in
  let f := parameter arguments 5 in
  let test :=
    if String.eqb (typeof a) "object"
    then match length_of a with
         | Returns (Some n) => Returns (n =? 6)%nat
         | Returns None => Returns false
         | RangeError => RangeError
         | TypeError => TypeError
         end
    else Returns false in
  match test with
  | Returns true => Returns (a, V_undefined)
  | Returns false =>
      if negb (is_undefined a)
      then Returns (P_array [a; b; c; d; e; f], V_undefined)
      else Returns (P_array (map P_number (to_list identity)), reset_literal)
  | RangeError => RangeError
  | TypeError => TypeError
  end.

(** The matrix that an array of six numbers is *)
Definition matrix_of (v : passed num) : option (Neo num) :=
  match v with
  | P_array [P_number a; P_number b; P_number c; P_number d; P_number e; P_number f] =>
      Some (Elements a b c d e f)
  | _ => None
  end.

(** [new Neo( ... )] in the store.  [Returns None] is an instance whose
    [elements] are not an array of six numbers; the store holds none of
    these. *)
Definition new_Neo_with (arguments : list (passed num)) : M num (outcome (option ref)) :=
  match Neo_constructor arguments with
  | Returns (elements, decomposed) =>
      match matrix_of elements with
      | Some m => l <- alloc (Instance m decomposed) ;; ret (Returns (Some l))
      | None => ret (Returns None)
      end
  | RangeError => ret RangeError
  | TypeError => ret TypeError
  end.

End Objects.

End Store.

(** * Vocabulary of the properties *)

(** The result that the specification gives to [invert]: a failure on a
    determinant that is exactly zero, the closed form otherwise. *)
Inductive invert_result (num : Type) : Type :=
| SingularMatrix
| Inverted (m : Neo num).
Arguments SingularMatrix {num}.
Arguments Inverted {num} _.

(** ** Quantities in exact arithmetic *)

Section RealVocabulary.

Local Open Scope R_scope.

(** The determinant that [inverse] and [Neo.decompose] compute *)
Definition det (m : Neo R) : R := elt_a m * elt_d m - elt_b m * elt_c m.

(** The second argument that [scale] uses after [sy = sy || sx] *)
Definition effective_sy (sx : R) (sy : option R) : R :=
  match sy with
  | Some v => if Req_dec_T v 0 then sx else v
  | None => sx
  end.

(** The closed form of the inverse of an affine matrix *)
Definition closed_form_inverse (m : Neo R) : Neo R :=
  let '(Elements a b c d e f) := m in
  Elements (d / (a * d - b * c)) (- b / (a * d - b * c))
           (- c / (a * d - b * c)) (a / (a * d - b * c))
           ((c * f - d * e) / (a * d - b * c))
           ((b * e - a * f) / (a * d - b * c)).

(** [invert] as the specification words it *)
Definition invert_spec (m : Neo R) : invert_result R :=
  if Req_dec_T (elt_a m * elt_d m - elt_c m * elt_b m) 0
  then SingularMatrix
  else Inverted (closed_form_inverse m).

(** The test of one index in the loop of [equals] *)
Definition differs (tolerance e1 e2 : R) : bool :=
  RNum.ltb (e2 + tolerance) e1 || RNum.ltb e1 (e2 - tolerance).

(** The quantities that [Neo.decompose] computes, in closed form *)
Definition mag (m : Neo R) : R := R_sqrt.sqrt (elt_a m * elt_a m + elt_b m * elt_b m).

Definition cosA (m : Neo R) : R := elt_a m / mag m.

Definition sinA (m : Neo R) : R := elt_b m / mag m.

Definition scaledShear (m : Neo R) : R := cosA m * elt_c m + sinA m * elt_d m.

Definition angle (m : Neo R) : R :=
  if RNum.leb 0 (sinA m) then acos (cosA m) else 2 * PI - acos (cosA m).

(** Recomposition in the order of the specification: translate after
    scale after skewX after rotate.  With [this.multiply( o )] the product
    of [this] and [o], that is the chain below: the product of the four
    primitive matrices, the rotation innermost. *)
Definition recompose_spec (d : Decomposed R) : Neo R :=
  rotateRad
    (skewXRad
       (scale (translate identity (translateX_of d) (translateY_of d))
              (scaleX_of d) (Some (scaleY_of d)) None)
       (atan (shear_of d)))
    (rotationRads_of d).

(** Recomposition in the order that the decomposition undoes: translate,
    rotate, skewX, scale, the scale innermost. *)
Definition recompose (d : Decomposed R) : Neo R :=
  scale
    (skewXRad
       (rotateRad (translate identity (translateX_of d) (translateY_of d))
                  (rotationRads_of d))
       (atan (shear_of d)))
    (scaleX_of d) (Some (scaleY_of d)) None.

(** A quarter turn after a stretch of the y axis by 2 *)
Definition quarter_turn_stretch : Neo R := Elements 0 1 (-2) 0 0 0.

(** A shear of 1 after a stretch of the x axis by 2 *)
Definition sheared_stretch : Neo R := Elements 2 0 1 1 0 0.

(** A shear of 1 after a stretch of the x axis by 2 and of the y axis
    by 3 *)
Definition sheared_stretches : Neo R := Elements 2 0 3 3 0 0.

(** [rotate( 360 )] from the identity *)
Definition full_turn : Neo R := rotate identity 360 None.

(** [rotate( 359.93 )] from the identity *)
Definition almost_full_turn : Neo R := rotate identity (35993 / 100) None.

End RealVocabulary.

(** ** The entries of [toCSSString] *)

(** The position of a token's function in the array that is joined *)
Definition kind {num : Type} (t : token num) : nat :=
  match t with
  | Ttranslate _ _ => 0
  | TtranslateX _ => 1
  | TtranslateY _ => 2
  | Trotate _ => 3
  | Tscale _ => 4
  | TskewX _ => 5
  | TscaleX _ => 6
  | TscaleY _ => 7
  end.

(** The tokens of the joined string, from left to right *)
Fixpoint emitted {num : Type} (es : list (option (token num))) : list (token num) :=
  match es with
  | [] => []
  | Some t :: es' => t :: emitted es'
  | None :: es' => emitted es'
  end.

Definition in_place {num : Type} (i : nat) (e : option (token num)) : Prop :=
  match e with
  | Some t => kind t = i
  | None => True
  end.

(** The component that a token's function writes: the translation, the
    rotation, the scale or the shear *)
Definition family {num : Type} (t : token num) : nat :=
  match t with
  | Ttranslate _ _ | TtranslateX _ | TtranslateY _ => 0
  | Trotate _ => 1
  | Tscale _ | TscaleX _ | TscaleY _ => 2
  | TskewX _ => 3
  end.

(** A number further from zero than the [limit] of [toCSSString] *)
Definition far (precision : option nat) (v : R) : bool :=
  RNum.ltb (limit precision) (Rabs v).

(** ** Numbers of binary64 *)

(** Not a finite number: NaN, or one of the infinities *)
Definition not_finite (x : float) : bool := F64.is_nan x || PrimFloat.is_infinity x.

(** In the specification of binary64: a zero, and a zero or a finite
    number *)
Definition SF_is_zero (x : SpecFloat.spec_float) : bool :=
  match x with
  | SpecFloat.S754_zero _ => true
  | _ => false
  end.

Definition SF_is_finite (x : SpecFloat.spec_float) : bool :=
  match x with
  | SpecFloat.S754_zero _ | SpecFloat.S754_finite _ _ _ => true
  | _ => false
  end.

(** The determinant of a matrix of finite doubles, computed on the real
    numbers that they are *)
Definition exact_det (m : Neo float) : R :=
  (F64.to_R (elt_a m) * F64.to_R (elt_d m) - F64.to_R (elt_b m) * F64.to_R (elt_c m))%R.

(** [[ 1e-200, 0, 0, 1e-200, 0, 0 ]]: a scale whose determinant is below
    the least double *)
Definition tiny_scale : Neo float :=
  Elements (F64.decimal 1 200) 0%float 0%float (F64.decimal 1 200) 0%float 0%float.

(** [[ 1 + 2^-52, 1, 1, 1 - 2^-53, 0, 0 ]]: the product of the two
    diagonal elements, [1 + 2^-53 - 2^-105], rounds to 1 *)
Definition almost_flat : Neo float :=
  Elements 0x1.0000000000001p+0%float 1%float 1%float
           0x1.fffffffffffffp-1%float 0%float 0%float.

(** [neo2] of tests.js, [[ 3, 1, -1, 3, 100, 100 ]], in binary64 *)
Definition neo2 : Neo float :=
  Elements 3%float 1%float (-1)%float 3%float 100%float 100%float.

(** [[ 1e200, 1e200, 1e200, 1e200, 0, 0 ]]: two equal columns, whose
    products are above the greatest double *)
Definition huge_flat : Neo float :=
  Elements (F64.of_Z (10 ^ 200)) (F64.of_Z (10 ^ 200)) (F64.of_Z (10 ^ 200))
           (F64.of_Z (10 ^ 200)) 0%float 0%float.

(** ** Numbers in a text *)

(** The characters of a decimal literal with its sign, its exponent and
    the white space around it *)
Definition numeric_char (c : ascii) : bool :=
  let n := nat_of_ascii c in
  ((48 <=? n)%nat && (n <=? 57)%nat)
  || (n =? 43)%nat || (n =? 45)%nat || (n =? 46)%nat
  || (n =? 69)%nat || (n =? 101)%nat || (n =? 32)%nat.

Fixpoint numeric (s : string) : bool :=
  match s with
  | EmptyString => true
  | String c r => numeric_char c && numeric r
  end.

(** A text in which the character [c] does not occur *)
Fixpoint lacks (c : ascii) (s : string) : bool :=
  match s with
  | EmptyString => true
  | String x r => negb (Ascii.eqb x c) && lacks c r
  end.

(** ** Calls on the store *)

Section StoreVocabulary.

Context {num : Type} {N : Number num}.

(** The instances an argument mentions exist. *)
Definition valid (h : Store.store num) (a : Store.argument num) : Prop :=
  match a with
  | Store.Instance_arg l => is_Some (h !! l)
  | Store.Numbers_arg _ => True
  end.

(** The elements that an argument stands for *)
Definition argument_elements (h : Store.store num) (a : Store.argument num) : Neo num :=
  match a with
  | Store.Instance_arg l =>
      match h !! l with
      | Some o => Store.elements o
      | None => identity
      end
  | Store.Numbers_arg m => m
  end.

(** A call that returns a new instance: it adds instances behind the
    existing ones, and the one it returns is one of them, with the
    elements [f] of the receiver's and the [decomposed] of [reset]. *)
Definition returns_new (c : Store.ref -> Store.M num Store.ref)
    (f : Neo num -> Neo num) : Prop :=
  forall this h o, h !! this = Some o ->
    exists l news,
      c this h = Some (l, h ++ news)
      /\ (List.length h <= l)%nat
      /\ (h ++ news) !! l
         = Some (Store.Instance (f (Store.elements o)) Store.reset_literal).

(** What a call may return: the receiver itself when it assigns it, an
    instance that did not exist before otherwise *)
Definition returned (op : @Store.operation num) (this : Store.ref)
    (h h' : Store.store num) (r : option Store.ref) : Prop :=
  match r with
  | Some l =>
      if Store.assigns op then l = this
      else (List.length h <= l)%nat /\ is_Some (h' !! l)
  | None => True
  end.

(** What the receiver holds after a call *)
Definition effect (op : Store.operation) (o : Store.instance num) : Store.instance num :=
  match op with
  | Store.Decompose | Store.ToCSSString _ =>
      Store.Instance (Store.elements o)
                     (Store.value_of (Neo_decompose (Store.elements o)))
  | Store.Set_ m => Store.Instance m (Store.V_object [])
  | Store.Reset => Store.Instance identity Store.reset_literal
  | _ => o
  end.

(** A call returns with new instances behind the existing ones. *)
Definition adds_behind (c : Store.M num unit) (h : Store.store num) : Prop :=
  exists news, c h = Some (tt, h ++ news).

(** The matrix that a call of the builder returns, from the elements of
    its receiver; [None] for the calls that return something else or the
    receiver itself, and for [clone]. *)
Definition built (h : Store.store num) (op : Store.operation) (m : Neo num)
    : option (Neo num) :=
  match op with
  | Store.Multiply a => Some (multiply m (argument_elements h a))
  | Store.Translate tx ty => Some (translate m tx ty)
  | Store.TranslateX tx => Some (translateX m tx)
  | Store.TranslateY ty => Some (translateY m ty)
  | Store.Scale sx sy pivot => Some (scale m sx sy pivot)
  | Store.ScaleX sx => Some (scaleX m sx)
  | Store.ScaleY sy => Some (scaleY m sy)
  | Store.Rotate r pivot => Some (rotate m r pivot)
  | Store.RotateRad r => Some (rotateRad m r)
  | Store.FlipX => Some (flipX m)
  | Store.FlipY => Some (flipY m)
  | Store.SkewX ax => Some (skewX m ax)
  | Store.SkewY ay => Some (skewY m ay)
  | Store.SkewXRad ax => Some (skewXRad m ax)
  | Store.SkewYRad ay => Some (skewYRad m ay)
  | Store.Inverse => Some (inverse m)
  | _ => None
  end.

End StoreVocabulary.

(** The test of tests.js: three calls on [neo1], whose elements are then
    read *)
Definition methods_do_not_mutate : Store.M R (Neo R) :=
  Store.bind (Store.new_Neo_of (Elements 2 0 0 2 50 50)%R) (fun neo1 =>
  Store.bind (Store.new_Neo_of (Elements 3 1 (-1) 3 100 100)%R) (fun neo2 =>
  Store.bind (Store.multiply neo1 (Store.Instance_arg neo2)) (fun _ =>
  Store.bind (Store.translate neo1 50%R 50%R) (fun _ =>
  Store.bind (Store.scale neo1 4%R None None) (fun _ =>
  Store.get_elements neo1))))).

(** * Properties *)

(** ** Comparisons and literals in exact arithmetic *)

Section RealFacts.

Local Open Scope R_scope.

Lemma ltb_true (x y : R) : x < y -> RNum.ltb x y = true.
Proof. intros H. unfold RNum.ltb. destruct (Rlt_dec x y); [reflexivity | contradiction]. Qed.

Lemma ltb_false (x y : R) : y <= x -> RNum.ltb x y = false.
Proof. intros H. unfold RNum.ltb. destruct (Rlt_dec x y); [lra | reflexivity]. Qed.

Lemma leb_true (x y : R) : x <= y -> RNum.leb x y = true.
Proof. intros H. unfold RNum.leb. destruct (Rle_dec x y); [reflexivity | contradiction]. Qed.

Lemma leb_false (x y : R) : y < x -> RNum.leb x y = false.
Proof. intros H. unfold RNum.leb. destruct (Rle_dec x y); [lra | reflexivity]. Qed.

Lemma eqb_true (x y : R) : x = y -> RNum.eqb x y = true.
Proof. intros H. unfold RNum.eqb. destruct (Req_dec_T x y); [reflexivity | contradiction]. Qed.

Lemma eqb_false (x y : R) : x <> y -> RNum.eqb x y = false.
Proof. intros H. unfold RNum.eqb. destruct (Req_dec_T x y); [contradiction | reflexivity]. Qed.

Lemma pow10_pos (k : nat) : 0 < RNum.pow10 k.
Proof.
  unfold RNum.pow10. apply IZR_lt. apply Z.pow_pos_nonneg; lia.
Qed.

Lemma pow10_7 : RNum.pow10 7 = 10000000.
Proof. reflexivity. Qed.

End RealFacts.

(** Deciding the comparisons of a goal once their operands are known *)
Ltac compare_reals :=
  repeat match goal with
    | |- context [RNum.ltb ?x ?y] =>
        first [ rewrite (ltb_true x y) by lra | rewrite (ltb_false x y) by lra ]
    | |- context [RNum.leb ?x ?y] =>
        first [ rewrite (leb_true x y) by lra | rewrite (leb_false x y) by lra ]
    | |- context [RNum.eqb ?x ?y] =>
        first [ rewrite (eqb_true x y) by lra | rewrite (eqb_false x y) by lra ]
    end.

(** ** Multiplication and the builder *)

Section Builder.

Local Open Scope R_scope.

Lemma multiply_identity_l (m : Neo R) : multiply identity m = m.
Proof. destruct m; cbn. f_equal; lra. Qed.

Lemma multiply_identity_r (m : Neo R) : multiply m identity = m.
Proof. destruct m; cbn. f_equal; lra. Qed.

Lemma multiply_assoc (m1 m2 m3 : Neo R) :
  multiply (multiply m1 m2) m3 = multiply m1 (multiply m2 m3).
Proof. destruct m1, m2, m3; cbn. f_equal; lra. Qed.

(** The test of tests.js: multiplication of two given matrices *)
Example multiply_scenario :
  multiply (Elements 2 0 0 2 50 50) (Elements 3 1 (-1) 3 100 100)
  = (Elements 6 2 (-2) 6 250 250 : Neo R).
Proof. cbn. f_equal; lra. Qed.

Lemma or_default_zero (d : R) : or_default (Some 0) d = d.
Proof. cbn. rewrite eqb_true by reflexivity. reflexivity. Qed.

Lemma or_default_nonzero (v d : R) : v <> 0 -> or_default (Some v) d = v.
Proof. intros H. cbn. rewrite eqb_false by assumption. reflexivity. Qed.

End Builder.

(** ** [scale] and its second argument *)

Section ScaleDefault.

Local Open Scope R_scope.

Lemma or_default_effective (sx : R) (sy : option R) :
  or_default sy sx = effective_sy sx sy.
Proof.
  destruct sy as [v|]; [|reflexivity].
  cbn. unfold RNum.eqb. destruct (Req_dec_T v 0); reflexivity.
Qed.

(** Without a pivot [scale( sx, sy )] multiplies the receiver by
    [[ sx, 0, 0, sy', 0, 0 ]] where [sy'] is [sy] when [sy] is passed and
    is not zero, and [sx] when [sy] is omitted or is zero. *)
Lemma scale_multiplies_by_primitive (this : Neo R) (sx : R) (sy : option R) :
  scale this sx sy None = multiply this (Elements sx 0 0 (effective_sy sx sy) 0 0).
Proof.
  unfold scale. rewrite or_default_effective. reflexivity.
Qed.

(** C8, at an input where the code departs from it: in [scale( 2, 0 )]
    the zero is falsy, [sy = sy || sx] replaces it by 2, and the identity
    is multiplied by [[ 2, 0, 0, 2, 0, 0 ]], not by [[ 2, 0, 0, 0, 0, 0 ]]. *)
Lemma scale_2_0 :
  scale identity 2 (Some 0) None = (Elements 2 0 0 2 0 0 : Neo R)
  /\ scale identity 2 (Some 0) None <> multiply identity (Elements 2 0 0 0 0 0 : Neo R).
Proof.
  assert (E : scale identity 2 (Some 0) None = (Elements 2 0 0 2 0 0 : Neo R)).
  { rewrite scale_multiplies_by_primitive. cbn.
    destruct (Req_dec_T 0 0) as [_|H]; [|contradiction H; reflexivity].
    f_equal; lra. }
  split; [exact E|].
  rewrite E. cbn. intros H. injection H as H. lra.
Qed.

End ScaleDefault.

(** In binary64 the zero, the negative zero and NaN are all replaced. *)
Example scale_2_0_binary64 (c s t ac at_ : float -> float) (tf : float -> nat -> float) :
  let F := F64_number c s t ac at_ tf in
  map (fun sy => scale (N := F) identity 2%float (Some sy) None)
      [0%float; (-0)%float; nan]
  = [ Elements 2 0 0 2 0 0; Elements 2 0 0 2 0 0; Elements 2 0 0 2 0 0 ]%float.
Proof. vm_compute. reflexivity. Qed.

(** ** [inverse] *)

Section Inverse.

Local Open Scope R_scope.

Lemma inverse_closed_form (m : Neo R) : inverse m = closed_form_inverse m.
Proof.
  destruct m as [a b c d e f]. cbn.
  replace (a * d - c * b) with (a * d - b * c) by lra.
  f_equal; f_equal; lra.
Qed.

(** In exact real arithmetic and for a determinant other than zero, the
    result of [inverse] is the one of the specification, the closed-form
    inverse, which multiplied with the matrix on either side gives the
    identity. *)
Lemma inverse_of_regular (m : Neo R) :
  det m <> 0 ->
  invert_spec m = Inverted (inverse m)
  /\ multiply m (inverse m) = identity
  /\ multiply (inverse m) m = identity.
Proof.
  intros Hdet. split.
  { unfold invert_spec.
    destruct (Req_dec_T (elt_a m * elt_d m - elt_c m * elt_b m) 0) as [E|_].
    - exfalso. apply Hdet. unfold det. lra.
    - rewrite inverse_closed_form. reflexivity. }
  rewrite inverse_closed_form.
  destruct m as [a b c d e f]. unfold det, identity in *. cbn in Hdet |- *.
  split; f_equal; field; lra.
Qed.

Example inverse_of_regular_scenario :
  multiply (Elements 2 0 0 2 50 50) (inverse (Elements 2 0 0 2 50 50))
  = (identity : Neo R).
Proof.
  apply (inverse_of_regular (Elements 2 0 0 2 50 50)).
  unfold det; cbn. lra.
Qed.

End Inverse.

(** What the engine returns there: every quotient is a division by zero. *)
Example inverse_singular_binary64 (c s t ac at_ : float -> float) (tf : float -> nat -> float) :
  let F := F64_number c s t ac at_ tf in
  inverse (N := F) (Elements 1 0 0 0 0 0)%float
  = Elements nan nan nan infinity nan nan.
Proof. vm_compute. reflexivity. Qed.

(** ** [equals] *)

Section Equals.

Local Open Scope R_scope.

Lemma equals_unfold (this m : Neo R) (tolerance : option R) :
  equals this m tolerance
  = forallb (fun i => negb (differs (or_default tolerance (1 / 10000000))
                                    (index this i) (index m i)))
            (seq 0 6).
Proof.
  unfold equals. change (decimal 1 7) with (1 / RNum.pow10 7). rewrite pow10_7.
  set (t := or_default tolerance (1 / 10000000)).
  destruct this as [a1 b1 c1 d1 e1 f1], m as [a2 b2 c2 d2 e2 f2].
  cbn -[t]. unfold differs.
  repeat match goal with
    | |- context [RNum.ltb ?x ?y || RNum.ltb ?z ?w] =>
        destruct (RNum.ltb x y || RNum.ltb z w)
    end; reflexivity.
Qed.

Lemma differs_false (tolerance e1 e2 : R) :
  Rabs (e1 - e2) <= tolerance -> differs tolerance e1 e2 = false.
Proof.
  intros H. unfold differs.
  assert (- tolerance <= e1 - e2 <= tolerance) as [? ?].
  { unfold Rabs in H. destruct (Rcase_abs (e1 - e2)); lra. }
  rewrite !ltb_false by lra. reflexivity.
Qed.

Lemma differs_true (tolerance e1 e2 : R) :
  tolerance < Rabs (e1 - e2) -> differs tolerance e1 e2 = true.
Proof.
  intros H. unfold differs. unfold Rabs in H.
  destruct (Rcase_abs (e1 - e2)).
  - rewrite (ltb_true e1 (e2 - tolerance)) by lra. apply orb_true_r.
  - rewrite (ltb_true (e2 + tolerance) e1) by lra. reflexivity.
Qed.

(** With a tolerance that is truthy, [equals] is the comparison of the
    six differences with it. *)
Lemma equals_within (this m : Neo R) (t : R) :
  t <> 0 ->
  (forall i, (i < 6)%nat -> Rabs (index this i - index m i) <= t) ->
  equals this m (Some t) = true.
Proof.
  intros Ht H. rewrite equals_unfold, or_default_nonzero by assumption.
  apply forallb_forall. intros i Hi. apply in_seq in Hi.
  rewrite differs_false; [reflexivity | apply H; lia].
Qed.

Lemma equals_beyond (this m : Neo R) (t : R) (i : nat) :
  t <> 0 -> (i < 6)%nat -> t < Rabs (index this i - index m i) ->
  equals this m (Some t) = false.
Proof.
  intros Ht Hi H. rewrite equals_unfold, or_default_nonzero by assumption.
  apply not_true_is_false. intros E.
  rewrite forallb_forall in E. specialize (E i).
  rewrite differs_true in E by assumption.
  discriminate E. apply in_seq. lia.
Qed.



End Equals.

(** The same two calls in binary64: equal at tolerance 0 when [5e-8]
    apart, different when [5e-7] apart. *)
Example equals_zero_tolerance_binary64 (c s t ac at_ : float -> float) (tf : float -> nat -> float) :
  let F := F64_number c s t ac at_ tf in
  equals (N := F) identity (Elements (1 + F64.decimal 5 8) 0 0 1 0 0)%float (Some 0%float) = true
  /\ equals (N := F) identity (Elements (1 + F64.decimal 5 7) 0 0 1 0 0)%float (Some 0%float) = false.
Proof. vm_compute. split; reflexivity. Qed.

(** ** The guard of [Neo.decompose] *)

Section Guard.

Local Open Scope R_scope.

(** In exact real arithmetic [Neo.decompose] returns [false] exactly
    when [a*d - b*c] is zero; it does so on [[ 1, 0, 0, 0, 0, 0 ]], and for
    any other determinant it returns the record of components. *)
Lemma decompose_fails_iff_singular (m : Neo R) :
  (Neo_decompose m = None <-> elt_a m * elt_d m - elt_b m * elt_c m = 0)
  /\ (elt_a m * elt_d m - elt_b m * elt_c m <> 0 ->
      exists d, Neo_decompose m = Some d
                /\ translateX_of d = elt_e m /\ translateY_of d = elt_f m)
  /\ Neo_decompose (Elements 1 0 0 0 0 0 : Neo R) = None.
Proof.
  split; [|split].
  - destruct m as [a b c d e f]. cbn.
    unfold RNum.eqb. destruct (Req_dec_T (a * d - b * c) 0) as [E|E].
    + split; [intros _; exact E | reflexivity].
    + split; [discriminate | intros H; contradiction].
  - destruct m as [a b c d e f]. cbn. intros H.
    rewrite eqb_false by exact H.
    eexists. split; [reflexivity|]. split; reflexivity.
  - cbn. rewrite eqb_true by lra. reflexivity.
Qed.

Example decompose_fails_iff_singular_scenario :
  exists d, Neo_decompose (Elements 2 0 0 2 50 50 : Neo R) = Some d
            /\ translateX_of d = 50 /\ translateY_of d = 50.
Proof.
  apply (decompose_fails_iff_singular (Elements 2 0 0 2 50 50)).
  cbn. lra.
Qed.

End Guard.

Example decompose_singular_binary64 (c s t ac at_ : float -> float) (tf : float -> nat -> float) :
  let F := F64_number c s t ac at_ tf in
  Neo_decompose (N := F) (Elements 1 0 0 0 0 0)%float = None.
Proof. vm_compute. reflexivity. Qed.

(** ** What [Neo.decompose] computes *)

Section Decomposition.

Local Open Scope R_scope.

Lemma mag_pos (m : Neo R) : det m <> 0 -> 0 < mag m.
Proof.
  destruct m as [a b c d e f]. unfold det, mag. cbn. intros H.
  apply sqrt_lt_R0.
  destruct (Req_dec a 0) as [Ha|Ha]; [|nra].
  destruct (Req_dec b 0) as [Hb|Hb]; [|nra].
  subst. exfalso. apply H. ring.
Qed.

Lemma mag_sqr (m : Neo R) : mag m * mag m = elt_a m * elt_a m + elt_b m * elt_b m.
Proof. unfold mag. apply sqrt_sqrt. nra. Qed.

Lemma unit_axis (m : Neo R) : det m <> 0 -> cosA m * cosA m + sinA m * sinA m = 1.
Proof.
  intros H. pose proof (mag_pos m H) as Hn. pose proof (mag_sqr m) as Hs.
  unfold cosA, sinA.
  replace (elt_a m / mag m * (elt_a m / mag m) + elt_b m / mag m * (elt_b m / mag m))
    with ((elt_a m * elt_a m + elt_b m * elt_b m) / (mag m * mag m)) by (field; lra).
  rewrite <- Hs. field. lra.
Qed.

Lemma det_axis (m : Neo R) :
  det m <> 0 -> cosA m * elt_d m - sinA m * elt_c m = det m / mag m.
Proof.
  intros H. pose proof (mag_pos m H). unfold cosA, sinA, det. field. lra.
Qed.

(** The length of the y axis vector once the shear is taken off *)
Lemma desheared_length (m : Neo R) :
  det m <> 0 ->
  R_sqrt.sqrt ((cosA m * - scaledShear m + elt_c m) * (cosA m * - scaledShear m + elt_c m)
        + (sinA m * - scaledShear m + elt_d m) * (sinA m * - scaledShear m + elt_d m))
  = Rabs (det m) / mag m.
Proof.
  intros H. pose proof (mag_pos m H) as Hn. pose proof (unit_axis m H) as Hu.
  pose proof (det_axis m H) as Hd.
  unfold scaledShear in *.
  set (x := cosA m) in *. set (y := sinA m) in *.
  set (c := elt_c m) in *. set (d := elt_d m) in *.
  replace ((x * - (x * c + y * d) + c) * (x * - (x * c + y * d) + c)
           + (y * - (x * c + y * d) + d) * (y * - (x * c + y * d) + d))
    with ((x * d - y * c)² 
          + (1 - (x * x + y * y)) * (c * c + d * d - (x * c + y * d) * (x * c + y * d)))
    by (unfold Rsqr; ring).
  rewrite Hu, Hd. replace (1 - 1) with 0 by ring. rewrite Rmult_0_l, Rplus_0_r.
  rewrite sqrt_Rsqr_abs. unfold Rdiv. rewrite Rabs_mult.
  rewrite (Rabs_pos_eq (/ mag m)); [reflexivity|].
  left. apply Rinv_0_lt_compat, Hn.
Qed.

Lemma axis_bounds (m : Neo R) : det m <> 0 -> -1 <= cosA m <= 1.
Proof. intros H. pose proof (unit_axis m H). split; nra. Qed.

Lemma angle_cos_sin (m : Neo R) :
  det m <> 0 -> cos (angle m) = cosA m /\ sin (angle m) = sinA m.
Proof.
  intros H. pose proof (unit_axis m H) as Hu. pose proof (axis_bounds m H) as Hb.
  assert (Hs : sin (acos (cosA m)) = Rabs (sinA m)).
  { rewrite sin_acos by exact Hb.
    replace (1 - (cosA m)²) with ((sinA m)²) by (unfold Rsqr; lra).
    apply sqrt_Rsqr_abs. }
  unfold angle, RNum.leb. destruct (Rle_dec 0 (sinA m)) as [Hp|Hp].
  - split; [apply cos_acos, Hb|]. rewrite Hs. apply Rabs_pos_eq, Hp.
  - split.
    + rewrite cos_minus, cos_2PI, sin_2PI, cos_acos by exact Hb. ring.
    + rewrite sin_minus, cos_2PI, sin_2PI, Hs.
      rewrite Rabs_left by lra. ring.
Qed.

Lemma angle_range (m : Neo R) : det m <> 0 -> 0 <= angle m < 2 * PI.
Proof.
  intros H. pose proof (axis_bounds m H) as Hb.
  pose proof (acos_bound (cosA m)) as [Hlo Hhi].
  pose proof PI_RGT_0.
  unfold angle, RNum.leb. destruct (Rle_dec 0 (sinA m)) as [Hp|Hp]; [lra|].
  split; [lra|].
  assert (acos (cosA m) <> 0); [|lra].
  intros E. pose proof (angle_cos_sin m H) as [_ Hs].
  unfold angle, RNum.leb in Hs. destruct (Rle_dec 0 (sinA m)); [contradiction|].
  rewrite E, Rminus_0_r, sin_2PI in Hs. lra.
Qed.

(** The result of [Neo.decompose] on a matrix that is not singular *)
Lemma decompose_regular (m : Neo R) :
  det m <> 0 ->
  Neo_decompose m
  = Some (Result (elt_e m) (elt_f m) (mag m) (Rabs (det m) / mag m)
                 (scaledShear m / (Rabs (det m) / mag m))
                 (angle m) (angle m) (angle m * (180 / PI))).
Proof.
  intros H. rewrite <- (desheared_length m H).
  destruct m as [a b c d e f]. unfold det in H. cbn in H |- *.
  rewrite eqb_false by exact H. reflexivity.
Qed.

End Decomposition.

(** ** Recomposition *)

Section Recompose.

Local Open Scope R_scope.

Lemma recompose_value (d : Decomposed R) :
  scaleY_of d <> 0 ->
  recompose d
  = Elements (cos (rotationRads_of d) * scaleX_of d)
             (sin (rotationRads_of d) * scaleX_of d)
             ((cos (rotationRads_of d) * shear_of d - sin (rotationRads_of d)) * scaleY_of d)
             ((sin (rotationRads_of d) * shear_of d + cos (rotationRads_of d)) * scaleY_of d)
             (translateX_of d) (translateY_of d).
Proof.
  intros Hy. unfold recompose. rewrite scale_multiplies_by_primitive.
  unfold effective_sy. destruct (Req_dec_T (scaleY_of d) 0) as [E|_]; [contradiction|].
  cbn. rewrite tan_atan. f_equal; ring.
Qed.

Lemma recompose_spec_value (d : Decomposed R) :
  scaleY_of d <> 0 ->
  recompose_spec d
  = Elements (scaleX_of d * cos (rotationRads_of d)
              + shear_of d * scaleX_of d * sin (rotationRads_of d))
             (scaleY_of d * sin (rotationRads_of d))
             (shear_of d * scaleX_of d * cos (rotationRads_of d)
              - scaleX_of d * sin (rotationRads_of d))
             (scaleY_of d * cos (rotationRads_of d))
             (translateX_of d) (translateY_of d).
Proof.
  intros Hy. unfold recompose_spec. rewrite scale_multiplies_by_primitive.
  unfold effective_sy. destruct (Req_dec_T (scaleY_of d) 0) as [E|_]; [contradiction|].
  cbn. rewrite tan_atan. f_equal; ring.
Qed.

(** The order that gives the matrix back, in exact real arithmetic and
    for a positive determinant: translate, rotate, skewX of the
    arctangent of the shear, scale, the scale applied first to a point
    and the translation last. *)
Lemma recompose_regular (m : Neo R) :
  0 < det m ->
  exists d, Neo_decompose m = Some d
            /\ recompose d = m
            /\ equals (recompose d) m (Some (1 / 1000000)) = true.
Proof.
  intros Hpos. assert (H : det m <> 0) by lra.
  pose proof (mag_pos m H) as Hn.
  pose proof (angle_cos_sin m H) as [Hc Hs].
  pose proof (unit_axis m H) as Hu.
  pose proof (det_axis m H) as Hd.
  assert (Hy : 0 < det m / mag m) by (apply Rdiv_lt_0_compat; lra).
  assert (E : recompose (Result (elt_e m) (elt_f m) (mag m) (Rabs (det m) / mag m)
                 (scaledShear m / (Rabs (det m) / mag m))
                 (angle m) (angle m) (angle m * (180 / PI))) = m).
  { rewrite recompose_value; cbn [scaleY_of]; rewrite Rabs_pos_eq by lra; [|lra].
    cbn [rotationRads_of scaleX_of shear_of translateX_of translateY_of].
    rewrite Hc, Hs. rewrite <- Hd in *. unfold scaledShear.
    assert (Ha : cosA m * mag m = elt_a m) by (unfold cosA; field; lra).
    assert (Hb : sinA m * mag m = elt_b m) by (unfold sinA; field; lra).
    rewrite Ha, Hb.
    set (x := cosA m) in *. set (y := sinA m) in *.
    set (c := elt_c m) in *. set (d := elt_d m) in *.
    replace ((x * ((x * c + y * d) / (x * d - y * c)) - y) * (x * d - y * c))
      with (c + (x * x + y * y - 1) * c) by (field; lra).
    replace ((y * ((x * c + y * d) / (x * d - y * c)) + x) * (x * d - y * c))
      with (d + (x * x + y * y - 1) * d) by (field; lra).
    rewrite Hu. replace (1 - 1) with 0 by ring. rewrite !Rmult_0_l, !Rplus_0_r.
    subst c d. destruct m; reflexivity. }
  eexists. split; [apply decompose_regular, H|]. split; [exact E|].
  rewrite E. apply equals_within; [lra|].
  intros i _. rewrite Rminus_diag, Rabs_R0. lra.
Qed.

Example recompose_regular_scenario :
  exists d, Neo_decompose (Elements 2 0 0 2 50 50 : Neo R) = Some d
            /\ recompose d = Elements 2 0 0 2 50 50
            /\ equals (recompose d) (Elements 2 0 0 2 50 50) (Some (1 / 1000000)) = true.
Proof.
  apply (recompose_regular (Elements 2 0 0 2 50 50)).
  unfold det; cbn. lra.
Qed.

Lemma decompose_quarter_turn_stretch :
  Neo_decompose quarter_turn_stretch
  = Some (Result 0 0 1 2 0 (PI / 2) (PI / 2) (PI / 2 * (180 / PI))).
Proof.
  assert (H : det quarter_turn_stretch <> 0) by (unfold det; cbn; lra).
  rewrite decompose_regular by exact H.
  assert (Hm : mag quarter_turn_stretch = 1).
  { unfold mag; cbn. replace (0 * 0 + 1 * 1) with 1 by ring. apply sqrt_1. }
  assert (Hd : det quarter_turn_stretch = 2) by (unfold det; cbn; ring).
  assert (Hc : cosA quarter_turn_stretch = 0) by (unfold cosA; rewrite Hm; cbn; field).
  assert (Hs : sinA quarter_turn_stretch = 1) by (unfold sinA; rewrite Hm; cbn; field).
  assert (Ha : angle quarter_turn_stretch = PI / 2).
  { unfold angle. rewrite Hs, Hc, leb_true by lra. apply acos_0. }
  unfold scaledShear. rewrite Ha, Hm, Hd, Hc, Hs. cbn.
  rewrite Rabs_pos_eq by lra.
  f_equal. f_equal; field.
Qed.

(** C1 against the code: [[ 0, 1, -2, 0, 0, 0 ]], a quarter turn after a
    stretch of the y axis, has determinant 2 and is decomposed into a
    rotation of pi / 2, no shear and the scales 1 and 2.  Recomposed in
    the order of the claim, which is the order that the comments of
    [Neo.decompose] give (rotate, skew, scale, translate), these
    components make [[ 0, 2, -1, 0, 0, 0 ]], which [equals] rejects at
    the tolerance [1e-6]; the matrix comes back in the other order,
    scale, skew, rotate, translate. *)
Theorem recompose_quarter_turn_stretch :
  det quarter_turn_stretch = 2
  /\ Neo_decompose quarter_turn_stretch
     = Some (Result 0 0 1 2 0 (PI / 2) (PI / 2) (PI / 2 * (180 / PI)))
  /\ recompose_spec (Result 0 0 1 2 0 (PI / 2) (PI / 2) (PI / 2 * (180 / PI)))
     = Elements 0 2 (-1) 0 0 0
  /\ equals (Elements 0 2 (-1) 0 0 0) quarter_turn_stretch (Some (1 / 1000000)) = false
  /\ recompose (Result 0 0 1 2 0 (PI / 2) (PI / 2) (PI / 2 * (180 / PI)))
     = quarter_turn_stretch.
Proof.
  split; [unfold det; cbn; ring|].
  split; [apply decompose_quarter_turn_stretch|].
  split.
  { rewrite recompose_spec_value by (cbn; lra). cbn.
    rewrite cos_PI2, sin_PI2. f_equal; ring. }
  split.
  { apply (equals_beyond _ _ _ 1%nat); [lra | lia |].
    cbn. replace (2 - 1) with 1 by ring. rewrite Rabs_R1. lra. }
  rewrite recompose_value by (cbn; lra). cbn.
  rewrite cos_PI2, sin_PI2. unfold quarter_turn_stretch. f_equal; ring.
Qed.

End Recompose.

(** The two scales are lengths, so whatever the order, a recomposed
    matrix has a positive determinant: a matrix that mirrors the plane
    (negative determinant) is decomposed, and is not got back. *)
Section Reflection.

Local Open Scope R_scope.

Lemma recompose_determinant (m : Neo R) :
  det m <> 0 ->
  exists d, Neo_decompose m = Some d
            /\ det (recompose d) = Rabs (det m)
            /\ det (recompose_spec d) = Rabs (det m).
Proof.
  intros H. pose proof (mag_pos m H) as Hn.
  assert (Hy : Rabs (det m) / mag m <> 0).
  { apply Rgt_not_eq, Rdiv_lt_0_compat; [apply Rabs_pos_lt, H | exact Hn]. }
  eexists. split; [apply decompose_regular, H|].
  rewrite recompose_value, recompose_spec_value by exact Hy.
  assert (Hn' : mag m <> 0) by lra.
  assert (Ha : Rabs (det m) <> 0) by (apply Rabs_no_R0, H).
  set (k := Rabs (det m)) in *.
  unfold det.
  cbn [elt_a elt_b elt_c elt_d rotationRads_of scaleX_of scaleY_of shear_of].
  pose proof (sin2_cos2 (angle m)) as T. unfold Rsqr in T.
  set (s := sin (angle m)) in *. set (c := cos (angle m)) in *.
  split.
  - transitivity ((s * s + c * c) * k); [field; split; assumption|].
    rewrite T. ring.
  - transitivity ((s * s + c * c) * k); [field; split; assumption|].
    rewrite T. ring.
Qed.

Corollary recompose_reflection (m : Neo R) :
  det m < 0 ->
  exists d, Neo_decompose m = Some d /\ recompose d <> m /\ recompose_spec d <> m.
Proof.
  intros H. destruct (recompose_determinant m) as (d & Hd & H1 & H2); [lra|].
  exists d. split; [exact Hd|].
  rewrite Rabs_left in H1, H2 by exact H.
  split; intros E; [rewrite E in H1 | rewrite E in H2]; lra.
Qed.

(** [flipX] of the identity is such a matrix. *)
Example recompose_flipX :
  exists d, Neo_decompose (flipX identity : Neo R) = Some d
            /\ recompose d <> flipX identity.
Proof.
  destruct (recompose_reflection (flipX identity)) as (d & Hd & H & _).
  - unfold flipX. rewrite scale_multiplies_by_primitive.
    unfold effective_sy. cbn. destruct (Req_dec_T 1 0); [lra|].
    unfold det; cbn. lra.
  - exists d. split; assumption.
Qed.

End Reflection.

(** ** Rounding, and bounds on pi *)

Section Rounding.

Local Open Scope R_scope.

Lemma to_fixed_value (x : R) (p : nat) (z : Z) :
  0 <= x -> IZR z <= x * RNum.pow10 p + / 2 < IZR z + 1 ->
  RNum.to_fixed x p = IZR z / RNum.pow10 p.
Proof.
  intros Hx Hz. unfold RNum.to_fixed, RNum.round_half_up.
  destruct (Rlt_dec x 0) as [Hn|_]; [lra|].
  rewrite (Zfloor_eq z) by exact Hz. reflexivity.
Qed.

(** [s] on a number that is not zero *)
Lemma s_nonzero (precision : option nat) (x : R) :
  x <> 0 -> s precision x = RNum.to_fixed x (digits precision).
Proof. intros H. unfold s. cbn. rewrite eqb_false by exact H. reflexivity. Qed.

Lemma limit_value (precision : option nat) :
  limit precision = 1 / RNum.pow10 (digits precision).
Proof. reflexivity. Qed.

Lemma limit_pos (precision : option nat) : 0 < limit precision.
Proof.
  rewrite limit_value. apply Rdiv_lt_0_compat; [lra | apply pow10_pos].
Qed.

Lemma r2d_value : r2d = 5729577951308232 / 100000000000000.
Proof. reflexivity. Qed.

Lemma deg2rad_value : deg2rad = 1745329251994 / 100000000000000.
Proof. reflexivity. Qed.

End Rounding.

Section PiBounds.

Local Open Scope R_scope.

(** From the series of [2 * atan (1/3) + atan (1/7)] *)
Lemma PI_lower : 31415926535893 / 10000000000000 < PI.
Proof.
  pose proof (PI_2_3_7_ineq 6) as [H _].
  unfold sum_f_R0, tg_alt, PI_2_3_7_tg, Ratan_seq in H. simpl in H.
  lra.
Qed.

Lemma PI_upper : PI < 3141592653590 / 1000000000000.
Proof.
  pose proof (PI_2_3_7_ineq 6) as [_ H].
  unfold sum_f_R0, tg_alt, PI_2_3_7_tg, Ratan_seq in H. simpl in H.
  lra.
Qed.

End PiBounds.

(** ** The decomposition of a rotation *)

Section Rotation.

Local Open Scope R_scope.

Lemma rotateRad_identity (r : R) :
  rotateRad identity r = Elements (cos r) (sin r) (- sin r) (cos r) 0 0.
Proof. cbn. f_equal; ring. Qed.

Lemma rotation_angle (r : R) :
  0 <= r < 2 * PI -> angle (rotateRad identity r) = r.
Proof.
  intros [Hlo Hhi]. rewrite rotateRad_identity.
  assert (Hm : mag (Elements (cos r) (sin r) (- sin r) (cos r) 0 0) = 1).
  { unfold mag; cbn. pose proof (sin2_cos2 r) as T. unfold Rsqr in T.
    replace (cos r * cos r + sin r * sin r) with 1 by lra. apply sqrt_1. }
  unfold angle, cosA, sinA. rewrite Hm. cbn. unfold Rdiv. rewrite Rinv_1, !Rmult_1_r.
  unfold RNum.leb. destruct (Rle_dec 0 (sin r)) as [Hs|Hs].
  - apply acos_cos. split; [exact Hlo|].
    destruct (Rle_dec r PI) as [Hr|Hr]; [exact Hr|].
    exfalso. assert (sin r < 0) by (apply sin_lt_0; lra). lra.
  - assert (PI < r).
    { destruct (Rlt_dec PI r) as [Hr|Hr]; [exact Hr|].
      exfalso. apply Hs. apply sin_ge_0; lra. }
    replace (cos r) with (cos (2 * PI - r)).
    + rewrite acos_cos by lra. ring.
    + rewrite cos_minus, cos_2PI, sin_2PI. ring.
Qed.

Lemma decompose_rotation (r : R) :
  0 <= r < 2 * PI ->
  Neo_decompose (rotateRad identity r)
  = Some (Result 0 0 1 1 0 r r (r * (180 / PI))).
Proof.
  intros Hr.
  assert (Hd : det (rotateRad identity r) = 1).
  { rewrite rotateRad_identity. unfold det; cbn.
    pose proof (sin2_cos2 r) as T. unfold Rsqr in T. lra. }
  assert (Hm : mag (rotateRad identity r) = 1).
  { rewrite rotateRad_identity.
    unfold mag; cbn. pose proof (sin2_cos2 r) as T. unfold Rsqr in T.
    replace (cos r * cos r + sin r * sin r) with 1 by lra. apply sqrt_1. }
  rewrite decompose_regular by lra.
  rewrite (rotation_angle r Hr), Hd, Hm, Rabs_R1.
  assert (Hs : scaledShear (rotateRad identity r) = 0).
  { unfold scaledShear, cosA, sinA. rewrite Hm. rewrite rotateRad_identity. cbn. field. }
  rewrite Hs. rewrite rotateRad_identity. cbn.
  f_equal. f_equal; field.
Qed.

(** The entries of [toCSSString] for a rotation: only the rotate entry
    can be present. *)
Lemma rotation_entries (r : R) (precision : option nat) :
  0 <= r < 2 * PI ->
  toCSSString_parts (rotateRad identity r) precision
  = Functions [ None; None; None;
                option_map Trotate
                  (rotate_final (Some (Result 0 0 1 1 0 r r (r * (180 / PI)))) precision);
                None; None; None; None ].
Proof.
  intros Hr. unfold toCSSString_parts. rewrite decompose_rotation by exact Hr.
  pose proof (limit_pos precision) as Hl.
  unfold entries, scale_final, translate_final, scaleX_var, scaleY_var,
    translateX_var, translateY_var, skewX_var, string_entry, number_entry, scale_entry.
  cbn [translateX_of translateY_of scaleX_of scaleY_of shear_of].
  set (l := limit precision) in *.
  cbn [lt add sub neg of_Z R_number].
  rewrite !(ltb_false l) by lra.
  rewrite !(ltb_false (1 + l)) by lra.
  rewrite !(ltb_false _ (- l)) by lra.
  rewrite !(ltb_false _ (1 - l)) by lra.
  reflexivity.
Qed.

End Rotation.

(** ** The rotate entry of [toCSSString] *)

Section RotateToken.

Local Open Scope R_scope.

Lemma pow10_IZR (p : nat) : RNum.pow10 p = IZR (10 ^ Z.of_nat p).
Proof. reflexivity. Qed.

(** The rotate entry is left out in three cases, and only then: the
    rotation in radians is at most [limit]; it is at least [360 - limit],
    which no rotation of a decomposition is; or the rotation in degrees
    rounds to 360. *)
Lemma rotate_omitted_iff (d : Decomposed R) (precision : option nat) :
  rotate_final (Some d) precision = None
  <-> rotate_of d <= limit precision
      \/ 360 - limit precision <= rotate_of d
      \/ RNum.to_fixed (rotate_of d * r2d) (digits precision) = 360.
Proof.
  pose proof (limit_pos precision) as Hl.
  unfold rotate_final, rotate_var. cbn [lt sub mul of_Z strict_eq R_number].
  destruct (Rle_dec (rotate_of d) (limit precision)) as [H1|H1].
  { rewrite (ltb_false (limit precision)) by exact H1. cbn. tauto. }
  rewrite (ltb_true (limit precision)) by lra.
  destruct (Rle_dec (360 - limit precision) (rotate_of d)) as [H2|H2].
  { rewrite (ltb_false (rotate_of d)) by exact H2. cbn. tauto. }
  rewrite (ltb_true (rotate_of d)) by lra. cbn [andb].
  assert (Hx : rotate_of d * r2d <> 0).
  { rewrite r2d_value. apply Rgt_not_eq. nra. }
  rewrite s_nonzero by exact Hx.
  unfold RNum.eqb.
  destruct (Req_dec_T (RNum.to_fixed (rotate_of d * r2d) (digits precision)) 360) as [E|E].
  - split; [intros _; right; right; exact E | reflexivity].
  - split; [discriminate|]. intros [H|[H|H]]; [lra | lra | contradiction].
Qed.
(** A rotation of at most [limit] degrees is left out. *)
Lemma rotate_omitted_near_0 (d : Decomposed R) (precision : option nat) :
  rotate_of d * r2d <= limit precision ->
  rotate_final (Some d) precision = None.
Proof.
  intros H. pose proof (limit_pos precision) as Hl.
  unfold rotate_final, rotate_var. cbn [lt R_number].
  rewrite r2d_value in H.
  destruct (Rle_dec (rotate_of d) 0) as [H0|H0].
  - rewrite (ltb_false (limit precision)) by lra. reflexivity.
  - rewrite (ltb_false (limit precision)); [reflexivity|]. nra.
Qed.

(** A rotation that rounds to 360 degrees is left out. *)
Lemma rotate_omitted_near_360 (d : Decomposed R) (precision : option nat) :
  360 - limit precision / 2 <= rotate_of d * r2d < 360 + limit precision / 2 ->
  rotate_final (Some d) precision = None.
Proof.
  intros [Hlo Hhi]. pose proof (limit_pos precision) as Hl.
  unfold rotate_final, rotate_var.
  destruct ((rotate_of d >? limit precision)%js && (rotate_of d <? of_Z 360 - limit precision)%js);
    [|reflexivity].
  assert (Hl2 : limit precision <= 1 / 10).
  { rewrite limit_value. unfold Rdiv. rewrite !Rmult_1_l.
    apply Rinv_le_contravar; [lra|].
    rewrite pow10_IZR. apply IZR_le.
    destruct precision as [[|p]|]; cbn [digits]; try lia.
    change 10%Z with (10 ^ 1)%Z at 1. apply Z.pow_le_mono_r; lia. }
  cbn [mul R_number].
  rewrite s_nonzero by (apply Rgt_not_eq; lra).
  rewrite limit_value in *.
  set (p := digits precision) in *.
  pose proof (pow10_pos p) as Hp.
  rewrite (to_fixed_value _ p (360 * 10 ^ Z.of_nat p)).
  - rewrite mult_IZR, <- pow10_IZR. cbn [strict_eq R_number of_Z].
    rewrite eqb_true; [reflexivity|]. field. lra.
  - lra.
  - rewrite mult_IZR, <- pow10_IZR.
    assert (E : 1 / RNum.pow10 p / 2 * RNum.pow10 p = / 2) by (field; lra).
    split.
    + apply Rmult_le_compat_r with (r := RNum.pow10 p) in Hlo; [|lra].
      rewrite Rmult_minus_distr_r, E in Hlo. lra.
    + apply Rmult_lt_compat_r with (r := RNum.pow10 p) in Hhi; [|lra].
      rewrite Rmult_plus_distr_r, E in Hhi. lra.
Qed.

Lemma full_turn_radians : 0 <= 360 * deg2rad < 2 * PI.
Proof. rewrite deg2rad_value. pose proof PI_lower. lra. Qed.

(** The scenario of the specification: the rotation of [rotate( 360 )]
    rounds to 360 degrees and no entry is left. *)
Lemma rotate_360_omitted :
  toCSSString_parts full_turn None
  = Functions [None; None; None; None; None; None; None; None].
Proof.
  unfold full_turn, rotate. cbn [mul R_number of_Z].
  rewrite rotation_entries by exact full_turn_radians.
  rewrite rotate_omitted_near_360; [reflexivity|].
  cbn [rotate_of]. rewrite limit_value, r2d_value, deg2rad_value.
  cbn [digits]. rewrite pow10_7. lra.
Qed.

Lemma almost_full_turn_radians : 0 <= 35993 / 100 * deg2rad < 2 * PI.
Proof. rewrite deg2rad_value. pose proof PI_lower. lra. Qed.

Lemma pow10_1 : RNum.pow10 1 = 10.
Proof. reflexivity. Qed.

(** [rotate( 359.93 )] decomposed and serialized at precision 1 *)
Lemma rotate_near_360_parts :
  exists d, Neo_decompose almost_full_turn = Some d
    /\ 360 - limit (Some 1%nat) <= rotationDegs_of d <= 360
    /\ 360 - limit (Some 1%nat) <= rotate_of d * r2d <= 360
    /\ toCSSString_parts almost_full_turn (Some 1%nat)
       = Functions [ None; None; None; Some (Trotate (3599 / 10));
                     None; None; None; None ].
Proof.
  pose proof almost_full_turn_radians as Hr.
  pose proof PI_lower as Hl. pose proof PI_upper as Hu.
  unfold almost_full_turn, rotate. cbn [mul R_number].
  eexists. split; [apply decompose_rotation, Hr|].
  cbn [rotationDegs_of rotate_of].
  rewrite limit_value in *. cbn [digits]. rewrite pow10_1.
  rewrite deg2rad_value, r2d_value in *.
  split; [|split].
  - assert (E : forall x, x * (180 / PI) = x * 180 / PI) by (intros; field; lra).
    rewrite E. split.
    + apply Rmult_le_reg_r with (r := PI); [lra|].
      unfold Rdiv at 2. rewrite Rmult_assoc, Rinv_l by lra. lra.
    + apply Rmult_le_reg_r with (r := PI); [lra|].
      unfold Rdiv at 1. rewrite Rmult_assoc, Rinv_l by lra. lra.
  - lra.
  - rewrite rotation_entries by exact Hr.
    do 4 f_equal.
    unfold rotate_final, rotate_var. cbn [rotate_of lt sub mul of_Z R_number].
    rewrite limit_value. cbn [digits]. rewrite pow10_1.
    rewrite !ltb_true by lra. cbn [andb].
    rewrite s_nonzero by (rewrite r2d_value; apply Rgt_not_eq; lra). cbn [digits].
    rewrite (to_fixed_value _ 1 3599); rewrite ?pow10_1, ?r2d_value; try lra.
    cbn [strict_eq R_number of_Z]. rewrite eqb_false by lra. reflexivity.
Qed.

(** C4, at an input where the code departs from it: the rotation of
    [rotate( 359.93 )] is within [limit = 0.1] of 360 degrees at
    precision 1, and [toCSSString( 1 )] emits [rotate(359.9deg)].  The
    test [d.rotate < 360 - limit] compares radians with degrees and never
    fails; only a rotation that rounds to ['360deg'] is left out. *)
Theorem rotate_token_near_360 :
  exists d, Neo_decompose almost_full_turn = Some d
    /\ 360 - limit (Some 1%nat) <= rotationDegs_of d <= 360
    /\ toCSSString_parts almost_full_turn (Some 1%nat)
       = Functions [ None; None; None; Some (Trotate (3599 / 10));
                     None; None; None; None ].
Proof.
  destruct rotate_near_360_parts as (d & Hd & H1 & _ & E).
  exists d. split; [exact Hd|]. split; [exact H1 | exact E].
Qed.

End RotateToken.

(** ** The order of the entries of [toCSSString] *)

Section Order.

Context {num : Type} {N : Number num}.

Lemma string_entry_kind (mk : num -> token num) (i : nat) (v : option num) :
  (forall x, kind (mk x) = i) -> in_place i (string_entry mk v).
Proof. intros H. destruct v; cbn; [apply H | exact I]. Qed.

Lemma number_entry_kind (mk : num -> token num) (i : nat) (v : option num) :
  (forall x, kind (mk x) = i) -> in_place i (number_entry mk v).
Proof.
  intros H. destruct v as [x|]; cbn; [|exact I].
  destruct (truthy x); cbn; [apply H | exact I].
Qed.

Lemma scale_entry_kind (v : option (scale_value num)) : in_place 4 (scale_entry v).
Proof.
  destruct v as [[x|x y]|]; cbn; try exact I; [|reflexivity].
  destruct (truthy x); cbn; [reflexivity | exact I].
Qed.

(** Every entry holds nothing or the function of its position. *)
Lemma entries_in_place (d : option (Decomposed num)) (precision : option nat) :
  Forall2 in_place (seq 0 8) (entries d precision).
Proof.
  unfold entries.
  destruct (scale_final d precision) as [[scale scaleX] scaleY].
  destruct (translate_final d precision) as [[translate translateX] translateY].
  repeat constructor;
    try (apply string_entry_kind; reflexivity);
    try (apply number_entry_kind; reflexivity);
    try apply scale_entry_kind.
  destruct translate; cbn; [reflexivity | exact I].
Qed.

Lemma emitted_sorted (es : list (option (token num))) (k : nat) :
  Forall2 in_place (seq k (List.length es)) es ->
  Forall (fun t => k <= kind t)%nat (emitted es)
  /\ StronglySorted Nat.lt (map kind (emitted es)).
Proof.
  revert k. induction es as [|e es IH]; intros k H; cbn.
  - split; constructor.
  - cbn in H. inversion H as [|? ? ? ? He Hes]; subst.
    destruct (IH (S k) Hes) as [Hge Hs].
    assert (Hge' : Forall (fun t => (k <= kind t)%nat) (emitted es)).
    { eapply List.Forall_impl; [|exact Hge]. cbn. intros; lia. }
    destruct e as [t|]; cbn.
    + cbn in He. split.
      * constructor; [lia | exact Hge'].
      * constructor; [exact Hs|].
        rewrite List.Forall_map. eapply List.Forall_impl; [|exact Hge]. cbn. intros; lia.
    + split; assumption.
Qed.

(** The array literal of [toCSSString]: its entries are, in this order,
    translate, translateX, translateY, rotate, scale, skewX, scaleX,
    scaleY, each of them present or not. *)
Lemma entries_order (this : Neo num) (precision : option nat)
    (es : list (option (token num))) :
  toCSSString_parts this precision = Functions es ->
  Forall2 in_place (seq 0 8) es
  /\ StronglySorted Nat.lt (map kind (emitted es)).
Proof.
  unfold toCSSString_parts. destruct (Neo_decompose this) as [d|]; [|discriminate].
  intros E. injection E as <-.
  pose proof (entries_in_place (Some d) precision) as H.
  split; [exact H|].
  apply (emitted_sorted _ 0).
  replace (List.length (entries (Some d) precision)) with 8%nat; [exact H|].
  apply Forall2_length in H. rewrite length_seq in H. exact H.
Qed.

End Order.

Section Sheared.

Local Open Scope R_scope.

Lemma decompose_sheared_stretch :
  Neo_decompose sheared_stretch = Some (Result 0 0 2 1 1 0 0 (0 * (180 / PI))).
Proof.
  assert (H : det sheared_stretch <> 0) by (unfold det; cbn; lra).
  rewrite decompose_regular by exact H.
  assert (Hm : mag sheared_stretch = 2).
  { unfold mag; cbn. replace (2 * 2 + 0 * 0) with (2 * 2) by ring.
    apply sqrt_square. lra. }
  assert (Hd : det sheared_stretch = 2) by (unfold det; cbn; ring).
  assert (Hc : cosA sheared_stretch = 1) by (unfold cosA; rewrite Hm; cbn; field).
  assert (Hs : sinA sheared_stretch = 0) by (unfold sinA; rewrite Hm; cbn; field).
  assert (Ha : angle sheared_stretch = 0).
  { unfold angle. rewrite Hs, Hc, leb_true by lra. apply acos_1. }
  unfold scaledShear. rewrite Ha, Hm, Hd, Hc, Hs. cbn.
  rewrite Rabs_pos_eq by lra.
  f_equal. f_equal; field.
Qed.

Lemma sheared_stretch_parts :
  toCSSString_parts sheared_stretch None
  = Functions [ None; None; None; None; None;
                Some (TskewX 45); Some (TscaleX 2); None ].
Proof.
  unfold toCSSString_parts. rewrite decompose_sheared_stretch.
  pose proof PI_lower as Hl. pose proof PI_upper as Hu.
  assert (Es : s None (atan 1 * r2d) = 45).
  { rewrite atan_1, r2d_value.
    rewrite s_nonzero by (apply Rgt_not_eq; lra). cbn [digits].
    rewrite (to_fixed_value _ 7 450000000); rewrite ?pow10_7; lra. }
  assert (E2 : s None 2 = 2).
  { rewrite s_nonzero by lra. cbn [digits].
    rewrite (to_fixed_value _ 7 20000000); rewrite ?pow10_7; lra. }
  unfold entries, scale_final, translate_final, scaleX_var, scaleY_var,
    translateX_var, translateY_var, skewX_var, rotate_final, rotate_var,
    string_entry, number_entry, scale_entry.
  cbn [translateX_of translateY_of scaleX_of scaleY_of shear_of rotate_of].
  rewrite limit_value. cbn [digits]. rewrite pow10_7.
  cbn [lt add sub neg mul of_Z Math_atan R_number].
  rewrite Es, E2.
  compare_reals. cbn.
  rewrite eqb_false by lra. reflexivity.
Qed.

Lemma append_assoc (s1 s2 s3 : string) :
  ((s1 ++ s2) ++ s3 = s1 ++ (s2 ++ s3))%string.
Proof. induction s1 as [|c s1 IH]; cbn; [reflexivity | rewrite IH; reflexivity]. Qed.

(** The text, whatever the engine prints for 45 and for 2 *)
Lemma sheared_stretch_string (show : R -> string) :
  toCSSString show sheared_stretch None
  = ("     skewX(" ++ show 45 ++ "deg) scaleX(" ++ show 2 ++ ") ")%string.
Proof.
  unfold toCSSString. rewrite sheared_stretch_parts.
  cbn. rewrite !append_assoc. reflexivity.
Qed.

Lemma decompose_sheared_stretches :
  Neo_decompose sheared_stretches = Some (Result 0 0 2 3 1 0 0 (0 * (180 / PI))).
Proof.
  assert (H : det sheared_stretches <> 0) by (unfold det; cbn; lra).
  rewrite decompose_regular by exact H.
  assert (Hm : mag sheared_stretches = 2).
  { unfold mag; cbn. replace (2 * 2 + 0 * 0) with (2 * 2) by ring.
    apply sqrt_square. lra. }
  assert (Hd : det sheared_stretches = 6) by (unfold det; cbn; ring).
  assert (Hc : cosA sheared_stretches = 1) by (unfold cosA; rewrite Hm; cbn; field).
  assert (Hs : sinA sheared_stretches = 0) by (unfold sinA; rewrite Hm; cbn; field).
  assert (Ha : angle sheared_stretches = 0).
  { unfold angle. rewrite Hs, Hc, leb_true by lra. apply acos_1. }
  unfold scaledShear. rewrite Ha, Hm, Hd, Hc, Hs. cbn.
  rewrite Rabs_pos_eq by lra.
  f_equal. f_equal; field.
Qed.

Lemma sheared_stretches_parts :
  toCSSString_parts sheared_stretches None
  = Functions [ None; None; None; None; Some (Tscale (ScalePair 2 3));
                Some (TskewX 45); None; None ].
Proof.
  unfold toCSSString_parts. rewrite decompose_sheared_stretches.
  pose proof PI_lower as Hl. pose proof PI_upper as Hu.
  assert (Es : s None (atan 1 * r2d) = 45).
  { rewrite atan_1, r2d_value.
    rewrite s_nonzero by (apply Rgt_not_eq; lra). cbn [digits].
    rewrite (to_fixed_value _ 7 450000000); rewrite ?pow10_7; lra. }
  assert (E2 : s None 2 = 2).
  { rewrite s_nonzero by lra. cbn [digits].
    rewrite (to_fixed_value _ 7 20000000); rewrite ?pow10_7; lra. }
  assert (E3 : s None 3 = 3).
  { rewrite s_nonzero by lra. cbn [digits].
    rewrite (to_fixed_value _ 7 30000000); rewrite ?pow10_7; lra. }
  unfold entries, scale_final, translate_final, scaleX_var, scaleY_var,
    translateX_var, translateY_var, skewX_var, rotate_final, rotate_var,
    string_entry, number_entry, scale_entry.
  cbn [translateX_of translateY_of scaleX_of scaleY_of shear_of rotate_of].
  rewrite limit_value. cbn [digits]. rewrite pow10_7.
  cbn [lt add sub neg mul of_Z Math_atan R_number].
  rewrite Es, E2, E3.
  compare_reals. cbn.
  rewrite ?eqb_false by lra. reflexivity.
Qed.

(** C6 against the code: for [[ 2, 0, 1, 1, 0, 0 ]], a shear of 1 after a
    stretch of the x axis by 2, the entries are a skewX and then a
    scaleX, and the text is [skewX(45deg) scaleX(2)]: a scaleX after the
    skewX.  For [[ 2, 0, 3, 3, 0, 0 ]], where both factors differ from 1,
    the same array literal puts the scale before the skewX. *)
Theorem scaleX_after_skewX (show : R -> string) :
  toCSSString_parts sheared_stretch None
  = Functions [ None; None; None; None; None;
                Some (TskewX 45); Some (TscaleX 2); None ]
  /\ map kind (emitted [ None; None; None; None; None;
                         Some (TskewX 45); Some (TscaleX (2 : R)); None ])
     = [5; 6]%nat
  /\ toCSSString show sheared_stretch None
     = ("     skewX(" ++ show 45 ++ "deg) scaleX(" ++ show 2 ++ ") ")%string
  /\ toCSSString_parts sheared_stretches None
     = Functions [ None; None; None; None; Some (Tscale (ScalePair 2 3));
                   Some (TskewX 45); None; None ].
Proof.
  split; [apply sheared_stretch_parts|].
  split; [reflexivity|].
  split; [apply sheared_stretch_string | apply sheared_stretches_parts].
Qed.

Example entries_order_sheared_stretch :
  StronglySorted Nat.lt
    (map kind (emitted [ None; None; None; None; None;
                         Some (TskewX 45); Some (TscaleX (2 : R)); None ])).
Proof.
  apply (entries_order sheared_stretch None _ sheared_stretch_parts).
Qed.

End Sheared.

(** ** [Neo.fromString] and [getParameters] *)

Section Parsing.

Context {num : Type} {N : Number num}.
Local Open Scope string_scope.

(** What the pattern captures keeps the letters of the alternative it
    was read with, up to case. *)
Lemma read_lower (p s got rest : string) :
  Str.read true p s = Some (got, rest) ->
  Str.toLowerCase got = Str.toLowerCase p.
Proof.
  revert s got rest. induction p as [|cp p IH]; intros s got rest H.
  - cbn in H. injection H as <- _. reflexivity.
  - destruct s as [|cs s]; [discriminate|]. cbn in H.
    destruct (Ascii.eqb (Str.lower cp) (Str.lower cs)) eqn:E; [|discriminate].
    destruct (Str.read true p s) as [[got' rest']|] eqn:R; [|discriminate].
    injection H as <- _. cbn. rewrite (IH _ _ _ R).
    apply Ascii.eqb_eq in E. rewrite E. reflexivity.
Qed.

Lemma pattern_at_type (alts : list string) (s name args : string) :
  pattern_at alts s = Some (name, args) ->
  exists p, In p alts /\ type_of name = type_of p.
Proof.
  induction alts as [|p alts IH]; [discriminate|]. cbn.
  intros H.
  assert (Hrec : pattern_at alts s = Some (name, args) ->
                 exists p0, (p = p0 \/ In p0 alts) /\ type_of name = type_of p0).
  { intros H'. destruct (IH H') as (p0 & Hin & E). exists p0. split; [right|]; assumption. }
  destruct (Str.read true p s) as [[got rest]|] eqn:R; [|apply Hrec, H].
  destruct rest as [|c r]; [apply Hrec, H|].
  destruct c as [[] [] [] [] [] [] [] []]; try (apply Hrec, H).
  destruct (read_arguments r) as [[a rest']|]; [|apply Hrec, H].
  destruct a as [|c' a']; [apply Hrec, H|].
  injection H as <- _. exists p. split; [left; reflexivity|].
  unfold type_of. rewrite (read_lower _ _ _ _ R). reflexivity.
Qed.

Lemma transformTypes_methods (p : string) :
  In p transformTypes -> method_of (type_of p) <> None.
Proof.
  intros H. cbn in H.
  repeat (destruct H as [<-|H]; [vm_compute; discriminate|]).
  contradiction.
Qed.

Lemma exec_all_step (c : ascii) (s : string) (skip : nat) :
  exec_all skip (String c s)
  = match skip with
    | S k => exec_all k s
    | O =>
        match pattern_at transformTypes (String c s) with
        | Some (name, args) =>
            (name, args) :: exec_all (String.length name + String.length args + 1) s
        | None => exec_all 0 s
        end
    end.
Proof. destruct skip; reflexivity. Qed.

(** Every match names a method that exists. *)
Lemma exec_all_methods (s : string) (skip : nat) :
  Forall (fun m => method_of (type_of (fst m)) <> None) (exec_all skip s).
Proof.
  revert skip. induction s as [|c s IH]; intros skip; [constructor|].
  rewrite exec_all_step.
  destruct skip as [|k]; [|apply IH].
  destruct (pattern_at transformTypes (String c s)) as [[name args]|] eqn:P; [|apply IH].
  constructor; [|apply IH].
  destruct (pattern_at_type _ _ _ _ P) as (p & Hin & E).
  change (method_of (type_of name) <> None).
  rewrite E. apply transformTypes_methods, Hin.
Qed.

(** The loop returns the matrix it started from. *)
Lemma fromString_loop_unchanged (matrix : Neo num) (matches : list (string * string)) :
  Forall (fun m => method_of (type_of (fst m)) <> None) matches ->
  fromString_loop matrix matches = Some matrix.
Proof.
  induction 1 as [|[match1 match2] rest Hm _ IH]; cbn; [reflexivity|].
  cbn in Hm. destruct (method_of (type_of match1)); [exact IH | contradiction].
Qed.

(** [Neo.fromString] never throws, and whatever the text it returns the
    identity matrix it created at the start. *)
Lemma fromString_identity (string : string) :
  Neo_fromString string = Some identity.
Proof.
  unfold Neo_fromString. apply fromString_loop_unchanged, exec_all_methods.
Qed.

(** The two functions of the README's example are found and their
    arguments parsed. *)
Lemma fromString_example_matches :
  exec_all 0 "scale(2),translate(50,100)" = [("scale", "2"); ("translate", "50,100")]
  /\ getParameters "2" = [Some (of_Z 2)]
  /\ getParameters "50,100" = [Some (of_Z 50); Some (of_Z 100)]
  /\ method_of (type_of "scale") = Some M_scale
  /\ method_of (type_of "translate") = Some M_translate.
Proof. vm_compute. repeat split; reflexivity. Qed.

(** The conversions of [getParameters], unit by unit *)
Lemma getParameters_units :
  getParameters "90deg,1rad,100grad,2turn,50px"
  = [ Some (of_Z 90);
      Some (mul (of_Z 1) (div (of_Z 180) Math_PI));
      Some (mul (of_Z 100) (div (of_Z 200) Math_PI));
      Some (mul (of_Z 2) (of_Z 360));
      Some (of_Z 50) ].
Proof. vm_compute. reflexivity. Qed.

(** The failing one alone *)
Lemma getParameters_100grad :
  getParameters "100grad" = [ Some (mul (of_Z 100) (div (of_Z 200) Math_PI)) ].
Proof. vm_compute. reflexivity. Qed.

End Parsing.


(** In binary64 *)
Example fromString_binary64 (c s t ac at_ : float -> float) (tf : float -> nat -> float) :
  let F := F64_number c s t ac at_ tf in
  Neo_fromString (N := F) "scale(2),translate(50,100)" = Some (Elements 1 0 0 1 0 0)%float
  /\ translate (scale (N := F) identity 2%float None None) 50%float 100%float
     = (Elements 2 0 0 2 100 200)%float
  /\ getParameters (N := F) "100grad" = [Some (100 * (200 / F64.PI))%float]
  /\ (6366 <? 100 * (200 / F64.PI))%float = true.
Proof. vm_compute. repeat split; reflexivity. Qed.

(** ** Which calls assign a property of an existing instance *)

Section Frame.

Context {num : Type} {N : Number num}.

Implicit Types (h : Store.store num) (l this : Store.ref) (o : Store.instance num).

Lemma read_run h l o : h !! l = Some o -> Store.read l h = Some (o, h).
Proof. intros H. unfold Store.read. rewrite H. reflexivity. Qed.

Lemma write_run h l o o' :
  h !! l = Some o -> Store.write l o' h = Some (tt, <[l := o']> h).
Proof. intros H. unfold Store.write. rewrite H. reflexivity. Qed.

Lemma get_elements_run h l o :
  h !! l = Some o -> Store.get_elements l h = Some (Store.elements o, h).
Proof.
  intros H. unfold Store.get_elements, Store.bind. rewrite (read_run _ _ _ H).
  reflexivity.
Qed.

(** Properties of the instance made last *)
Lemma lookup_new h o : (h ++ [o]) !! length h = Some o.
Proof. apply list_lookup_middle. reflexivity. Qed.

Lemma insert_new h o o' : <[length h := o']> (h ++ [o]) = h ++ [o'].
Proof.
  replace (length h) with (length h + 0)%nat at 1 by lia.
  rewrite insert_app_r. reflexivity.
Qed.

Lemma set_elements_new h o m :
  Store.set_elements (length h) m (h ++ [o])
  = Some (tt, h ++ [Store.Instance m (Store.decomposed o)]).
Proof.
  unfold Store.set_elements, Store.bind.
  rewrite (read_run _ _ _ (lookup_new h o)).
  rewrite (write_run _ _ _ _ (lookup_new h o)), insert_new. reflexivity.
Qed.

Lemma set_index_new h o i v :
  Store.set_index (length h) i v (h ++ [o])
  = Some (tt, h ++ [Store.Instance
                      (let '(Elements a b c d e f) := Store.elements o in
                       match i with
                       | 0%nat => Elements v b c d e f
                       | 1%nat => Elements a v c d e f
                       | 2%nat => Elements a b v d e f
                       | 3%nat => Elements a b c v e f
                       | 4%nat => Elements a b c d v f
                       | _ => Elements a b c d e v
                       end)
                      (Store.decomposed o)]).
Proof.
  unfold Store.set_index, Store.bind.
  rewrite (read_run _ _ _ (lookup_new h o)).
  destruct (Store.elements o) as [a b c d e f].
  rewrite (write_run _ _ _ _ (lookup_new h o)), insert_new. reflexivity.
Qed.

Lemma elements_of_run h a :
  valid h a -> Store.elements_of a h = Some (argument_elements h a, h).
Proof.
  destruct a as [l|m]; cbn; [|reflexivity].
  intros [o Ho]. rewrite (get_elements_run _ _ _ Ho), Ho. reflexivity.
Qed.

(** [multiply] makes one instance, with the product as its elements and
    the [decomposed] that [reset] gave it, and touches nothing else. *)
Lemma multiply_run h this o a :
  h !! this = Some o -> valid h a ->
  Store.multiply this a h
  = Some (length h,
          h ++ [Store.Instance (multiply (Store.elements o) (argument_elements h a))
                               Store.reset_literal]).
Proof.
  intros Ho Ha. unfold Store.multiply, Store.bind.
  rewrite (get_elements_run _ _ _ Ho), (elements_of_run _ _ Ha).
  unfold Store.new_Neo, Store.alloc.
  rewrite set_elements_new. reflexivity.
Qed.

Lemma multiply_returns_new (m2 : Neo num) :
  returns_new (fun this => Store.multiply this (Store.Numbers_arg m2))
              (fun m => multiply m m2).
Proof.
  intros this h o Ho. exists (length h). eexists.
  rewrite (multiply_run h this o (Store.Numbers_arg m2) Ho I). split; [reflexivity|].
  split; [reflexivity | apply lookup_new].
Qed.

Lemma returns_new_then (c1 c2 : Store.ref -> Store.M num Store.ref)
    (f1 f2 : Neo num -> Neo num) :
  returns_new c1 f1 -> returns_new c2 f2 ->
  returns_new (fun this => Store.bind (c1 this) c2) (fun m => f2 (f1 m)).
Proof.
  intros H1 H2 this h o Ho.
  destruct (H1 this h o Ho) as (l1 & n1 & E1 & _ & L1).
  destruct (H2 l1 (h ++ n1) _ L1) as (l2 & n2 & E2 & F2 & L2).
  exists l2, (n1 ++ n2). unfold Store.bind. rewrite E1, E2.
  rewrite <- app_assoc in L2 |- *. split; [reflexivity|].
  split; [rewrite length_app in F2; lia | exact L2].
Qed.

Lemma scale_returns_new (sx : num) (sy : option num) (pivot : option (num * num)) :
  returns_new (fun this => Store.scale this sx sy pivot)
              (fun m => scale m sx sy pivot).
Proof.
  unfold Store.scale, scale. destruct pivot as [[ox oy]|].
  - apply (returns_new_then
             (fun this => Store.translate this (neg ox) (neg oy))
             (fun t => Store.bind (Store.scale_plain t sx (Some (or_default sy sx)))
                                  (fun u => Store.translate u ox oy))
             (fun m => translate m (neg ox) (neg oy))
             (fun m => translate (scale_plain m sx (Some (or_default sy sx))) ox oy)).
    + apply multiply_returns_new.
    + apply (returns_new_then
               (fun t => Store.scale_plain t sx (Some (or_default sy sx)))
               (fun u => Store.translate u ox oy)
               (fun m => scale_plain m sx (Some (or_default sy sx)))
               (fun m => translate m ox oy)); apply multiply_returns_new.
  - apply multiply_returns_new.
Qed.

Lemma rotate_returns_new (r : num) (pivot : option (num * num)) :
  returns_new (fun this => Store.rotate this r pivot)
              (fun m => rotate m r pivot).
Proof.
  unfold Store.rotate, rotate. destruct pivot as [[ox oy]|].
  - apply (returns_new_then
             (fun this => Store.translate this (neg ox) (neg oy))
             (fun t => Store.bind (Store.rotateRad t (mul r deg2rad))
                                  (fun u => Store.translate u ox oy))
             (fun m => translate m (neg ox) (neg oy))
             (fun m => translate (rotate_plain m r) ox oy)).
    + apply multiply_returns_new.
    + apply (returns_new_then
               (fun t => Store.rotateRad t (mul r deg2rad))
               (fun u => Store.translate u ox oy)
               (fun m => rotate_plain m r)
               (fun m => translate m ox oy)); apply multiply_returns_new.
  - apply multiply_returns_new.
Qed.

Lemma inverse_returns_new : returns_new Store.inverse inverse.
Proof.
  intros this h o Ho.
  exists (length h), [Store.Instance (inverse (Store.elements o)) Store.reset_literal].
  unfold Store.inverse, Store.bind.
  rewrite (get_elements_run _ _ _ Ho).
  unfold Store.new_Neo, Store.alloc.
  destruct (Store.elements o) as [m0 m1 m2 m3 m4 m5].
  rewrite !set_index_new. cbn.
  split; [reflexivity|]. split; [reflexivity | apply lookup_new].
Qed.

Lemma returns_new_perform (c : Store.ref -> Store.M num Store.ref)
    (f : Neo num -> Neo num) (this : Store.ref) h o :
  returns_new c f -> h !! this = Some o ->
  exists l news,
    Store.as_instance (c this) h = Some (Some l, h ++ news)
    /\ (length h <= l)%nat /\ is_Some ((h ++ news) !! l).
Proof.
  intros H Ho. destruct (H this h o Ho) as (l & news & E & F & L).
  exists l, news. unfold Store.as_instance, Store.bind. rewrite E.
  split; [reflexivity|]. split; [exact F | eexists; exact L].
Qed.

Lemma decompose_run h this o :
  h !! this = Some o ->
  Store.decompose this h
  = Some (Neo_decompose (Store.elements o),
          <[this := Store.Instance (Store.elements o)
                      (Store.value_of (Neo_decompose (Store.elements o)))]> h).
Proof.
  intros Ho. unfold Store.decompose, Store.set_decomposed, Store.bind.
  rewrite (get_elements_run _ _ _ Ho), (read_run _ _ _ Ho), (write_run _ _ _ _ Ho).
  reflexivity.
Qed.

Lemma clone_run h this o :
  h !! this = Some o ->
  Store.clone this h
  = Some (length h, h ++ [Store.Instance (clone (Store.elements o)) Store.V_undefined]).
Proof.
  intros Ho. unfold Store.clone, Store.bind.
  rewrite (get_elements_run _ _ _ Ho). reflexivity.
Qed.

Lemma equals_run h this o a tolerance :
  h !! this = Some o -> valid h a ->
  Store.equals this a tolerance h
  = Some (equals (Store.elements o) (argument_elements h a) tolerance, h).
Proof.
  intros Ho Ha. unfold Store.equals, Store.bind.
  rewrite (elements_of_run _ _ Ha), (get_elements_run _ _ _ Ho). reflexivity.
Qed.

Lemma apply_run h this o x y :
  h !! this = Some o ->
  Store.apply this x y h = Some (apply (Store.elements o) x y, h).
Proof.
  intros Ho. unfold Store.apply, Store.bind.
  rewrite (get_elements_run _ _ _ Ho). reflexivity.
Qed.

Lemma value_of_defined (r : option (Decomposed num)) :
  Store.value_of r <> Store.V_undefined.
Proof. destruct r; discriminate. Qed.

Lemma added_behind h news this o :
  h !! this = Some o ->
  (h ++ news) !! this = Some o
  /\ (forall l, l <> this -> (l < length h)%nat -> (h ++ news) !! l = h !! l).
Proof.
  intros Ho. split; [apply lookup_app_l_Some, Ho|].
  intros l _ Hl. apply lookup_app_l, Hl.
Qed.

Lemma assigned h this o o' :
  h !! this = Some o ->
  <[this := o']> h !! this = Some o'
  /\ (forall l, l <> this -> (l < length h)%nat -> <[this := o']> h !! l = h !! l).
Proof.
  intros Ho. split.
  - apply list_lookup_insert_eq. eapply lookup_lt_Some, Ho.
  - intros l Hl _. apply list_lookup_insert_ne. congruence.
Qed.

(** C9, as the code has it: a call on an existing receiver, with existing
    arguments, succeeds and leaves every other existing instance as it
    was.  [multiply], the translate, scale, rotate, flip and skew methods,
    [inverse], [clone], [equals] and [apply] also leave the receiver as it
    was, both properties, and the instance they return, if any, did not
    exist before; [decompose] and [toCSSString] keep the receiver's
    [elements] and assign its [decomposed]; [set] and [reset] assign both
    and return the receiver. *)
Theorem calls_and_fields (op : Store.operation) (this : Store.ref) h o :
  h !! this = Some o ->
  Forall (fun r => is_Some (h !! r)) (Store.mentions op) ->
  exists r h',
    Store.perform op this h = Some (r, h')
    /\ h' !! this = Some (effect op o)
    /\ (forall l, l <> this -> (l < length h)%nat -> h' !! l = h !! l)
    /\ (Store.assigns op = false -> effect op o = o)
    /\ returned op this h h' r.
Proof.
  intros Ho Hm.
  assert (Built : forall c f, returns_new c f ->
            exists r h', Store.as_instance (c this) h = Some (r, h')
              /\ h' !! this = Some o
              /\ (forall l, l <> this -> (l < length h)%nat -> h' !! l = h !! l)
              /\ (false = false -> o = o)
              /\ match r with
                 | Some l => (length h <= l)%nat /\ is_Some (h' !! l)
                 | None => True
                 end).
  { intros c f Hc.
    destruct (returns_new_perform c f this h o Hc Ho) as (l & news & E & F & L).
    destruct (added_behind h news this o Ho) as [H1 H2].
    exists (Some l), (h ++ news).
    split; [exact E|]. split; [exact H1|]. split; [exact H2|].
    split; [reflexivity|]. split; assumption. }
  assert (Read : forall (A : Type) (c : Store.M num A) (x : A),
            c h = Some (x, h) ->
            exists r h', Store.as_value c h = Some (r, h')
              /\ h' !! this = Some o
              /\ (forall l, l <> this -> (l < length h)%nat -> h' !! l = h !! l)
              /\ (false = false -> o = o)
              /\ match r with
                 | Some l => (length h <= l)%nat /\ is_Some (h' !! l)
                 | None => True
                 end).
  { intros A c x E. exists None, h. unfold Store.as_value, Store.bind. rewrite E.
    split; [reflexivity|]. split; [exact Ho|]. split; [reflexivity|].
    split; [reflexivity | exact I]. }
  assert (Assigned : forall o', 
            (forall l, l <> this -> (l < length h)%nat ->
                       <[this := o']> h !! l = h !! l)
            /\ <[this := o']> h !! this = Some o').
  { intros o'. destruct (assigned h this o o' Ho) as [H1 H2]. split; assumption. }
  destruct op as [a|tx ty|tx|ty|sx sy pivot|sx|sy|r pivot|r| | |ax|ay|ax|ay| |
                 |a tol|x y| |precision|m| ];
    unfold returned; cbn [Store.perform effect Store.assigns].
  - (* multiply *)
    assert (Ha : valid h a).
    { destruct a as [l|]; cbn in *; [|exact I]. inversion Hm; assumption. }
    unfold Store.as_instance, Store.bind. rewrite (multiply_run h this o a Ho Ha).
    eexists _, _. split; [reflexivity|].
    destruct (added_behind h [Store.Instance (multiply (Store.elements o)
                 (argument_elements h a)) Store.reset_literal] this o Ho) as [H1 H2].
    split; [exact H1|]. split; [exact H2|]. split; [reflexivity|].
    split; [reflexivity|]. eexists. apply lookup_new.
  - exact (Built _ _ (multiply_returns_new (Elements 1 0 0 1 tx ty)%js)).
  - exact (Built _ _ (multiply_returns_new (Elements 1 0 0 1 tx 0)%js)).
  - exact (Built _ _ (multiply_returns_new (Elements 1 0 0 1 0 ty)%js)).
  - exact (Built _ _ (scale_returns_new sx sy pivot)).
  - exact (Built _ _ (multiply_returns_new (Elements sx 0 0 1 0 0)%js)).
  - exact (Built _ _ (multiply_returns_new (Elements 1 0 0 sy 0 0)%js)).
  - exact (Built _ _ (rotate_returns_new r pivot)).
  - exact (Built _ _ (multiply_returns_new
                        (Elements (Math_cos r) (Math_sin r) (neg (Math_sin r))
                                  (Math_cos r) 0 0)%js)).
  - exact (Built _ _ (scale_returns_new (neg 1%js) (Some 1%js) None)).
  - exact (Built _ _ (scale_returns_new 1%js (Some (neg 1%js)) None)).
  - exact (Built _ _ (multiply_returns_new
                        (Elements 1 0 (Math_tan (mul ax deg2rad)) 1 0 0)%js)).
  - exact (Built _ _ (multiply_returns_new
                        (Elements 1 (Math_tan (mul ay deg2rad)) 0 1 0 0)%js)).
  - exact (Built _ _ (multiply_returns_new (Elements 1 0 (Math_tan ax) 1 0 0)%js)).
  - exact (Built _ _ (multiply_returns_new (Elements 1 (Math_tan ay) 0 1 0 0)%js)).
  - exact (Built _ _ inverse_returns_new).
  - (* clone *)
    unfold Store.as_instance, Store.bind. rewrite (clone_run h this o Ho).
    eexists _, _. split; [reflexivity|].
    destruct (added_behind h [Store.Instance (clone (Store.elements o)) Store.V_undefined]
                this o Ho) as [H1 H2].
    split; [exact H1|]. split; [exact H2|]. split; [reflexivity|].
    split; [reflexivity|]. eexists. apply lookup_new.
  - (* equals *)
    assert (Ha : valid h a).
    { destruct a as [l|]; cbn in *; [|exact I]. inversion Hm; assumption. }
    exact (Read _ _ _ (equals_run h this o a tol Ho Ha)).
  - (* apply *)
    exact (Read _ _ _ (apply_run h this o x y Ho)).
  - (* decompose *)
    unfold Store.as_value, Store.bind. rewrite (decompose_run h this o Ho).
    eexists _, _. split; [reflexivity|].
    destruct (Assigned (Store.Instance (Store.elements o)
                (Store.value_of (Neo_decompose (Store.elements o))))) as [H2 H1].
    split; [exact H1|]. split; [exact H2|]. split; [discriminate | exact I].
  - (* toCSSString *)
    unfold Store.as_value, Store.toCSSString, Store.bind.
    rewrite (decompose_run h this o Ho).
    destruct (Assigned (Store.Instance (Store.elements o)
                (Store.value_of (Neo_decompose (Store.elements o))))) as [H2 H1].
    rewrite (get_elements_run _ _ _ H1).
    eexists _, _. split; [reflexivity|].
    split; [exact H1|]. split; [exact H2|]. split; [discriminate | exact I].
  - (* set *)
    unfold Store.as_instance, Store.set, Store.bind. rewrite (write_run _ _ _ _ Ho).
    eexists _, _. split; [reflexivity|].
    destruct (Assigned (Store.Instance m (Store.V_object []))) as [H2 H1].
    split; [exact H1|]. split; [exact H2|]. split; [discriminate | reflexivity].
  - (* reset *)
    unfold Store.as_instance, Store.reset, Store.bind. rewrite (write_run _ _ _ _ Ho).
    eexists _, _. split; [reflexivity|].
    destruct (Assigned (Store.Instance identity Store.reset_literal)) as [H2 H1].
    split; [exact H1|]. split; [exact H2|]. split; [discriminate | reflexivity].
Qed.

End Frame.

Section FrameScenario.

(** C9 fails as stated: after [M = new Neo( 2, 0, 0, 2, 50, 50 )] the
    call [M.decompose()] changes the property [decomposed] of [M]. *)
Lemma decompose_assigns_counterexample :
  exists l h1 r h2,
    Store.new_Neo_of (Elements 2 0 0 2 50 50 : Neo R)%R [] = Some (l, h1)
    /\ Store.decompose l h1 = Some (r, h2)
    /\ h1 !! l = Some (Store.Instance (Elements 2 0 0 2 50 50)%R Store.V_undefined)
    /\ h2 !! l <> h1 !! l.
Proof.
  eexists _, _, _, _. split; [reflexivity|].
  split; [apply decompose_run; reflexivity|].
  split; [reflexivity|].
  cbn. intros E. injection E as E. exact (value_of_defined _ E).
Qed.

(** The test of tests.js: [neo1.multiply( neo2 )] *)
Lemma calls_and_fields_witness :
  exists r h',
    Store.perform (Store.Multiply (Store.Instance_arg 1%nat)) 0%nat
      [ Store.Instance (Elements 2 0 0 2 50 50 : Neo R)%R Store.V_undefined;
        Store.Instance (Elements 3 1 (-1) 3 100 100)%R Store.V_undefined ]
    = Some (r, h')
    /\ h' !! 0%nat = Some (Store.Instance (Elements 2 0 0 2 50 50)%R Store.V_undefined)
    /\ (forall l, l <> 0%nat -> (l < 2)%nat ->
        h' !! l = [ Store.Instance (Elements 2 0 0 2 50 50 : Neo R)%R Store.V_undefined;
                    Store.Instance (Elements 3 1 (-1) 3 100 100)%R Store.V_undefined ] !! l)
    /\ (false = false ->
        Store.Instance (Elements 2 0 0 2 50 50 : Neo R)%R Store.V_undefined
        = Store.Instance (Elements 2 0 0 2 50 50)%R Store.V_undefined)
    /\ match r with
       | Some l => (2 <= l)%nat /\ is_Some (h' !! l)
       | None => True
       end.
Proof.
  apply (calls_and_fields (Store.Multiply (Store.Instance_arg 1%nat)) 0%nat
           [ Store.Instance (Elements 2 0 0 2 50 50 : Neo R)%R Store.V_undefined;
             Store.Instance (Elements 3 1 (-1) 3 100 100)%R Store.V_undefined ]).
  - reflexivity.
  - repeat constructor. eexists. reflexivity.
Defined.

(** Its result: a third instance, with the product as its elements *)
Example multiply_scenario_store :
  Store.multiply 0%nat (Store.Instance_arg 1%nat)
    [ Store.Instance (Elements 2 0 0 2 50 50 : Neo R)%R Store.V_undefined;
      Store.Instance (Elements 3 1 (-1) 3 100 100)%R Store.V_undefined ]
  = Some (2%nat,
          [ Store.Instance (Elements 2 0 0 2 50 50)%R Store.V_undefined;
            Store.Instance (Elements 3 1 (-1) 3 100 100)%R Store.V_undefined;
            Store.Instance (Elements 6 2 (-2) 6 250 250)%R Store.reset_literal ]).
Proof.
  erewrite multiply_run; [|reflexivity | eexists; reflexivity].
  cbn. repeat f_equal; lra.
Qed.

End FrameScenario.

(** ** [Neo.fromString] on the store, and the test of tests.js *)

Section StoreParsing.

Context {num : Type} {N : Number num}.

Implicit Types (h : Store.store num) (o : Store.instance num).

Lemma adds_nothing h : adds_behind (Store.ret tt) h.
Proof. exists []. unfold Store.ret. rewrite app_nil_r. reflexivity. Qed.

Lemma returns_new_adds (c : Store.ref -> Store.M num Store.ref)
    (f : Neo num -> Neo num) (matrix : Store.ref) h o :
  returns_new c f -> h !! matrix = Some o ->
  adds_behind (Store.bind (c matrix) (fun _ => Store.ret tt)) h.
Proof.
  intros H Ho. destruct (H matrix h o Ho) as (l & news & E & _).
  exists news. unfold Store.bind. rewrite E. reflexivity.
Qed.

Lemma call_adds (m : method) (matrix : Store.ref) (parameters : list (option num)) h o :
  h !! matrix = Some o ->
  adds_behind (Store.call m matrix parameters) h.
Proof.
  intros Ho. unfold Store.call.
  destruct m;
    repeat match goal with
      | |- adds_behind (match ?x with _ => _ end) _ => destruct x
      end;
    try apply adds_nothing;
    first [ exact (returns_new_adds _ _ matrix h o (multiply_returns_new _) Ho)
          | exact (returns_new_adds _ _ matrix h o (scale_returns_new _ _ _) Ho)
          | exact (returns_new_adds _ _ matrix h o (rotate_returns_new _ _) Ho) ].
Qed.

Lemma fromString_loop_run (matrix : Store.ref) (matches : list (string * string)) h o :
  Forall (fun m => method_of (type_of (fst m)) <> None) matches ->
  h !! matrix = Some o ->
  exists news, Store.fromString_loop matrix matches h = Some (Some matrix, h ++ news).
Proof.
  intros Hm. revert h. induction Hm as [|[match1 match2] rest Hhead _ IH]; intros h Ho.
  - exists []. cbn. unfold Store.ret. rewrite app_nil_r. reflexivity.
  - cbn [Store.fromString_loop]. cbn in Hhead.
    destruct (method_of (type_of match1)) as [m|]; [|contradiction].
    destruct (call_adds m matrix (getParameters match2) h o Ho) as (n1 & E1).
    destruct (IH (h ++ n1) (lookup_app_l_Some _ _ _ _ Ho)) as (n2 & E2).
    exists (n1 ++ n2). unfold Store.bind. rewrite E1, E2, app_assoc. reflexivity.
Qed.

(** On the store too: [Neo.fromString] returns the instance that
    [new Neo()] made at the start, and that instance still has the
    elements of the identity, whatever the text. *)
Lemma fromString_returns_identity (string : string) h :
  exists news,
    Store.fromString string h
    = Some (Some (length h),
            h ++ Store.Instance identity Store.reset_literal :: news).
Proof.
  unfold Store.fromString, Store.bind, Store.new_Neo, Store.alloc.
  destruct (fromString_loop_run (length h) (exec_all 0 string)
              (h ++ [Store.Instance identity Store.reset_literal])
              (Store.Instance identity Store.reset_literal)
              (exec_all_methods string 0) (lookup_new h _)) as (news & E).
  exists news. rewrite E, <- app_assoc. reflexivity.
Qed.

End StoreParsing.

Section ParsingReal.

Local Open Scope R_scope.

(** The builder chain of the README's example *)
Lemma scale_translate_chain :
  translate (scale identity 2 None None) 50 100 = (Elements 2 0 0 2 100 200 : Neo R).
Proof. cbn. f_equal; ring. Qed.

(** The value of the first call of the loop, which is dropped *)
Example fromString_first_call :
  call M_scale identity [Some 2] = Some (Elements 2 0 0 2 0 0 : Neo R).
Proof. cbn. do 2 f_equal; ring. Qed.

(** C2, at the input of the specification: [Neo.fromString] finds both
    functions and calls both methods, but assigns neither result, and
    returns the identity, as a value and as the instance of the store
    that [new Neo()] made; the builder chain gives
    [[ 2, 0, 0, 2, 100, 200 ]]. *)
Theorem fromString_scale_translate :
  Neo_fromString "scale(2),translate(50,100)" = Some (identity : Neo R)
  /\ (exists news,
        Store.fromString "scale(2),translate(50,100)" []
        = Some (Some 0%nat,
                Store.Instance (identity : Neo R) Store.reset_literal :: news))
  /\ translate (scale identity 2 None None) 50 100 = (Elements 2 0 0 2 100 200 : Neo R)
  /\ (identity : Neo R) <> translate (scale identity 2 None None) 50 100.
Proof.
  split; [apply fromString_identity|].
  split; [apply (fromString_returns_identity _ [])|].
  split; [apply scale_translate_chain|].
  rewrite scale_translate_chain. unfold identity. cbn.
  intros E. injection E as E. lra.
Qed.

(** C5, at an input where the code departs from it: a [grad] argument is
    multiplied by [200 / Math.PI], so [100grad] becomes about 6366
    degrees and not 90. *)
Theorem getParameters_grad :
  getParameters "100grad" = [Some (100 * (200 / PI))]
  /\ 100 * (200 / PI) <> 100 * (180 / 200).
Proof.
  split.
  - exact getParameters_100grad.
  - pose proof PI_4. pose proof PI_RGT_0 as Hp.
    intros E. assert (E' : 100 * 200 = 100 * (180 / 200) * PI).
    { rewrite <- E. field. lra. }
    lra.
Qed.

End ParsingReal.

Section TestScenario.

(** After the three calls the elements of [neo1] are what they were. *)
Example methods_do_not_mutate_run :
  exists h, methods_do_not_mutate [] = Some ((Elements 2 0 0 2 50 50)%R, h).
Proof. eexists. cbn. reflexivity. Qed.

End TestScenario.

(** ** The conversions of [getParameters], for every number *)

Section Units.

Context {num : Type} {N : Number num}.
Local Open Scope string_scope.

Lemma append_empty_r (s : string) : s ++ "" = s.
Proof. induction s as [|c s IH]; cbn; [reflexivity | rewrite IH; reflexivity]. Qed.

(** No unit and no [px] starts with a character of a number. *)
Lemma read_any_sub (c : ascii) (s : string) :
  numeric_char c = true ->
  Str.read_any false ["px"] (String c s) = None
  /\ Str.read_any false angleUnits (String c s) = None.
Proof.
  intros H.
  destruct c as [[] [] [] [] [] [] [] []]; try discriminate H; split; reflexivity.
Qed.

Lemma exec_step (alts : list string) (c : ascii) (s : string) :
  Str.read_any false alts (String c s) = None ->
  Str.exec alts (String c s)
  = match Str.exec alts s with
    | Some (before, got, rest) => Some (String c before, got, rest)
    | None => None
    end.
Proof. intros H. cbn [Str.exec]. rewrite H. reflexivity. Qed.

(** In a number followed by [u], a pattern is found where it is found
    in [u]. *)
Lemma exec_after_number (alts : list string) (n u : string) :
  (forall c s, numeric_char c = true -> Str.read_any false alts (String c s) = None) ->
  numeric n = true ->
  Str.exec alts (n ++ u)
  = match Str.exec alts u with
    | Some (before, got, rest) => Some (n ++ before, got, rest)
    | None => None
    end.
Proof.
  intros Halts. induction n as [|c n IH]; intros Hn.
  - cbn. destruct (Str.exec alts u) as [[[b g] r]|]; reflexivity.
  - cbn in Hn. apply andb_true_iff in Hn as [Hc Hn].
    cbn [append]. rewrite exec_step by (apply Halts, Hc).
    rewrite (IH Hn). destruct (Str.exec alts u) as [[[b g] r]|]; reflexivity.
Qed.

Lemma px_alts (c : ascii) (s : string) :
  numeric_char c = true -> Str.read_any false ["px"] (String c s) = None.
Proof. intros H. apply (read_any_sub c s H). Qed.

Lemma unit_alts (c : ascii) (s : string) :
  numeric_char c = true -> Str.read_any false angleUnits (String c s) = None.
Proof. intros H. apply (read_any_sub c s H). Qed.

(** A number followed by a unit is multiplied by [180 / Math.PI] for
    [rad], by [200 / Math.PI] for [grad], by 360 for [turn], and is kept
    for [deg]. *)
Lemma getParameter_unit (n u : string) :
  numeric n = true ->
  In u angleUnits ->
  getParameter (n ++ u)
  = (if String.eqb u "rad" then option_map (fun a => mul a rad2deg) (to_number n)
     else if String.eqb u "grad" then option_map (fun a => mul a grad2deg) (to_number n)
     else if String.eqb u "turn" then option_map (fun a => mul a turn2deg) (to_number n)
     else to_number n).
Proof.
  intros Hn Hu. unfold getParameter.
  assert (Hpx : Str.replace ["px"] "" (n ++ u) = n ++ u).
  { unfold Str.replace. rewrite (exec_after_number _ n u px_alts Hn).
    cbn in Hu. repeat (destruct Hu as [<-|Hu]; [reflexivity|]). contradiction. }
  rewrite Hpx, (exec_after_number _ n u unit_alts Hn).
  cbn in Hu.
  repeat (destruct Hu as [<-|Hu];
          [cbn; rewrite !append_empty_r; reflexivity|]).
  contradiction.
Qed.

(** A number followed by [px] is kept. *)
Lemma getParameter_px (n : string) :
  numeric n = true -> getParameter (n ++ "px") = to_number n.
Proof.
  intros Hn. unfold getParameter.
  assert (Hpx : Str.replace ["px"] "" (n ++ "px") = n).
  { unfold Str.replace. rewrite (exec_after_number _ n "px" px_alts Hn).
    cbn. rewrite !append_empty_r. reflexivity. }
  rewrite Hpx.
  replace n with (n ++ "") at 1 by apply append_empty_r.
  rewrite (exec_after_number _ n "" unit_alts Hn). reflexivity.
Qed.

End Units.

(** ** The guard and the scenarios in binary64 *)

(** In binary64 the guard of [Neo.decompose] is the comparison of the
    rounded [a*d - b*c] with zero, whatever the six numbers. *)
Lemma decompose_guard_binary64 (c s t ac at_ : float -> float) (tf : float -> nat -> float)
    (m : Neo float) :
  let F := F64_number c s t ac at_ tf in
  Neo_decompose (N := F) m = None
  <-> PrimFloat.eqb (elt_a m * elt_d m - elt_b m * elt_c m)%float 0%float = true.
Proof.
  destruct m as [a b c0 d e f].
  cbn [Neo_decompose strict_eq sub mul of_Z F64_number elt_a elt_b elt_c elt_d].
  change (F64.of_Z 0) with 0%float.
  destruct (PrimFloat.eqb (a * d - b * c0)%float 0%float); split;
    intros H; try reflexivity; discriminate H.
Qed.

(** The text of [rotate( 360 )]: eight empty entries joined by spaces *)
Lemma rotate_360_string (show : R -> string) :
  toCSSString show full_turn None = "       "%string.
Proof. unfold toCSSString. rewrite rotate_360_omitted. reflexivity. Qed.

(** The text of [rotate( 359.93 )] at precision 1 *)
Lemma rotate_near_360_string (show : R -> string) :
  toCSSString show almost_full_turn (Some 1%nat)
  = ("   rotate(" ++ show (3599 / 10)%R ++ "deg)    ")%string.
Proof.
  unfold toCSSString.
  destruct rotate_near_360_parts as (d & _ & _ & _ & E). rewrite E.
  cbn. rewrite !append_assoc. reflexivity.
Qed.

(** * The methods as operations on matrices and points *)

(** ** [multiply], [apply] and [inverse] *)

Section Composition.

Local Open Scope R_scope.

Lemma det_multiply (m1 m2 : Neo R) : det (multiply m1 m2) = det m1 * det m2.
Proof. destruct m1, m2. unfold det. cbn. ring. Qed.

Lemma decompose_none (m : Neo R) : Neo_decompose m = None <-> det m = 0.
Proof.
  destruct m as [a b c d e f]. unfold det. cbn.
  unfold RNum.eqb. destruct (Req_dec_T (a * d - b * c) 0) as [E|E].
  - split; [intros _; exact E | reflexivity].
  - split; [discriminate | intros H; contradiction].
Qed.

Lemma det_inverse (m : Neo R) : det m <> 0 -> det (inverse m) = / det m.
Proof.
  intros H. destruct m as [a b c d e f]. unfold det in H |- *. cbn in H |- *.
  assert (a * d - c * b <> 0) by lra.
  field; repeat split; assumption.
Qed.

(** X1: [multiply] is associative, and the matrix of [new Neo()] is
    neutral for it on either side. *)
Theorem multiply_monoid (m1 m2 m3 : Neo R) :
  multiply (multiply m1 m2) m3 = multiply m1 (multiply m2 m3)
  /\ multiply identity m1 = m1
  /\ multiply m1 identity = m1.
Proof.
  split; [apply multiply_assoc|].
  split; [apply multiply_identity_l | apply multiply_identity_r].
Qed.

(** X2: the product [m1.multiply( m2 )] applied to a point is [m1]
    applied to the image of the point under [m2]: the argument of
    [multiply] acts on the point first. *)
Theorem apply_multiply (m1 m2 : Neo R) (x y : R) :
  apply (multiply m1 m2) x y
  = apply m1 (fst (apply m2 x y)) (snd (apply m2 x y)).
Proof.
  destruct m1 as [a1 b1 c1 d1 e1 f1], m2 as [a2 b2 c2 d2 e2 f2].
  unfold apply, multiply. cbn. f_equal; ring.
Qed.

(** X3: what each method of the builder does to a point.  The matrix
    that [translate], [scale], [rotateRad], [skewXRad] or [skewYRad]
    returns maps a point as the receiver maps the translated, scaled,
    rotated (from the x axis towards the y axis) or sheared point; the
    identity maps every point to itself. *)
Theorem apply_primitives (this : Neo R) (x y tx ty sx r a : R) (sy : option R) :
  apply identity x y = (x, y)
  /\ apply (translate this tx ty) x y = apply this (x + tx) (y + ty)
  /\ apply (scale this sx sy None) x y = apply this (sx * x) (effective_sy sx sy * y)
  /\ apply (rotateRad this r) x y
     = apply this (x * cos r - y * sin r) (x * sin r + y * cos r)
  /\ apply (skewXRad this a) x y = apply this (x + tan a * y) y
  /\ apply (skewYRad this a) x y = apply this x (y + tan a * x).
Proof.
  rewrite scale_multiplies_by_primitive.
  destruct this as [a0 b0 c0 d0 e0 f0].
  unfold translate, rotateRad, skewXRad, skewYRad, multiply, apply, identity. cbn.
  repeat split; f_equal; ring.
Qed.

(** X4: the determinant of a product is the product of the
    determinants, so [Neo.decompose] fails on a product exactly when it
    fails on one of the factors. *)
Theorem decompose_product (m1 m2 : Neo R) :
  det (multiply m1 m2) = det m1 * det m2
  /\ (Neo_decompose (multiply m1 m2) = None
      <-> Neo_decompose m1 = None \/ Neo_decompose m2 = None).
Proof.
  split; [apply det_multiply|].
  rewrite !decompose_none, det_multiply. split.
  - apply Rmult_integral.
  - intros [H|H]; rewrite H; ring.
Qed.

(** X5: for a determinant other than zero, [inverse] undoes [apply] and
    [apply] undoes [inverse], at every point. *)
Theorem inverse_apply (m : Neo R) (x y : R) :
  det m <> 0 ->
  apply (inverse m) (fst (apply m x y)) (snd (apply m x y)) = (x, y)
  /\ apply m (fst (apply (inverse m) x y)) (snd (apply (inverse m) x y)) = (x, y).
Proof.
  intros H. destruct m as [a b c d e f]. unfold det in H. unfold apply, inverse.
  cbn in H |- *.
  assert (a * d - c * b <> 0) by lra.
  split; f_equal; field; assumption.
Qed.

Lemma inverse_apply_witness :
  apply (inverse (Elements 2 0 0 2 50 50))
        (fst (apply (Elements 2 0 0 2 50 50) 3 4))
        (snd (apply (Elements 2 0 0 2 50 50) 3 4)) = (3, 4)
  /\ apply (Elements 2 0 0 2 50 50)
           (fst (apply (inverse (Elements 2 0 0 2 50 50)) 3 4))
           (snd (apply (inverse (Elements 2 0 0 2 50 50)) 3 4)) = (3, 4).
Proof.
  apply (inverse_apply (Elements 2 0 0 2 50 50) 3 4).
  unfold det; cbn. lra.
Defined.

(** X6: for a determinant other than zero, the determinant of the
    inverse is the reciprocal, and the inverse of the inverse is the
    matrix. *)
Theorem inverse_involutive (m : Neo R) :
  det m <> 0 ->
  det (inverse m) = / det m /\ inverse (inverse m) = m.
Proof.
  intros H. split; [apply det_inverse, H|].
  destruct m as [a b c d e f]. unfold det in H. cbn in H |- *.
  assert (H' : a * d - c * b <> 0) by lra.
  assert (H2 : d / (a * d - c * b) * (a / (a * d - c * b))
               - - c / (a * d - c * b) * (- b / (a * d - c * b)) <> 0).
  { replace (d / (a * d - c * b) * (a / (a * d - c * b))
               - - c / (a * d - c * b) * (- b / (a * d - c * b)))
      with (/ (a * d - c * b)) by (field; assumption).
    apply Rinv_neq_0_compat, H'. }
  f_equal; field; repeat split; assumption.
Qed.

Lemma inverse_involutive_witness :
  det (inverse (Elements 2 0 0 2 50 50)) = / det (Elements 2 0 0 2 50 50)
  /\ inverse (inverse (Elements 2 0 0 2 50 50)) = (Elements 2 0 0 2 50 50 : Neo R).
Proof.
  apply (inverse_involutive (Elements 2 0 0 2 50 50)).
  unfold det; cbn. lra.
Defined.

(** X7: the inverse of a product of two matrices of determinant other
    than zero is the product of the inverses in the opposite order. *)
Theorem inverse_multiply (m1 m2 : Neo R) :
  det m1 <> 0 -> det m2 <> 0 ->
  inverse (multiply m1 m2) = multiply (inverse m2) (inverse m1).
Proof.
  intros H1 H2.
  assert (H : det (multiply m1 m2) <> 0).
  { rewrite det_multiply. apply Rmult_integral_contrapositive. split; assumption. }
  destruct m1 as [a1 b1 c1 d1 e1 f1], m2 as [a2 b2 c2 d2 e2 f2].
  unfold det in *. cbn in *.
  assert (a1 * d1 - c1 * b1 <> 0) by lra.
  assert (a2 * d2 - c2 * b2 <> 0) by lra.
  assert ((a1 * a2 + c1 * b2) * (b1 * c2 + d1 * d2)
          - (a1 * c2 + c1 * d2) * (b1 * a2 + d1 * b2) <> 0) by lra.
  f_equal; field; repeat split; assumption.
Qed.

Lemma inverse_multiply_witness :
  inverse (multiply (Elements 2 0 0 2 50 50) (Elements 3 1 (-1) 3 100 100))
  = multiply (inverse (Elements 3 1 (-1) 3 100 100))
             (inverse (Elements 2 0 0 2 50 50 : Neo R)).
Proof.
  apply (inverse_multiply (Elements 2 0 0 2 50 50) (Elements 3 1 (-1) 3 100 100));
    unfold det; cbn; lra.
Defined.

End Composition.

(** ** The shortcuts of the builder *)

Section Shortcuts.

Local Open Scope R_scope.

Lemma rotateRad_composes (m : Neo R) (r1 r2 : R) :
  rotateRad (rotateRad m r1) r2 = rotateRad m (r1 + r2).
Proof.
  destruct m as [a b c d e f]. unfold rotateRad, multiply. cbn.
  rewrite cos_plus, sin_plus. f_equal; ring.
Qed.

Lemma effective_sy_nonzero (x y : R) : y <> 0 -> effective_sy x (Some y) = y.
Proof.
  intros H. unfold effective_sy. destruct (Req_dec_T y 0); [contradiction | reflexivity].
Qed.

Lemma effective_sy_idem (sx : R) (sy : option R) :
  effective_sy sx (Some (effective_sy sx sy)) = effective_sy sx sy.
Proof.
  unfold effective_sy at 1.
  destruct (Req_dec_T (effective_sy sx sy) 0) as [E|E]; [|reflexivity].
  unfold effective_sy in E |- *. destruct sy as [v|]; [|reflexivity].
  destruct (Req_dec_T v 0); [reflexivity | contradiction].
Qed.

(** [scale] with a pivot, as a product *)
Lemma scale_pivot_value (m : Neo R) (sx ox oy : R) (sy : option R) :
  scale m sx sy (Some (ox, oy))
  = translate (multiply (translate m (- ox) (- oy))
                        (Elements sx 0 0 (effective_sy sx sy) 0 0)) ox oy.
Proof.
  unfold scale, scale_plain. rewrite !or_default_effective, effective_sy_idem.
  reflexivity.
Qed.

(** X8: translations add up: two calls of [translate] are one call with
    the sums, [translateX] and [translateY] in either order are
    [translate], and a translation by zero changes nothing. *)
Theorem translate_composes (m : Neo R) (tx ty ux uy : R) :
  translate (translate m tx ty) ux uy = translate m (tx + ux) (ty + uy)
  /\ translateY (translateX m tx) ty = translate m tx ty
  /\ translateX (translateY m ty) tx = translate m tx ty
  /\ translate m 0 0 = m.
Proof.
  destruct m as [a b c d e f]. unfold translate, translateX, translateY, multiply. cbn.
  repeat split; f_equal; ring.
Qed.

(** X9: rotations add up: two calls of [rotateRad], or of [rotate]
    without a pivot, are one call with the sum of the angles; a rotation
    by zero or by [2 * pi] radians changes nothing. *)
Theorem rotate_composes (m : Neo R) (r1 r2 : R) :
  rotateRad (rotateRad m r1) r2 = rotateRad m (r1 + r2)
  /\ rotate (rotate m r1 None) r2 None = rotate m (r1 + r2) None
  /\ rotateRad m 0 = m
  /\ rotateRad m (2 * PI) = m.
Proof.
  split; [apply rotateRad_composes|]. split.
  - unfold rotate. rewrite rotateRad_composes. f_equal. cbn. ring.
  - destruct m as [a b c d e f]. unfold rotateRad, multiply. cbn.
    rewrite cos_0, sin_0, cos_2PI, sin_2PI. split; f_equal; ring.
Qed.

(** X10: scales multiply: with second arguments other than zero, two
    calls of [scale] are one call with the products, and [scaleX] and
    [scaleY] in either order are [scale]. *)
Theorem scale_composes (m : Neo R) (sx sy tx ty : R) :
  sy <> 0 -> ty <> 0 ->
  scale (scale m sx (Some sy) None) tx (Some ty) None
  = scale m (sx * tx) (Some (sy * ty)) None
  /\ scaleY (scaleX m sx) sy = scale m sx (Some sy) None
  /\ scaleX (scaleY m sy) sx = scale m sx (Some sy) None.
Proof.
  intros Hs Ht.
  rewrite !scale_multiplies_by_primitive, !effective_sy_nonzero; try assumption.
  2: { apply Rmult_integral_contrapositive. split; assumption. }
  destruct m as [a b c d e f]. unfold scaleX, scaleY, multiply. cbn.
  repeat split; f_equal; ring.
Qed.

Lemma scale_composes_witness :
  scale (scale identity 2 (Some 3) None) 5 (Some 7) None
  = scale (identity : Neo R) (2 * 5) (Some (3 * 7)) None
  /\ scaleY (scaleX identity 2) 3 = scale (identity : Neo R) 2 (Some 3) None
  /\ scaleX (scaleY identity 3) 2 = scale (identity : Neo R) 2 (Some 3) None.
Proof.
  apply (scale_composes identity 2 3 5 7); lra.
Defined.

(** X11: the point that [scale] and [rotate] with a pivot [( ox, oy )]
    leave where the receiver puts it is [( -ox, -oy )]: the calls are
    [translate( -ox, -oy )], then the scale or the rotation, then
    [translate( ox, oy )], and the last call acts on a point first.  The
    point [( ox, oy )] itself goes where the receiver puts
    [( (2 sx - 1) ox, (2 sy - 1) oy )]. *)
Theorem pivot_fixed_point (this : Neo R) (sx r ox oy : R) (sy : option R) :
  apply (scale this sx sy (Some (ox, oy))) (- ox) (- oy) = apply this (- ox) (- oy)
  /\ apply (rotate this r (Some (ox, oy))) (- ox) (- oy) = apply this (- ox) (- oy)
  /\ apply (scale this sx sy (Some (ox, oy))) ox oy
     = apply this ((2 * sx - 1) * ox) ((2 * effective_sy sx sy - 1) * oy).
Proof.
  rewrite scale_pivot_value.
  destruct this as [a b c d e f].
  unfold rotate, rotate_plain, rotateRad, translate, multiply, apply.
  cbn. repeat split; f_equal; ring.
Qed.

(** X12: [flipX] and [flipY] are their own inverses, and the two of them
    one after the other, in either order, are the rotation by [pi]. *)
Theorem flip_involutive (m : Neo R) :
  flipX (flipX m) = m
  /\ flipY (flipY m) = m
  /\ flipY (flipX m) = rotateRad m PI
  /\ flipX (flipY m) = rotateRad m PI.
Proof.
  unfold flipX, flipY. cbn [of_Z neg R_number].
  rewrite !scale_multiplies_by_primitive, !effective_sy_nonzero by lra.
  destruct m as [a b c d e f]. unfold rotateRad, multiply. cbn.
  rewrite cos_PI, sin_PI. repeat split; f_equal; ring.
Qed.

(** X13: the determinant along the builder: [translate], [rotate],
    [rotateRad], [skewX] and [skewY] keep it, [scale] multiplies it by
    the two factors it scales with, and [flipX] and [flipY] change its
    sign. *)
Theorem det_builders (m : Neo R) (tx ty r ax ay sx : R) (sy : option R)
    (pivot : option (R * R)) :
  det (translate m tx ty) = det m
  /\ det (rotate m r pivot) = det m
  /\ det (rotateRad m r) = det m
  /\ det (skewX m ax) = det m
  /\ det (skewY m ay) = det m
  /\ det (scale m sx sy pivot) = det m * (sx * effective_sy sx sy)
  /\ det (flipX m) = - det m
  /\ det (flipY m) = - det m.
Proof.
  assert (T : forall m tx ty, det (translate m tx ty) = det m).
  { intros [a b c d e f] ux uy. unfold det, translate, multiply. cbn. ring. }
  assert (Rr : forall m r, det (rotateRad m r) = det m).
  { intros [a b c d e f] q. unfold det, rotateRad, multiply. cbn.
    pose proof (sin2_cos2 q) as Q. unfold Rsqr in Q.
    transitivity ((a * d - b * c) * (sin q * sin q + cos q * cos q)); [ring|].
    rewrite Q. ring. }
  assert (S : forall m sx sy, det (multiply m (Elements sx 0 0 sy 0 0)) = det m * (sx * sy)).
  { intros [a b c d e f] ux uy. unfold det, multiply. cbn. ring. }
  split; [apply T|]. split.
  { unfold rotate, rotate_plain. destruct pivot as [[ox oy]|]; rewrite ?T, Rr, ?T; reflexivity. }
  split; [apply Rr|]. split.
  { destruct m as [a b c d e f]. unfold det, skewX, skewXRad, multiply. cbn. ring. }
  split.
  { destruct m as [a b c d e f]. unfold det, skewY, skewYRad, multiply. cbn. ring. }
  split.
  { destruct pivot as [[ox oy]|].
    - rewrite scale_pivot_value, T, S, T. reflexivity.
    - rewrite scale_multiplies_by_primitive, S. reflexivity. }
  unfold flipX, flipY. cbn [of_Z neg R_number].
  rewrite !scale_multiplies_by_primitive, !S, !effective_sy_nonzero by lra. split; ring.
Qed.

End Shortcuts.

(** ** [equals] as a relation *)

Section Comparison.

Local Open Scope R_scope.

Lemma differs_iff (t e1 e2 : R) :
  differs t e1 e2 = false <-> Rabs (e1 - e2) <= t.
Proof.
  split; [|apply differs_false].
  intros H. destruct (Rle_dec (Rabs (e1 - e2)) t) as [L|L]; [exact L|].
  rewrite differs_true in H by lra. discriminate H.
Qed.

Lemma differs_sym (t e1 e2 : R) : differs t e1 e2 = differs t e2 e1.
Proof.
  destruct (differs t e2 e1) eqn:E.
  - apply not_false_is_true. intros F. apply differs_iff in F.
    rewrite Rabs_minus_sym in F. apply differs_iff in F. congruence.
  - apply differs_iff in E. apply differs_iff. rewrite Rabs_minus_sym. exact E.
Qed.

(** A matrix and itself *)
Lemma equals_self (m : Neo R) (tolerance : option R) :
  equals m m tolerance = true <-> 0 <= or_default tolerance (1 / 10000000).
Proof.
  rewrite equals_unfold, forallb_forall. split.
  - intros H. specialize (H 0%nat). rewrite in_seq in H.
    assert (D : differs (or_default tolerance (1 / 10000000)) (index m 0) (index m 0) = false).
    { apply negb_true_iff, H. lia. }
    apply differs_iff in D. rewrite Rminus_diag, Rabs_R0 in D. exact D.
  - intros H i _. apply negb_true_iff, differs_iff.
    rewrite Rminus_diag, Rabs_R0. exact H.
Qed.

Lemma equals_sym (a b : Neo R) (tolerance : option R) :
  equals a b tolerance = equals b a tolerance.
Proof.
  rewrite !equals_unfold. induction (seq 0 6) as [|i l IH]; [reflexivity|].
  cbn [forallb]. rewrite IH, differs_sym. reflexivity.
Qed.

(** X14: [equals] returns [true] exactly when each of the six elements
    differs from the other matrix's by at most the tolerance in effect:
    the one passed when it is not zero, [1e-7] otherwise. *)
Theorem equals_iff (this m : Neo R) (tolerance : option R) :
  equals this m tolerance = true
  <-> forall i, (i < 6)%nat ->
        Rabs (index this i - index m i) <= or_default tolerance (1 / 10000000).
Proof.
  rewrite equals_unfold, forallb_forall. split.
  - intros H i Hi. apply differs_iff.
    specialize (H i). rewrite in_seq in H.
    apply negb_true_iff, H. lia.
  - intros H i Hi. apply in_seq in Hi. apply negb_true_iff, differs_iff, H. lia.
Qed.

(** X15: [equals] as a relation.  It is symmetric: the receiver and the
    argument can be exchanged, whatever the tolerance.  A matrix equals
    itself at the default tolerance, and at a tolerance that is passed
    exactly when that tolerance is not negative: with a negative
    tolerance [equals] returns [false] even on a matrix and itself. *)
Theorem equals_symmetric_reflexive (a b : Neo R) (tolerance : option R) (t : R) :
  equals a b tolerance = equals b a tolerance
  /\ equals a a None = true
  /\ (equals a a (Some t) = true <-> 0 <= t).
Proof.
  split; [apply equals_sym|]. split.
  - apply equals_self. cbn. lra.
  - rewrite equals_self.
    destruct (Req_dec t 0) as [E|E].
    + subst t. rewrite or_default_zero. lra.
    + rewrite or_default_nonzero by exact E. reflexivity.
Qed.

End Comparison.

(** ** The components that [Neo.decompose] returns *)

Section Components.

Local Open Scope R_scope.

Lemma angle_from (m : Neo R) (r : R) :
  0 <= r < 2 * PI -> cosA m = cos r -> sinA m = sin r -> angle m = r.
Proof.
  intros [Hlo Hhi] Hc Hs. unfold angle. rewrite Hc, Hs.
  unfold RNum.leb. destruct (Rle_dec 0 (sin r)) as [Hp|Hp].
  - apply acos_cos. split; [exact Hlo|].
    destruct (Rle_dec r PI) as [Hr|Hr]; [exact Hr|].
    exfalso. assert (sin r < 0) by (apply sin_lt_0; lra). lra.
  - assert (PI < r).
    { destruct (Rlt_dec PI r) as [Hr|Hr]; [exact Hr|].
      exfalso. apply Hp. apply sin_ge_0; lra. }
    replace (cos r) with (cos (2 * PI - r)).
    + rewrite acos_cos by lra. ring.
    + rewrite cos_minus, cos_2PI, sin_2PI. ring.
Qed.

(** X16: on a matrix of determinant other than zero [Neo.decompose]
    returns components with these properties: the translation is
    [( e, f )]; both scales are positive and their product is the
    absolute value of the determinant; the rotation is in [[0, 2 pi)] and
    is the direction of the x axis vector [( a, b )]; [rotationRads] is
    the rotation and [rotationDegs] the same angle in degrees, in
    [[0, 360)]. *)
Theorem decompose_invariants (m : Neo R) :
  det m <> 0 ->
  exists d, Neo_decompose m = Some d
    /\ translateX_of d = elt_e m /\ translateY_of d = elt_f m
    /\ 0 < scaleX_of d /\ 0 < scaleY_of d
    /\ scaleX_of d * scaleY_of d = Rabs (det m)
    /\ 0 <= rotate_of d < 2 * PI
    /\ cos (rotate_of d) * scaleX_of d = elt_a m
    /\ sin (rotate_of d) * scaleX_of d = elt_b m
    /\ rotationRads_of d = rotate_of d
    /\ rotationDegs_of d = rotate_of d * (180 / PI)
    /\ 0 <= rotationDegs_of d < 360.
Proof.
  intros H. pose proof (mag_pos m H) as Hn.
  pose proof (angle_range m H) as [Hlo Hhi].
  pose proof (angle_cos_sin m H) as [Hc Hs].
  pose proof PI_RGT_0 as Hpi.
  assert (Ha : 0 < Rabs (det m)) by (apply Rabs_pos_lt, H).
  eexists. split; [apply decompose_regular, H|]. cbn.
  split; [reflexivity|]. split; [reflexivity|].
  split; [exact Hn|].
  split; [apply Rdiv_lt_0_compat; assumption|].
  split; [field; lra|].
  split; [split; assumption|].
  split; [rewrite Hc; unfold cosA; field; lra|].
  split; [rewrite Hs; unfold sinA; field; lra|].
  split; [reflexivity|]. split; [reflexivity|].
  split.
  - apply Rmult_le_pos; [exact Hlo|]. apply Rlt_le, Rdiv_lt_0_compat; lra.
  - replace 360 with (2 * PI * (180 / PI)) by (field; lra).
    apply Rmult_lt_compat_r; [apply Rdiv_lt_0_compat; lra | exact Hhi].
Qed.

Lemma decompose_invariants_witness :
  exists d, Neo_decompose (Elements 2 0 0 2 50 50 : Neo R) = Some d
    /\ translateX_of d = 50 /\ translateY_of d = 50
    /\ 0 < scaleX_of d /\ 0 < scaleY_of d
    /\ scaleX_of d * scaleY_of d = Rabs (det (Elements 2 0 0 2 50 50))
    /\ 0 <= rotate_of d < 2 * PI
    /\ cos (rotate_of d) * scaleX_of d = 2
    /\ sin (rotate_of d) * scaleX_of d = 0
    /\ rotationRads_of d = rotate_of d
    /\ rotationDegs_of d = rotate_of d * (180 / PI)
    /\ 0 <= rotationDegs_of d < 360.
Proof.
  apply (decompose_invariants (Elements 2 0 0 2 50 50)).
  unfold det; cbn. lra.
Defined.

(** X17: the decomposition is the only one of its kind: for positive
    scales, any shear, any translation and a rotation in [[0, 2 pi)],
    the matrix built by [translate], [rotateRad], [skewXRad] of the
    arctangent of the shear and [scale], in this order, is decomposed
    into exactly these components. *)
Theorem decompose_recompose (d : Decomposed R) :
  0 < scaleX_of d -> 0 < scaleY_of d -> 0 <= rotationRads_of d < 2 * PI ->
  Neo_decompose (recompose d)
  = Some (Result (translateX_of d) (translateY_of d) (scaleX_of d) (scaleY_of d)
                 (shear_of d) (rotationRads_of d) (rotationRads_of d)
                 (rotationRads_of d * (180 / PI))).
Proof.
  destruct d as [tx ty sx sy k r0 r deg]. cbn [translateX_of translateY_of scaleX_of
    scaleY_of shear_of rotationRads_of]. intros Hx Hy Hr.
  rewrite recompose_value by (cbn; lra).
  cbn [translateX_of translateY_of scaleX_of scaleY_of shear_of rotationRads_of].
  set (m := Elements (cos r * sx) (sin r * sx) ((cos r * k - sin r) * sy)
                     ((sin r * k + cos r) * sy) tx ty).
  pose proof (sin2_cos2 r) as T. unfold Rsqr in T.
  assert (Hd : det m = sx * sy).
  { unfold det, m; cbn.
    transitivity ((sin r * sin r + cos r * cos r) * (sx * sy)); [ring|].
    rewrite T. ring. }
  assert (Hm : mag m = sx).
  { unfold mag, m; cbn.
    replace (cos r * sx * (cos r * sx) + sin r * sx * (sin r * sx))
      with ((sin r * sin r + cos r * cos r) * (sx * sx)) by ring.
    rewrite T, Rmult_1_l. apply sqrt_square. lra. }
  assert (Hc : cosA m = cos r) by (unfold cosA; rewrite Hm; unfold m; cbn; field; lra).
  assert (Hs : sinA m = sin r) by (unfold sinA; rewrite Hm; unfold m; cbn; field; lra).
  assert (Hk : scaledShear m = k * sy).
  { unfold scaledShear. rewrite Hc, Hs. unfold m; cbn.
    transitivity ((sin r * sin r + cos r * cos r) * (k * sy)); [ring|].
    rewrite T. ring. }
  assert (Hpos : 0 < sx * sy) by (apply Rmult_lt_0_compat; assumption).
  rewrite decompose_regular by (rewrite Hd; lra).
  rewrite (angle_from m r Hr Hc Hs), Hd, Hm, Hk, Rabs_pos_eq by lra.
  unfold m; cbn [elt_e elt_f].
  f_equal. f_equal; field; lra.
Qed.

Lemma decompose_recompose_witness :
  Neo_decompose (recompose (Result 50 50 2 3 1 0 0 0))
  = Some (Result 50 50 2 3 1 0 0 (0 * (180 / PI))).
Proof.
  apply (decompose_recompose (Result 50 50 2 3 1 0 0 0)); cbn; try lra.
  pose proof PI_RGT_0. lra.
Defined.

(** X18: the components of a matrix of determinant other than zero
    recompose to a matrix whose determinant is the absolute value of
    the original one; a matrix of negative determinant, one that mirrors
    the plane, is therefore decomposed into components that do not give
    it back. *)
Theorem decompose_orientation (m : Neo R) :
  det m <> 0 ->
  exists d, Neo_decompose m = Some d
    /\ det (recompose d) = Rabs (det m)
    /\ (det m < 0 -> recompose d <> m).
Proof.
  intros H. destruct (recompose_determinant m H) as (d & Hd & H1 & _).
  exists d. split; [exact Hd|]. split; [exact H1|].
  intros Hneg E. rewrite E, Rabs_left in H1 by exact Hneg. lra.
Qed.

Lemma decompose_orientation_witness :
  exists d, Neo_decompose (Elements (-1) 0 0 1 0 0 : Neo R) = Some d
    /\ det (recompose d) = Rabs (det (Elements (-1) 0 0 1 0 0))
    /\ (det (Elements (-1) 0 0 1 0 0) < 0 -> recompose d <> Elements (-1) 0 0 1 0 0).
Proof.
  apply (decompose_orientation (Elements (-1) 0 0 1 0 0)).
  unfold det; cbn. lra.
Defined.

Lemma mag_scaled (a b c d e f k : R) (c' d' e' f' : R) :
  0 < k ->
  mag (Elements (a * k) (b * k) c' d' e' f') = k * mag (Elements a b c d e f).
Proof.
  intros Hk. unfold mag. cbn.
  replace (a * k * (a * k) + b * k * (b * k)) with (k * k * (a * a + b * b)) by ring.
  rewrite sqrt_mult_alt by nra. rewrite sqrt_square by lra. reflexivity.
Qed.

(** X19: the components after a call of the builder.  For a receiver
    of determinant other than zero, the matrix that [translate] returns
    has the components of the receiver but for the translation, which
    is the image of [( tx, ty )] under the receiver; the matrix that
    [scale] returns for two positive factors has the components of the
    receiver but for the two scales, each multiplied by its factor. *)
Theorem decompose_after (m : Neo R) (tx ty sx sy : R) :
  det m <> 0 -> 0 < sx -> 0 < sy ->
  exists d, Neo_decompose m = Some d
    /\ Neo_decompose (translate m tx ty)
       = Some (Result (fst (apply m tx ty)) (snd (apply m tx ty))
                      (scaleX_of d) (scaleY_of d) (shear_of d)
                      (rotate_of d) (rotationRads_of d) (rotationDegs_of d))
    /\ Neo_decompose (scale m sx (Some sy) None)
       = Some (Result (translateX_of d) (translateY_of d)
                      (sx * scaleX_of d) (sy * scaleY_of d) (shear_of d)
                      (rotate_of d) (rotationRads_of d) (rotationDegs_of d)).
Proof.
  intros H Hx Hy. pose proof (mag_pos m H) as Hn.
  eexists. split; [apply decompose_regular, H|].
  cbn [translateX_of translateY_of scaleX_of scaleY_of shear_of rotate_of
       rotationRads_of rotationDegs_of].
  destruct m as [a b c d e f]. split.
  - assert (E : translate (Elements a b c d e f) tx ty
              = Elements a b c d (a * tx + c * ty + e) (b * tx + d * ty + f)).
    { unfold translate, multiply. cbn. f_equal; ring. }
    rewrite E. rewrite decompose_regular by exact H. reflexivity.
  - assert (E : scale (Elements a b c d e f) sx (Some sy) None
              = Elements (a * sx) (b * sx) (c * sy) (d * sy) e f).
    { rewrite scale_multiplies_by_primitive, effective_sy_nonzero by lra.
      unfold multiply. cbn. f_equal; ring. }
    rewrite E.
    set (m := Elements a b c d e f) in *.
    set (m' := Elements (a * sx) (b * sx) (c * sy) (d * sy) e f).
    assert (Hm : mag m' = sx * mag m) by (apply mag_scaled, Hx).
    assert (Hd : det m' = sx * sy * det m) by (unfold det, m', m; cbn; ring).
    assert (Hc : cosA m' = cosA m).
    { unfold cosA. rewrite Hm. change (elt_a m') with (a * sx). change (elt_a m) with a.
      field. split; lra. }
    assert (Hs : sinA m' = sinA m).
    { unfold sinA. rewrite Hm. change (elt_b m') with (b * sx). change (elt_b m) with b.
      field. split; lra. }
    assert (Hk : scaledShear m' = sy * scaledShear m).
    { unfold scaledShear. rewrite Hc, Hs.
      change (elt_c m') with (c * sy). change (elt_d m') with (d * sy).
      change (elt_c m) with c. change (elt_d m) with d. ring. }
    assert (Ha : angle m' = angle m) by (unfold angle; rewrite Hc, Hs; reflexivity).
    assert (Hp : 0 < sx * sy) by (apply Rmult_lt_0_compat; assumption).
    assert (Hab : Rabs (det m') = sx * sy * Rabs (det m)).
    { rewrite Hd, Rabs_mult, (Rabs_pos_eq (sx * sy)) by lra. reflexivity. }
    assert (Hdet : Rabs (det m) <> 0) by (apply Rabs_no_R0, H).
    rewrite decompose_regular by (rewrite Hd; apply Rmult_integral_contrapositive; split; lra).
    rewrite Ha, Hm, Hk, Hab. unfold m' at 1 2; cbn [elt_e elt_f].
    f_equal. f_equal; field; repeat split; lra.
Qed.

Lemma decompose_after_witness :
  exists d, Neo_decompose (Elements 2 0 0 2 50 50 : Neo R) = Some d
    /\ Neo_decompose (translate (Elements 2 0 0 2 50 50) 1 1)
       = Some (Result (fst (apply (Elements 2 0 0 2 50 50) 1 1))
                      (snd (apply (Elements 2 0 0 2 50 50) 1 1))
                      (scaleX_of d) (scaleY_of d) (shear_of d)
                      (rotate_of d) (rotationRads_of d) (rotationDegs_of d))
    /\ Neo_decompose (scale (Elements 2 0 0 2 50 50) 3 (Some 5) None)
       = Some (Result (translateX_of d) (translateY_of d)
                      (3 * scaleX_of d) (5 * scaleY_of d) (shear_of d)
                      (rotate_of d) (rotationRads_of d) (rotationDegs_of d)).
Proof.
  apply (decompose_after (Elements 2 0 0 2 50 50) 1 1 3 5); [unfold det; cbn|..]; lra.
Defined.

End Components.

(** ** The text of [toCSSString] *)

Section Families.

Context {num : Type} {N : Number num}.

(** X20: the array that [toCSSString] joins always has eight entries;
    at most four of them are not empty, and no two of them write the
    same component:
    at most one of translate, translateX and translateY, at most one
    rotate, at most one of scale, scaleX and scaleY, at most one
    skewX. *)
Theorem entries_families (d : option (Decomposed num)) (precision : option nat) :
  List.length (entries d precision) = 8%nat
  /\ List.NoDup (map family (emitted (entries d precision)))
  /\ (List.length (emitted (entries d precision)) <= 4)%nat.
Proof.
  unfold entries, scale_final, translate_final.
  destruct (scaleX_var d precision) as [sx|], (scaleY_var d precision) as [sy|],
    (translateX_var d precision) as [tx|], (translateY_var d precision) as [ty|],
    (rotate_final d precision) as [r|], (skewX_var d precision) as [k|];
    cbn [option_map string_entry number_entry scale_entry fst snd];
    repeat match goal with
      | |- context [if ?b then _ else _] => destruct b
      end;
    cbn [emitted map family List.length];
    (split; [reflexivity|]); (split; [|lia]);
    repeat (constructor; [cbn; intuition discriminate|]); constructor.
Qed.

End Families.

Section Serialization.

Local Open Scope R_scope.

(** An upright matrix: positive scales, no rotation and no shear *)
Lemma decompose_upright (sx sy tx ty : R) :
  0 < sx -> 0 < sy ->
  Neo_decompose (Elements sx 0 0 sy tx ty)
  = Some (Result tx ty sx sy 0 0 0 (0 * (180 / PI))).
Proof.
  intros Hx Hy.
  set (m := Elements sx 0 0 sy tx ty).
  assert (Hd : det m = sx * sy) by (unfold det, m; cbn; ring).
  assert (Hp : 0 < sx * sy) by (apply Rmult_lt_0_compat; assumption).
  assert (H : det m <> 0) by lra.
  assert (Hm : mag m = sx).
  { unfold mag, m; cbn. replace (sx * sx + 0 * 0) with (sx * sx) by ring.
    apply sqrt_square. lra. }
  assert (Hc : cosA m = 1) by (unfold cosA; rewrite Hm; unfold m; cbn; field; lra).
  assert (Hs : sinA m = 0) by (unfold sinA; rewrite Hm; unfold m; cbn; field; lra).
  assert (Ha : angle m = 0).
  { unfold angle. rewrite Hs, Hc, leb_true by lra. apply acos_1. }
  rewrite decompose_regular by exact H.
  unfold scaledShear. rewrite Ha, Hm, Hd, Hc, Hs, Rabs_pos_eq by lra.
  unfold m; cbn [elt_c elt_d elt_e elt_f].
  f_equal. f_equal; field; lra.
Qed.

Lemma limit_small (precision : option nat) : limit precision <= 1 / 10.
Proof.
  rewrite limit_value. unfold Rdiv. rewrite !Rmult_1_l.
  apply Rinv_le_contravar; [lra|].
  rewrite pow10_IZR. apply IZR_le.
  destruct precision as [[|p]|]; cbn [digits]; try lia.
  change 10%Z with (10 ^ 1)%Z at 1. apply Z.pow_le_mono_r; lia.
Qed.

(** The test [v > limit || v < -limit] *)
Lemma far_test (precision : option nat) (v : R) :
  RNum.ltb (limit precision) v || RNum.ltb v (- limit precision) = far precision v.
Proof.
  pose proof (limit_pos precision) as Hl. unfold far.
  unfold Rabs. destruct (Rcase_abs v) as [Hv|Hv].
  - rewrite (ltb_false (limit precision) v) by lra. cbn [orb].
    destruct (Rlt_dec v (- limit precision)) as [L|L].
    + rewrite !ltb_true by lra. reflexivity.
    + rewrite !ltb_false by lra. reflexivity.
  - rewrite (ltb_false v (- limit precision)) by lra. rewrite orb_false_r. reflexivity.
Qed.

Lemma far_nonzero (precision : option nat) (v : R) : far precision v = true -> v <> 0.
Proof.
  pose proof (limit_pos precision) as Hl. unfold far, RNum.ltb.
  destruct (Rlt_dec (limit precision) (Rabs v)) as [L|L]; [|discriminate].
  intros _ E. subst v. rewrite Rabs_R0 in L. lra.
Qed.

Lemma far_zero (precision : option nat) : far precision 0 = false.
Proof.
  pose proof (limit_pos precision). unfold far. rewrite Rabs_R0. apply ltb_false. lra.
Qed.

Lemma to_fixed_zero (x : R) (p : nat) :
  0 <= x -> x < 1 / RNum.pow10 p / 2 -> RNum.to_fixed x p = 0.
Proof.
  intros H0 H. pose proof (pow10_pos p) as Hp.
  rewrite (to_fixed_value x p 0 H0).
  - unfold Rdiv. ring.
  - assert (E : 1 / RNum.pow10 p / 2 * RNum.pow10 p = / 2) by (field; lra).
    apply Rmult_lt_compat_r with (r := RNum.pow10 p) in H; [|lra].
    rewrite E in H. split; [|lra].
    assert (0 <= x * RNum.pow10 p) by (apply Rmult_le_pos; lra). lra.
Qed.

(** X21: on a matrix of determinant zero [toCSSString] returns the text
    of [toString]: [matrix(] and [)] around the six elements separated
    by commas, whatever the precision. *)
Theorem toCSSString_singular (show : R -> string) (m : Neo R) (precision : option nat) :
  det m = 0 ->
  toCSSString_parts m precision = Matrix m
  /\ toCSSString show m precision = toString show m
  /\ toCSSString show m precision
     = ("matrix(" ++ show (elt_a m) ++ "," ++ show (elt_b m) ++ "," ++ show (elt_c m) ++ ","
        ++ show (elt_d m) ++ "," ++ show (elt_e m) ++ "," ++ show (elt_f m) ++ ")")%string.
Proof.
  intros H.
  assert (E : Neo_decompose m = None).
  { destruct m as [a b c d e f]. unfold det in H. cbn in H |- *.
    rewrite eqb_true by exact H. reflexivity. }
  assert (P : toCSSString_parts m precision = Matrix m).
  { unfold toCSSString_parts. rewrite E. reflexivity. }
  split; [exact P|].
  unfold toCSSString. rewrite P. split; [reflexivity|].
  unfold toString. cbn. repeat (rewrite append_assoc; cbn [append]). reflexivity.
Qed.

Lemma toCSSString_singular_witness :
  toCSSString_parts (Elements 1 0 0 0 0 0 : Neo R) None = Matrix (Elements 1 0 0 0 0 0)
  /\ toCSSString (fun _ => "n"%string) (Elements 1 0 0 0 0 0 : Neo R) None
     = toString (fun _ => "n"%string) (Elements 1 0 0 0 0 0 : Neo R)
  /\ toCSSString (fun _ => "n"%string) (Elements 1 0 0 0 0 0 : Neo R) None
     = "matrix(n,n,n,n,n,n)"%string.
Proof.
  apply (toCSSString_singular (fun _ => "n"%string) (Elements 1 0 0 0 0 0) None).
  unfold det; cbn. lra.
Defined.

(** The entries of a translation, when [toFixed] returns *)
Lemma translation_parts (tx ty : R) (precision : option nat) :
  toCSSString_parts (Elements 1 0 0 1 tx ty) precision
  = Functions
      [ if far precision tx && far precision ty
        then Some (Ttranslate (RNum.to_fixed tx (digits precision))
                              (RNum.to_fixed ty (digits precision)))
        else None;
        if far precision tx && negb (far precision ty)
        then Some (TtranslateX (RNum.to_fixed tx (digits precision))) else None;
        if negb (far precision tx) && far precision ty
        then Some (TtranslateY (RNum.to_fixed ty (digits precision))) else None;
        None; None; None; None; None ].
Proof.
  unfold toCSSString_parts. rewrite decompose_upright by lra.
  pose proof (limit_pos precision) as Hl.
  unfold entries, scale_final, translate_final, scaleX_var, scaleY_var,
    translateX_var, translateY_var, skewX_var, rotate_final, rotate_var,
    string_entry, number_entry, scale_entry.
  cbn [translateX_of translateY_of scaleX_of scaleY_of shear_of rotate_of].
  cbn [lt add sub neg of_Z R_number].
  rewrite !far_test, ?far_zero.
  set (l := limit precision) in *.
  rewrite ?(ltb_false l 0), ?(ltb_false (1 + l) 1), ?(ltb_false 1 (1 - l)),
    ?(ltb_false 0 (- l)) by lra.
  cbn [orb andb].
  destruct (far precision tx) eqn:Fx, (far precision ty) eqn:Fy;
    cbn [andb negb option_map fst snd];
    rewrite ?s_nonzero by (apply (far_nonzero precision); assumption); reflexivity.
Qed.

(** A number that is far from zero is truthy. *)
Lemma far_truthy (precision : option nat) (v : R) :
  far precision v && truthy v = far precision v.
Proof.
  destruct (far precision v) eqn:F; [|reflexivity].
  cbn. rewrite eqb_false by (apply (far_nonzero precision), F). reflexivity.
Qed.

(** The calls of [s] that reach [toFixed] on an upright matrix: those
    for a scale away from 1 and for a translation far from zero *)
Lemma calls_upright (sx sy tx ty : R) (precision : option nat) :
  0 < sx -> 0 < sy ->
  calls_toFixed (Neo_decompose (Elements sx 0 0 sy tx ty)) precision
  = (RNum.ltb (1 + limit precision) sx || RNum.ltb sx (1 - limit precision))
    || (RNum.ltb (1 + limit precision) sy || RNum.ltb sy (1 - limit precision))
    || far precision tx || far precision ty.
Proof.
  intros Hx Hy. rewrite decompose_upright by assumption.
  pose proof (limit_pos precision) as Hl.
  unfold calls_toFixed, reaches_toFixed.
  cbn [translateX_of translateY_of scaleX_of scaleY_of shear_of rotate_of].
  cbn [lt add sub neg of_Z R_number].
  rewrite !far_test, !far_truthy, far_zero.
  rewrite (ltb_false (limit precision) 0) by lra.
  cbn [andb orb truthy R_number].
  rewrite (eqb_false sx 0), (eqb_false sy 0) by lra.
  cbn [negb]. rewrite !andb_true_r. reflexivity.
Qed.

(** X22: the text of a translation.  For the matrix of
    [translate( tx, ty )] from the identity, [toCSSString] calls
    [toFixed] when [tx] or [ty] is further from zero than the limit, and
    then throws a RangeError for a precision above 100.  Otherwise it
    emits [translate] with both numbers when both are further from zero
    than the limit, [translateX] or [translateY] alone when only one is,
    and nothing when neither is; the numbers are rounded to the
    precision, and every other entry is empty. *)
Theorem toCSSString_translation (tx ty : R) (precision : option nat) :
  toCSSString_outcome (translate identity tx ty) precision
  = if (100 <? digits precision)%nat && (far precision tx || far precision ty)
    then RangeError
    else
      Returns
        (Functions
           [ if far precision tx && far precision ty
             then Some (Ttranslate (RNum.to_fixed tx (digits precision))
                                   (RNum.to_fixed ty (digits precision)))
             else None;
             if far precision tx && negb (far precision ty)
             then Some (TtranslateX (RNum.to_fixed tx (digits precision))) else None;
             if negb (far precision tx) && far precision ty
             then Some (TtranslateY (RNum.to_fixed ty (digits precision))) else None;
             None; None; None; None; None ]).
Proof.
  assert (E : translate identity tx ty = Elements 1 0 0 1 tx ty).
  { unfold translate, multiply, identity. cbn. f_equal; ring. }
  rewrite E. unfold toCSSString_outcome.
  rewrite calls_upright, translation_parts by lra.
  pose proof (limit_pos precision) as Hl.
  rewrite (ltb_false (1 + limit precision) 1), (ltb_false 1 (1 - limit precision)) by lra.
  reflexivity.
Qed.

(** X23: a scale that rounds to zero is dropped.  When both factors are
    positive and below half the limit, the matrix of [scale( sx, sy )]
    from the identity is not singular, and [toCSSString], which throws
    a RangeError for a precision above 100, returns for it otherwise the
    eight empty entries that it returns, at every precision, for the
    identity. *)
Theorem tiny_scale_dropped (sx sy : R) (precision : option nat) :
  0 < sx < limit precision / 2 -> 0 < sy < limit precision / 2 ->
  det (scale identity sx (Some sy) None) <> 0
  /\ toCSSString_outcome (scale identity sx (Some sy) None) precision
     = (if (100 <? digits precision)%nat then RangeError
        else Returns (Functions [None; None; None; None; None; None; None; None]))
  /\ toCSSString_outcome identity precision
     = Returns (Functions [None; None; None; None; None; None; None; None]).
Proof.
  intros [Hx0 Hx] [Hy0 Hy].
  pose proof (limit_pos precision) as Hl. pose proof (limit_small precision) as Hs.
  assert (E : scale identity sx (Some sy) None = Elements sx 0 0 sy 0 0).
  { rewrite scale_multiplies_by_primitive.
    unfold effective_sy. destruct (Req_dec_T sy 0); [lra|].
    unfold multiply, identity. cbn. f_equal; ring. }
  rewrite E. split; [unfold det; cbn; nra|].
  assert (P : toCSSString_parts (Elements sx 0 0 sy 0 0) precision
              = Functions [None; None; None; None; None; None; None; None]).
  { unfold toCSSString_parts. rewrite decompose_upright by lra.
    unfold entries, scale_final, translate_final, scaleX_var, scaleY_var,
      translateX_var, translateY_var, skewX_var, rotate_final, rotate_var,
      string_entry, number_entry, scale_entry.
    cbn [translateX_of translateY_of scaleX_of scaleY_of shear_of rotate_of].
    cbn [lt add sub neg of_Z R_number].
    rewrite !(s_nonzero precision) by lra.
    rewrite !to_fixed_zero by (rewrite <- ?limit_value; lra).
    set (l := limit precision) in *.
    rewrite ?(ltb_false l 0), ?(ltb_false 0 (- l)),
      ?(ltb_false (1 + l) sx), ?(ltb_false (1 + l) sy),
      ?(ltb_true sx (1 - l)), ?(ltb_true sy (1 - l)) by lra.
    cbn [orb andb strict_eq truthy R_number].
    rewrite !eqb_true by reflexivity. cbn. reflexivity. }
  split.
  - unfold toCSSString_outcome. rewrite calls_upright, P by lra.
    rewrite (ltb_true sx (1 - limit precision)) by lra.
    rewrite orb_true_r. cbn [orb]. rewrite andb_true_r. reflexivity.
  - unfold toCSSString_outcome, identity. cbn [of_Z R_number].
    rewrite calls_upright by lra.
    rewrite (translation_parts 0 0), !far_zero.
    rewrite (ltb_false (1 + limit precision) 1), (ltb_false 1 (1 - limit precision)) by lra.
    cbn [orb andb]. rewrite andb_false_r. reflexivity.
Qed.

Lemma tiny_scale_dropped_witness :
  det (scale identity (1 / 1000000000) (Some (1 / 1000000000)) None) <> 0
  /\ toCSSString_outcome (scale identity (1 / 1000000000) (Some (1 / 1000000000)) None) None
     = (if (100 <? digits None)%nat then RangeError
        else Returns (Functions [None; None; None; None; None; None; None; None]))
  /\ toCSSString_outcome (identity : Neo R) None
     = Returns (Functions [None; None; None; None; None; None; None; None]).
Proof.
  apply (tiny_scale_dropped (1 / 1000000000) (1 / 1000000000) None);
    rewrite limit_value; cbn [digits]; rewrite pow10_7; lra.
Defined.

End Serialization.

(** ** Values that are not finite numbers, in binary64 *)

Section Binary64Facts.

Lemma SFcompare_refl (x : SpecFloat.spec_float) :
  x <> SpecFloat.S754_nan -> SpecFloat.SFcompare x x = Some Eq.
Proof.
  destruct x as [s|s| |s m e]; intros H; try reflexivity.
  - destruct s; reflexivity.
  - contradiction.
  - cbn. rewrite Z.compare_refl.
    replace (Pos.compare_cont Eq m m) with Eq by (symmetry; apply Pos.compare_cont_refl).
    destruct s; reflexivity.
Qed.

Lemma is_nan_spec (x : float) : F64.is_nan x = true <-> Prim2SF x = SpecFloat.S754_nan.
Proof.
  unfold F64.is_nan. rewrite FloatAxioms.eqb_spec. unfold SpecFloat.SFeqb. split.
  - intros H. destruct (Prim2SF x) eqn:E; try reflexivity;
      rewrite SFcompare_refl in H by discriminate; discriminate H.
  - intros ->. reflexivity.
Qed.

Lemma is_infinity_spec (x : float) (s : bool) :
  Prim2SF x = SpecFloat.S754_infinity s -> PrimFloat.is_infinity x = true.
Proof.
  intros H. unfold PrimFloat.is_infinity.
  rewrite FloatAxioms.eqb_spec, FloatAxioms.abs_spec, H. reflexivity.
Qed.

Lemma eqb_zero (x : float) :
  PrimFloat.eqb x 0%float = true -> exists s, Prim2SF x = SpecFloat.S754_zero s.
Proof.
  rewrite FloatAxioms.eqb_spec. change (Prim2SF 0%float) with (SpecFloat.S754_zero false).
  destruct (Prim2SF x) as [s|s| |s m e]; try (destruct s; discriminate).
  - intros _. exists s. reflexivity.
  - discriminate.
Qed.

(** A quotient by zero is NaN or an infinity. *)
Lemma div_by_zero (x y : float) :
  PrimFloat.eqb y 0%float = true -> not_finite (x / y)%float = true.
Proof.
  intros H. destruct (eqb_zero y H) as [sy Hy].
  unfold not_finite. apply orb_true_iff.
  pose proof (FloatAxioms.div_spec x y) as D. rewrite Hy in D.
  unfold SF64div, SpecFloat.SFdiv in D.
  destruct (Prim2SF x) as [sx|sx| |sx mx ex].
  - left. apply is_nan_spec, D.
  - right. apply (is_infinity_spec _ _ D).
  - left. apply is_nan_spec, D.
  - right. apply (is_infinity_spec _ _ D).
Qed.

Lemma ltb_nan_l (x y : float) : F64.is_nan x = true -> PrimFloat.ltb x y = false.
Proof.
  intros H. apply is_nan_spec in H. rewrite FloatAxioms.ltb_spec, H. reflexivity.
Qed.

Lemma ltb_nan_r (x y : float) : F64.is_nan y = true -> PrimFloat.ltb x y = false.
Proof.
  intros H. apply is_nan_spec in H. rewrite FloatAxioms.ltb_spec, H.
  unfold SpecFloat.SFltb, SpecFloat.SFcompare. destruct (Prim2SF x); reflexivity.
Qed.

Lemma add_nan_l (x y : float) : F64.is_nan x = true -> F64.is_nan (x + y)%float = true.
Proof.
  intros H. apply is_nan_spec in H. apply is_nan_spec.
  rewrite FloatAxioms.add_spec, H. reflexivity.
Qed.

Lemma sub_nan_l (x y : float) : F64.is_nan x = true -> F64.is_nan (x - y)%float = true.
Proof.
  intros H. apply is_nan_spec in H. apply is_nan_spec.
  rewrite FloatAxioms.sub_spec, H. reflexivity.
Qed.

End Binary64Facts.

Section NotFinite.

Variables f_cos f_sin f_tan f_acos f_atan : float -> float.
Variable f_toFixed : float -> nat -> float.

Let F := F64_number f_cos f_sin f_tan f_acos f_atan f_toFixed.

(** X24: in binary64, when the determinant that [inverse] computes is
    zero, the call returns as on any other matrix, and each of the six
    elements of the result is NaN or an infinity. *)
Theorem inverse_singular_not_finite (m : Neo float) :
  PrimFloat.eqb (elt_a m * elt_d m - elt_c m * elt_b m)%float 0%float = true ->
  Forall (fun x => not_finite x = true) (to_list (inverse (N := F) m)).
Proof.
  intros H. destruct m as [m0 m1 m2 m3 m4 m5].
  cbn [elt_a elt_b elt_c elt_d] in H.
  unfold inverse, to_list.
  cbn [elt_a elt_b elt_c elt_d elt_e elt_f div sub mul neg F F64_number].
  repeat constructor; apply div_by_zero, H.
Qed.

(** X25: in binary64 a NaN passes the test of [equals]: when at each of
    the six positions the element of the receiver or the element of the
    argument is NaN, [equals] returns [true], whatever the other
    elements and the tolerance. *)
Theorem equals_nan (this m : Neo float) (tolerance : option float) :
  (forall i, (i < 6)%nat ->
     F64.is_nan (index (N := F) this i) || F64.is_nan (index (N := F) m i) = true) ->
  equals (N := F) this m tolerance = true.
Proof.
  intros H. unfold equals.
  set (t := or_default tolerance (decimal 1 7)).
  assert (T : forall e1 e2, F64.is_nan e1 || F64.is_nan e2 = true ->
            lt (Number := F) (add (Number := F) e2 t) e1
            || lt (Number := F) e1 (sub (Number := F) e2 t) = false).
  { intros e1 e2 E. cbn [lt add sub F F64_number].
    apply orb_true_iff in E as [E|E].
    - rewrite (ltb_nan_r _ e1 E), (ltb_nan_l e1 _ E). reflexivity.
    - rewrite (ltb_nan_l _ e1 (add_nan_l e2 t E)), (ltb_nan_r e1 _ (sub_nan_l e2 t E)).
      reflexivity. }
  cbn [fold_left seq].
  rewrite !T by (apply H; lia). reflexivity.
Qed.

End NotFinite.

Lemma inverse_singular_not_finite_witness :
  Forall (fun x => not_finite x = true)
    (to_list (inverse (N := F64_number (fun x => x) (fun x => x) (fun x => x)
                                       (fun x => x) (fun x => x) (fun x _ => x))
                (Elements 1 0 0 0 5 7)%float)).
Proof.
  apply (inverse_singular_not_finite (fun x => x) (fun x => x) (fun x => x)
           (fun x => x) (fun x => x) (fun x _ => x) (Elements 1 0 0 0 5 7)%float).
  vm_compute. reflexivity.
Defined.

Lemma equals_nan_witness :
  equals (N := F64_number (fun x => x) (fun x => x) (fun x => x)
                          (fun x => x) (fun x => x) (fun x _ => x))
    (Elements nan nan nan nan nan nan) (Elements 1 0 0 1 0 0)%float None = true.
Proof.
  apply (equals_nan (fun x => x) (fun x => x) (fun x => x)
           (fun x => x) (fun x => x) (fun x _ => x)).
  intros i Hi.
  do 6 (destruct i as [|i]; [vm_compute; reflexivity|]). lia.
Defined.

(** ** The steps of [Neo.fromString] *)

Section Matching.

Context {num : Type} {N : Number num}.
Local Open Scope string_scope.

Lemma type_of_lower (name p : string) :
  Str.toLowerCase name = Str.toLowerCase p -> type_of name = type_of p.
Proof. intros H. unfold type_of. rewrite H. reflexivity. Qed.

Lemma pattern_at_found (alts : list string) (s name args : string) :
  pattern_at alts s = Some (name, args) ->
  exists p, In p alts /\ Str.toLowerCase name = Str.toLowerCase p /\ args <> "".
Proof.
  induction alts as [|p alts IH]; [discriminate|]. cbn.
  intros H.
  assert (Hrec : pattern_at alts s = Some (name, args) ->
                 exists p0, (p = p0 \/ In p0 alts)
                            /\ Str.toLowerCase name = Str.toLowerCase p0 /\ args <> "").
  { intros H'. destruct (IH H') as (p0 & Hin & E). exists p0. split; [right|]; assumption. }
  destruct (Str.read true p s) as [[got rest]|] eqn:R; [|apply Hrec, H].
  destruct rest as [|c r]; [apply Hrec, H|].
  destruct c as [[] [] [] [] [] [] [] []]; try (apply Hrec, H).
  destruct (read_arguments r) as [[a rest']|]; [|apply Hrec, H].
  destruct a as [|c' a']; [apply Hrec, H|].
  injection H as <- <-. exists p. split; [left; reflexivity|].
  split; [apply (read_lower _ _ _ _ R) | discriminate].
Qed.

(** The three replacements of [type] turn each name of [transformTypes]
    into the name of a method, [matrix] apart, which is tested first. *)
Lemma transformTypes_table (p : string) :
  In p transformTypes -> method_of (type_of p) = method_of p /\ method_of p <> None.
Proof.
  intros H. cbn in H.
  repeat (destruct H as [<-|H]; [vm_compute; split; [reflexivity | discriminate]|]).
  contradiction.
Qed.

Lemma read_arguments_bracket (args rest : string) :
  lacks ")" args = true ->
  read_arguments (args ++ String ")" rest) = Some (args, rest).
Proof.
  induction args as [|c args IH]; intros H; [reflexivity|].
  cbn in H. apply andb_true_iff in H as [Hc Ha].
  cbn. apply negb_true_iff in Hc. rewrite Hc, (IH Ha). reflexivity.
Qed.

(** The pattern at a name of [transformTypes] followed by an opening
    bracket: only the arguments are left to read. *)
Lemma pattern_at_head (p tail : string) :
  In p transformTypes ->
  pattern_at transformTypes (p ++ String "(" tail)
  = match read_arguments tail with
    | Some (String c args, _) => Some (p, String c args)
    | _ => None
    end.
Proof.
  intros H. cbn in H.
  repeat (destruct H as [<-|H];
          [ vm_compute;
            repeat match goal with
              | |- context [match ?x with _ => _ end] => destruct x
              end;
            reflexivity |]).
  contradiction.
Qed.

Lemma exec_all_skip (s1 s2 : string) :
  exec_all (String.length s1) (s1 ++ s2) = exec_all 0 s2.
Proof.
  induction s1 as [|c s1 IH]; [reflexivity|]. exact IH.
Qed.

Lemma length_append (s1 s2 : string) :
  String.length (s1 ++ s2) = (String.length s1 + String.length s2)%nat.
Proof. induction s1 as [|c s1 IH]; cbn; [reflexivity | rewrite IH; reflexivity]. Qed.

(** X26: the conversions of [getParameters], for every text [n] made of
    the characters of a number: alone, followed by [px] or followed by
    [deg] it is the number [+n]; followed by [rad] it is multiplied by
    [180 / Math.PI], followed by [grad] by [200 / Math.PI], followed by
    [turn] by 360. *)
Theorem getParameter_conversions (n : string) :
  numeric n = true ->
  getParameter n = to_number n
  /\ getParameter (n ++ "px") = to_number n
  /\ getParameter (n ++ "deg") = to_number n
  /\ getParameter (n ++ "rad")
     = option_map (fun a => mul a (div (of_Z 180) Math_PI)) (to_number n)
  /\ getParameter (n ++ "grad")
     = option_map (fun a => mul a (div (of_Z 200) Math_PI)) (to_number n)
  /\ getParameter (n ++ "turn") = option_map (fun a => mul a (of_Z 360)) (to_number n).
Proof.
  intros Hn. split.
  { unfold getParameter.
    assert (Hpx : Str.replace ["px"] "" n = n).
    { unfold Str.replace. replace n with (n ++ "") at 1 by apply append_empty_r.
      rewrite (exec_after_number _ n "" px_alts Hn). reflexivity. }
    rewrite Hpx. replace n with (n ++ "") at 1 by apply append_empty_r.
    rewrite (exec_after_number _ n "" unit_alts Hn). reflexivity. }
  split; [apply getParameter_px, Hn|].
  repeat split; rewrite getParameter_unit by (try exact Hn; cbn; tauto); reflexivity.
Qed.

(** X27: the name that the pattern captures is, up to the case of its
    letters, one of [transformTypes], and after the three replacements
    it names the method of that name ([multiply] for [matrix]):
    [TRANSLATEX(] calls [translateX].  The arguments captured are not
    empty. *)
Theorem pattern_dispatch (s name args : string) :
  pattern_at transformTypes s = Some (name, args) ->
  exists p m,
    In p transformTypes
    /\ Str.toLowerCase name = Str.toLowerCase p
    /\ method_of p = Some m
    /\ method_of (type_of name) = Some m
    /\ args <> "".
Proof.
  intros H. destruct (pattern_at_found _ _ _ _ H) as (p & Hin & E & Ha).
  destruct (transformTypes_table p Hin) as [T1 T2].
  destruct (method_of p) as [m|] eqn:M; [|contradiction].
  exists p, m. split; [exact Hin|]. split; [exact E|]. split; [exact M|].
  split; [|exact Ha]. rewrite (type_of_lower _ _ E). exact T1.
Qed.

(** X28: a function at the start of the text is the first match of the
    loop: for a name of [transformTypes], an opening bracket, arguments
    that are not empty and hold no closing bracket, and a closing
    bracket, the first match captures the name and the arguments, and
    the search goes on behind the closing bracket. *)
Theorem exec_all_head (p args rest : string) :
  In p transformTypes -> args <> "" -> lacks ")" args = true ->
  exec_all 0 (p ++ "(" ++ args ++ ")" ++ rest) = (p, args) :: exec_all 0 rest.
Proof.
  intros Hp Ha Hb.
  assert (P : pattern_at transformTypes (p ++ String "(" (args ++ String ")" rest))
              = Some (p, args)).
  { rewrite (pattern_at_head _ _ Hp), (read_arguments_bracket _ _ Hb).
    destruct args; [contradiction | reflexivity]. }
  destruct p as [|c p]; [exfalso; cbn in Hp; intuition discriminate|].
  change (String c p ++ "(" ++ args ++ ")" ++ rest)
    with (String c (p ++ String "(" (args ++ String ")" rest))) in *.
  rewrite exec_all_step.
  change (String c (p ++ String "(" (args ++ String ")" rest)))
    with (String c p ++ String "(" (args ++ String ")" rest)).
  rewrite P. f_equal.
  replace (p ++ String "(" (args ++ String ")" rest))
    with ((p ++ String "(" (args ++ ")")) ++ rest).
  - replace (String.length (String c p) + String.length args + 1)%nat
      with (String.length (p ++ String "(" (args ++ ")"))).
    + apply exec_all_skip.
    + rewrite length_append. cbn. rewrite length_append. cbn. lia.
  - rewrite append_assoc. cbn. rewrite append_assoc. reflexivity.
Qed.

End Matching.

Lemma getParameter_conversions_witness :
  getParameter "90deg" = to_number (num := R) "90".
Proof.
  apply (getParameter_conversions (num := R) "90"). reflexivity.
Defined.

Lemma pattern_dispatch_witness :
  exists p m,
    In p transformTypes
    /\ Str.toLowerCase "SKEWX" = Str.toLowerCase p
    /\ method_of p = Some m
    /\ method_of (type_of "SKEWX") = Some m
    /\ "30deg"%string <> ""%string.
Proof.
  apply (pattern_dispatch "SKEWX(30deg) scale(2)" "SKEWX" "30deg"). reflexivity.
Defined.

Lemma exec_all_head_witness :
  exec_all 0 "translateX(50px) scale(2)" = [("translateX", "50px"); ("scale", "2")]%string.
Proof.
  apply (exec_all_head "translateX" "50px" " scale(2)").
  - cbn. tauto.
  - discriminate.
  - reflexivity.
Defined.

(** ** The instances that the builder and the constructor make *)

Section Construction.

Context {num : Type} {N : Number num}.

Implicit Types (h : Store.store num) (o : Store.instance num).

Lemma built_new (c : Store.ref -> Store.M num Store.ref) (f : Neo num -> Neo num)
    (this : Store.ref) h o :
  returns_new c f -> h !! this = Some o ->
  exists l h',
    Store.as_instance (c this) h = Some (Some l, h')
    /\ (List.length h <= l)%nat
    /\ h' !! l = Some (Store.Instance (f (Store.elements o)) Store.reset_literal)
    /\ h' !! this = Some o.
Proof.
  intros H Ho. destruct (H this h o Ho) as (l & news & E & F & L).
  exists l, (h ++ news). unfold Store.as_instance, Store.bind. rewrite E.
  split; [reflexivity|]. split; [exact F|]. split; [exact L|].
  apply lookup_app_l_Some, Ho.
Qed.

(** X29: a call of the builder on an instance of the store ([multiply],
    the translate, scale, rotate, flip and skew methods, [inverse])
    returns an instance that did not exist before; its [elements] are
    the matrix that the method computes from the receiver's, and its
    [decomposed] is the object that [reset] gives to the identity,
    whatever the elements; the receiver is as it was. *)
Theorem builder_on_store (op : Store.operation) (this : Store.ref) h o (m' : Neo num) :
  h !! this = Some o ->
  Forall (fun r => is_Some (h !! r)) (Store.mentions op) ->
  built h op (Store.elements o) = Some m' ->
  exists l h',
    Store.perform op this h = Some (Some l, h')
    /\ (List.length h <= l)%nat
    /\ h' !! l = Some (Store.Instance m' Store.reset_literal)
    /\ h' !! this = Some o.
Proof.
  intros Ho Hm B.
  destruct op as [a|tx ty|tx|ty|sx sy pivot|sx|sy|r pivot|r| | |ax|ay|ax|ay| |
                 |a tol|x y| |precision|m| ];
    cbn [built] in B; try discriminate B; injection B as <-;
    cbn [Store.perform].
  - assert (Ha : valid h a).
    { destruct a as [l|]; cbn in *; [|exact I]. inversion Hm; assumption. }
    unfold Store.as_instance, Store.bind. rewrite (multiply_run h this o a Ho Ha).
    eexists _, _. split; [reflexivity|]. split; [reflexivity|].
    split; [apply lookup_new | apply lookup_app_l_Some, Ho].
  - exact (built_new _ _ this h o (multiply_returns_new (Elements 1 0 0 1 tx ty)%js) Ho).
  - exact (built_new _ _ this h o (multiply_returns_new (Elements 1 0 0 1 tx 0)%js) Ho).
  - exact (built_new _ _ this h o (multiply_returns_new (Elements 1 0 0 1 0 ty)%js) Ho).
  - exact (built_new _ _ this h o (scale_returns_new sx sy pivot) Ho).
  - exact (built_new _ _ this h o (multiply_returns_new (Elements sx 0 0 1 0 0)%js) Ho).
  - exact (built_new _ _ this h o (multiply_returns_new (Elements 1 0 0 sy 0 0)%js) Ho).
  - exact (built_new _ _ this h o (rotate_returns_new r pivot) Ho).
  - exact (built_new _ _ this h o
             (multiply_returns_new
                (Elements (Math_cos r) (Math_sin r) (neg (Math_sin r)) (Math_cos r) 0 0)%js)
             Ho).
  - exact (built_new _ _ this h o (scale_returns_new (neg 1%js) (Some 1%js) None) Ho).
  - exact (built_new _ _ this h o (scale_returns_new 1%js (Some (neg 1%js)) None) Ho).
  - exact (built_new _ _ this h o
             (multiply_returns_new (Elements 1 0 (Math_tan (mul ax deg2rad)) 1 0 0)%js) Ho).
  - exact (built_new _ _ this h o
             (multiply_returns_new (Elements 1 (Math_tan (mul ay deg2rad)) 0 1 0 0)%js) Ho).
  - exact (built_new _ _ this h o
             (multiply_returns_new (Elements 1 0 (Math_tan ax) 1 0 0)%js) Ho).
  - exact (built_new _ _ this h o
             (multiply_returns_new (Elements 1 (Math_tan ay) 0 1 0 0)%js) Ho).
  - exact (built_new _ _ this h o inverse_returns_new Ho).
Qed.

(** X30: the constructor.  Called with nothing, or with [undefined] in
    the first place whatever follows, it makes the identity with the
    [decomposed] of [reset]; called with an array of six numbers, or
    with six numbers, whatever follows them, it makes an instance with
    these elements and no [decomposed], which is also what [clone]
    makes of the elements of its receiver.  An array of six items of
    any kind becomes [elements] as it is; an array of another length, a
    string and a number in the first place are taken for the first of
    six elements, with [undefined] for the arguments that are missing;
    and [null] in the first place is a TypeError. *)
Theorem constructor_forms (m : Neo num) (rest : list (Store.passed num)) h :
  Store.new_Neo_with [] h
  = Some (Returns (Some (List.length h)), h ++ [Store.Instance identity Store.reset_literal])
  /\ Store.new_Neo_with (Store.P_undefined :: rest) h
     = Some (Returns (Some (List.length h)),
             h ++ [Store.Instance identity Store.reset_literal])
  /\ Store.new_Neo_with (Store.P_array (map Store.P_number (to_list m)) :: rest) h
     = Some (Returns (Some (List.length h)), h ++ [Store.Instance m Store.V_undefined])
  /\ Store.new_Neo_with (map Store.P_number (to_list m) ++ rest) h
     = Some (Returns (Some (List.length h)), h ++ [Store.Instance m Store.V_undefined])
  /\ (forall this o, h !! this = Some o ->
        Store.clone this h
        = Some (List.length h, h ++ [Store.Instance (Store.elements o) Store.V_undefined])
        /\ Store.new_Neo_with (map Store.P_number (to_list (Store.elements o))) h
           = Some (Returns (Some (List.length h)),
                   h ++ [Store.Instance (Store.elements o) Store.V_undefined]))
  /\ (forall items,
        Store.Neo_constructor (Store.P_array items :: rest)
        = if (List.length items =? 6)%nat
          then Returns (Store.P_array items, Store.V_undefined)
          else Returns (Store.P_array
                          [ Store.P_array items; Store.parameter rest 0;
                            Store.parameter rest 1; Store.parameter rest 2;
                            Store.parameter rest 3; Store.parameter rest 4 ],
                        Store.V_undefined))
  /\ (forall a,
        (exists x, a = Store.P_number x) \/ (exists s, a = Store.P_string s) ->
        Store.Neo_constructor (a :: rest)
        = Returns (Store.P_array
                     [ a; Store.parameter rest 0; Store.parameter rest 1;
                       Store.parameter rest 2; Store.parameter rest 3;
                       Store.parameter rest 4 ],
                   Store.V_undefined))
  /\ Store.Neo_constructor (Store.P_null :: rest) = TypeError
  /\ Store.new_Neo_with (Store.P_null :: rest) h = Some (TypeError, h).
Proof.
  destruct m as [a b c d e f].
  split; [reflexivity|]. split; [reflexivity|]. split; [reflexivity|].
  split; [reflexivity|].
  split.
  { intros this o Ho. split.
    - rewrite (clone_run h this o Ho).
      destruct (Store.elements o) as [a' b' c' d' e' f']. reflexivity.
    - destruct (Store.elements o) as [a' b' c' d' e' f']. reflexivity. }
  split.
  { intros items. unfold Store.Neo_constructor.
    cbn [Store.parameter nth Store.typeof Store.length_of String.eqb].
    change (String.eqb "object" "object") with true. cbn iota.
    destruct (List.length items =? 6)%nat; reflexivity. }
  split.
  { intros a0 [[x ->]|[s0 ->]]; reflexivity. }
  split; reflexivity.
Qed.

End Construction.

(** [scale( 2 )] on [new Neo( 1, 0, 0, 1, 50, 50 )] *)
Lemma builder_on_store_witness :
  exists l h',
    Store.perform (Store.Scale 2%R None None) 0%nat
      [Store.Instance (Elements 1 0 0 1 50 50 : Neo R)%R Store.V_undefined] = Some (Some l, h')
    /\ (1 <= l)%nat
    /\ h' !! l = Some (Store.Instance (scale (Elements 1 0 0 1 50 50 : Neo R)%R 2%R None None)
                                     Store.reset_literal)
    /\ h' !! 0%nat = Some (Store.Instance (Elements 1 0 0 1 50 50 : Neo R)%R Store.V_undefined).
Proof.
  apply (builder_on_store (Store.Scale 2%R None None) 0%nat
           [Store.Instance (Elements 1 0 0 1 50 50 : Neo R)%R Store.V_undefined]
           (Store.Instance (Elements 1 0 0 1 50 50 : Neo R)%R Store.V_undefined)).
  - reflexivity.
  - constructor.
  - reflexivity.
Defined.

(** * The determinant in binary64

    [inverse] divides by the determinant and [Neo.decompose] compares it
    with zero.  What the engine computes is the difference of two
    rounded products; this part says when that difference is zero. *)

(** ** A difference that is zero *)

Section SubtractionZero.

Import SpecFloat.
Local Open Scope Z_scope.

Lemma fexp_value (e : Z) : fexp prec emax e = Z.max (e - 53) (-1074).
Proof. reflexivity. Qed.

Lemma digits2_pos_le (p : positive) : 2 ^ (Zpos (digits2_pos p) - 1) <= Zpos p.
Proof.
  induction p as [p IH|p IH|]; cbn [digits2_pos]; rewrite ?Pos2Z.inj_succ.
  - replace (Z.succ (Zpos (digits2_pos p)) - 1) with (Z.succ (Zpos (digits2_pos p) - 1)) by lia.
    rewrite Z.pow_succ_r by lia. lia.
  - replace (Z.succ (Zpos (digits2_pos p)) - 1) with (Z.succ (Zpos (digits2_pos p) - 1)) by lia.
    rewrite Z.pow_succ_r by lia. lia.
  - reflexivity.
Qed.

(** One shift to the right halves the mantissa. *)
Lemma shr_1_le (k : Z) (mrs : shr_record) :
  0 <= k -> 2 ^ (k + 1) <= shr_m mrs -> 2 ^ k <= shr_m (shr_1 mrs).
Proof.
  intros Hk H. destruct mrs as [m r s]. cbn [shr_m] in H.
  rewrite Z.pow_add_r, Z.pow_1_r in H by lia.
  assert (0 < 2 ^ k) by (apply Z.pow_pos_nonneg; lia).
  destruct m as [|[p|p|]|p]; cbn; lia.
Qed.

Lemma iter_shr_1_le (p : positive) : forall (k : Z) (mrs : shr_record),
  0 <= k -> 2 ^ (k + Zpos p) <= shr_m mrs -> 2 ^ k <= shr_m (iter_pos shr_1 p mrs).
Proof.
  induction p as [p IH|p IH|]; intros k mrs Hk H; cbn [iter_pos].
  - apply IH; [lia|]. apply IH; [lia|]. apply shr_1_le; [lia|].
    replace (k + Zpos p + Zpos p + 1) with (k + Zpos p~1) by lia. exact H.
  - apply IH; [lia|]. apply IH; [lia|].
    replace (k + Zpos p + Zpos p) with (k + Zpos p~0) by lia. exact H.
  - apply shr_1_le; assumption.
Qed.

Lemma shr_m_of_loc (m : Z) (l : location) : shr_m (shr_record_of_loc m l) = m.
Proof. destruct l as [|[]]; reflexivity. Qed.

(** Rounding a positive number whose exponent is not below the least
    one, -1074, leaves a positive mantissa: with gradual underflow
    nothing but zero rounds to zero. *)
Lemma shr_fexp_pos (p : positive) (e : Z) (l : location) :
  -1074 <= e ->
  0 < shr_m (fst (shr_fexp prec emax (Zpos p) e l))
  /\ -1074 <= snd (shr_fexp prec emax (Zpos p) e l).
Proof.
  intros He. unfold shr_fexp, shr. cbn [Zdigits2]. rewrite fexp_value.
  pose proof (digits2_pos_le p) as Hd.
  set (D := Zpos (digits2_pos p)) in *.
  destruct (Z.max (D + e - 53) (-1074) - e) as [|q|q] eqn:E; cbn [fst snd];
    rewrite ?shr_m_of_loc; try (split; lia).
  split; [|lia].
  assert (Hq : Zpos q <= D - 1) by lia.
  assert (H : 2 ^ (D - 1 - Zpos q) <= shr_m (iter_pos shr_1 q (shr_record_of_loc (Zpos p) l))).
  { apply iter_shr_1_le; [lia|]. rewrite shr_m_of_loc.
    replace (D - 1 - Zpos q + Zpos q) with (D - 1) by lia. exact Hd. }
  assert (0 < 2 ^ (D - 1 - Zpos q)) by (apply Z.pow_pos_nonneg; lia).
  lia.
Qed.

Lemma round_nearest_even_pos (m : Z) (l : location) :
  0 < m -> 0 < round_nearest_even m l.
Proof.
  intros H. destruct l as [|[]]; cbn; try lia. destruct (Z.even m); lia.
Qed.

Lemma binary_round_aux_not_zero (sx : bool) (p : positive) (e : Z) (l : location) :
  -1074 <= e -> SF_is_zero (binary_round_aux prec emax sx (Zpos p) e l) = false.
Proof.
  intros He. unfold binary_round_aux.
  destruct (shr_fexp_pos p e l He) as [H1 H2].
  destruct (shr_fexp prec emax (Zpos p) e l) as [mrs' e'] eqn:E1. cbn [fst snd] in H1, H2.
  pose proof (round_nearest_even_pos (shr_m mrs') (loc_of_shr_record mrs') H1) as H3.
  destruct (round_nearest_even (shr_m mrs') (loc_of_shr_record mrs')) as [|p2|p2] eqn:E2; try lia.
  destruct (shr_fexp_pos p2 e' loc_Exact H2) as [H4 H5].
  destruct (shr_fexp prec emax (Zpos p2) e' loc_Exact) as [mrs'' e''] eqn:E3. cbn [fst snd] in H4, H5.
  destruct (shr_m mrs'') as [|p3|p3]; try lia.
  destruct (e'' <=? emax - prec); reflexivity.
Qed.

Lemma binary_round_not_zero (sx : bool) (p : positive) (e : Z) :
  -1074 <= e -> SF_is_zero (binary_round prec emax sx p e) = false.
Proof.
  intros He. unfold binary_round, shl_align. rewrite fexp_value.
  destruct (Z.max (Zpos (digits2_pos p) + e - 53) (-1074) - e) as [|q|q] eqn:E;
    apply binary_round_aux_not_zero; lia.
Qed.

Lemma binary_normalize_zero (m e : Z) :
  -1074 <= e ->
  SF_is_zero (binary_normalize prec emax m e false) = true <-> m = 0.
Proof.
  intros He. destruct m as [|p|p]; cbn [binary_normalize].
  - split; reflexivity.
  - rewrite binary_round_not_zero by exact He. split; [discriminate | lia].
  - rewrite binary_round_not_zero by exact He. split; [discriminate | lia].
Qed.

Lemma digits2_pos_iter (m d : positive) :
  Zpos (digits2_pos (Pos.iter xO m d)) = Zpos (digits2_pos m) + Zpos d.
Proof.
  induction d as [|d IH] using Pos.peano_ind.
  - cbn. lia.
  - rewrite Pos.iter_succ. cbn [digits2_pos]. lia.
Qed.

Lemma valid_finite (m : positive) (e : Z) :
  bounded prec emax m e = true ->
  Z.max (Zpos (digits2_pos m) + e - 53) (-1074) = e.
Proof.
  unfold bounded, canonical_mantissa. rewrite fexp_value.
  intros H. apply andb_true_iff in H as [H _]. apply Z.eqb_eq in H. exact H.
Qed.

(** Two finite numbers aligned on the smaller exponent have the same
    mantissa only when they are the same number. *)
Lemma aligned_equal (mx my : positive) (ex ey : Z) :
  bounded prec emax mx ex = true -> bounded prec emax my ey = true ->
  fst (shl_align mx ex (Z.min ex ey)) = fst (shl_align my ey (Z.min ex ey)) ->
  ex = ey /\ mx = my.
Proof.
  intros Vx Vy. apply valid_finite in Vx, Vy. unfold shl_align.
  destruct (Z.min ex ey - ex) as [|q|q] eqn:Ex;
    destruct (Z.min ex ey - ey) as [|r|r] eqn:Ey; cbn [fst]; intros H; try lia.
  - exfalso. pose proof (digits2_pos_iter my r) as D. rewrite <- H in D. lia.
  - exfalso. pose proof (digits2_pos_iter mx q) as D. rewrite H in D. lia.
Qed.

Lemma SFeqb_finite (sx sy : bool) (mx my : positive) (ex ey : Z) :
  SFeqb (S754_finite sx mx ex) (S754_finite sy my ey) = true
  <-> sx = sy /\ ex = ey /\ mx = my.
Proof.
  unfold SFeqb, SFcompare. split.
  - destruct sx, sy; try discriminate;
      destruct (Z.compare_spec ex ey) as [E|E|E]; try discriminate;
      change (Pos.compare_cont Eq mx my) with (Pos.compare mx my);
      destruct (Pos.compare_spec mx my) as [F|F|F]; try discriminate;
      intros _; repeat split; assumption.
  - intros (-> & -> & ->). rewrite Z.compare_refl.
    change (Pos.compare_cont Eq my my) with (Pos.compare my my).
    rewrite Pos.compare_refl. destruct sy; reflexivity.
Qed.

(** The difference of two numbers is a zero only when they are finite
    and equal. *)
Lemma SFsub_zero (x y : spec_float) :
  valid_binary prec emax x = true -> valid_binary prec emax y = true ->
  SF_is_zero (SFsub prec emax x y) = true
  <-> SF_is_finite x = true /\ SF_is_finite y = true /\ SFeqb x y = true.
Proof.
  intros Vx Vy.
  destruct x as [sx|sx| |sx mx ex], y as [sy|sy| |sy my ey];
    try solve [cbn; try destruct sx; try destruct sy; cbn;
               intuition (discriminate || reflexivity)].
  cbn [valid_binary] in Vx, Vy. cbn [SFsub SF_is_finite].
  assert (He : -1074 <= Z.min ex ey).
  { pose proof (valid_finite _ _ Vx). pose proof (valid_finite _ _ Vy). lia. }
  rewrite binary_normalize_zero by exact He.
  rewrite SFeqb_finite.
  set (A := fst (shl_align mx ex (Z.min ex ey))).
  set (B := fst (shl_align my ey (Z.min ex ey))).
  split.
  - intros H.
    assert (G : forall a b : positive,
              cond_Zopp sx (Zpos a) - cond_Zopp sy (Zpos b) = 0 -> sx = sy /\ a = b).
    { intros a b. unfold cond_Zopp.
      destruct sx, sy; intros G; split; try reflexivity; lia. }
    destruct (G A B H) as [S E].
    destruct (aligned_equal mx my ex ey Vx Vy E) as [E1 E2].
    repeat split; assumption.
  - intros (_ & _ & -> & E1 & E2). subst A B. rewrite E1, E2.
    unfold cond_Zopp. destruct sy; lia.
Qed.

Lemma SF_finite_equal (x y : spec_float) :
  SF_is_finite x = true /\ SF_is_finite y = true /\ SFeqb x y = true
  <-> SFeqb x y = true /\ SFeqb (SFabs x) (S754_infinity false) = false.
Proof.
  destruct x as [sx|sx| |sx mx ex], y as [sy|sy| |sy my ey];
    try solve [cbn; try destruct sx; try destruct sy; cbn;
               intuition (discriminate || reflexivity)].
Qed.

Lemma eqb_zero_iff (x : float) :
  PrimFloat.eqb x 0%float = true <-> SF_is_zero (Prim2SF x) = true.
Proof.
  rewrite FloatAxioms.eqb_spec. change (Prim2SF 0%float) with (S754_zero false).
  destruct (Prim2SF x) as [s|s| |s m e]; cbn; try destruct s; cbn;
    intuition (discriminate || reflexivity).
Qed.

(** In binary64 [x - y] is zero, that is [x - y === 0], exactly when [x]
    and [y] are the same finite number. *)
Lemma sub_zero_iff (x y : float) :
  PrimFloat.eqb (x - y)%float 0%float = true
  <-> PrimFloat.eqb x y = true /\ PrimFloat.is_infinity x = false.
Proof.
  rewrite eqb_zero_iff, FloatAxioms.sub_spec.
  unfold SF64sub.
  rewrite SFsub_zero by apply FloatAxioms.Prim2SF_valid.
  rewrite SF_finite_equal.
  unfold PrimFloat.is_infinity.
  rewrite !FloatAxioms.eqb_spec, FloatAxioms.abs_spec. reflexivity.
Qed.

(** A finite double other than zero is a real number other than zero. *)
Lemma to_R_finite (x : float) (s : bool) (m : positive) (e : Z) :
  Prim2SF x = S754_finite s m e -> F64.to_R x <> 0%R.
Proof.
  intros H. unfold F64.to_R. rewrite H.
  repeat apply Rmult_integral_contrapositive_currified.
  - destruct s; lra.
  - apply not_0_IZR. discriminate.
  - apply powerRZ_NOR. lra.
Qed.

Lemma to_R_value (x : float) (s : bool) (m : positive) (e : Z) :
  Prim2SF x = S754_finite s m e ->
  F64.to_R x = ((if s then -1 else 1) * IZR (Zpos m) * powerRZ 2 e)%R.
Proof. intros H. unfold F64.to_R. rewrite H. reflexivity. Qed.

Lemma powerRZ_2_neg (p : positive) : powerRZ 2 (Zneg p) = (/ IZR (2 ^ Zpos p))%R.
Proof. unfold powerRZ. rewrite pow_IZR, positive_nat_Z. reflexivity. Qed.

End SubtractionZero.

(** ** The literals *)

(** [F64.decimal] on literals whose double is known: [1e-7], the
    tolerance of [equals]; [1e-23], whose divisor [10^23] is not a
    double; [1e-320], below the normal range; [1e-324], below half the
    least double, and [4.9e-324], above it; [r2d], and [Math.PI] from
    its first 36 digits. *)
Example decimal_literals :
  F64.decimal 1 7 = 0x1.ad7f29abcaf48p-24%float
  /\ F64.decimal 1 23 = 0x1.82db34012b251p-77%float
  /\ F64.decimal 1 320 = 0x0.00000000007e8p-1022%float
  /\ F64.decimal 1 324 = 0%float
  /\ F64.decimal 49 325 = 0x0.0000000000001p-1022%float
  /\ F64.decimal 5729577951308232 14 = 0x1.ca5dc1a63c1f8p+5%float
  /\ F64.decimal 314159265358979323846264338327950288 35 = F64.PI.
Proof. vm_compute. repeat split; reflexivity. Qed.

(** ** [inverse] and [Neo.decompose] *)

Section Determinant.

Variables f_cos f_sin f_tan f_acos f_atan : float -> float.
Variable f_toFixed : float -> nat -> float.

Let F := F64_number f_cos f_sin f_tan f_acos f_atan f_toFixed.

Lemma inverse_run {num : Type} {N : Number num} (h : Store.store num)
    (this : Store.ref) (o : Store.instance num) :
  h !! this = Some o ->
  Store.inverse this h
  = Some (List.length h,
          h ++ [Store.Instance (inverse (Store.elements o)) Store.reset_literal]).
Proof.
  intros Ho. unfold Store.inverse, Store.bind.
  rewrite (get_elements_run _ _ _ Ho).
  unfold Store.new_Neo, Store.alloc.
  destruct (Store.elements o) as [m0 m1 m2 m3 m4 m5].
  rewrite !set_index_new. reflexivity.
Qed.

Lemma inverse_not_finite (m : Neo float) :
  PrimFloat.eqb (elt_a m * elt_d m - elt_c m * elt_b m)%float 0%float = true ->
  Forall (fun x => not_finite x = true) (to_list (inverse (N := F) m)).
Proof.
  intros H. destruct m as [m0 m1 m2 m3 m4 m5].
  cbn [elt_a elt_b elt_c elt_d] in H.
  unfold inverse, to_list.
  cbn [elt_a elt_b elt_c elt_d elt_e elt_f div sub mul neg F F64_number].
  repeat constructor; apply div_by_zero, H.
Qed.

Lemma decompose_guard (a b c d e f : float) :
  Neo_decompose (N := F) (Elements a b c d e f) = None
  <-> PrimFloat.eqb (a * d) (b * c) = true /\ PrimFloat.is_infinity (a * d) = false.
Proof.
  rewrite <- sub_zero_iff.
  cbn [Neo_decompose strict_eq sub mul of_Z F F64_number].
  change (F64.of_Z 0) with 0%float.
  destruct (PrimFloat.eqb (a * d - b * c)%float 0%float); split;
    intros H; try reflexivity; discriminate H.
Qed.

Lemma decompose_translation (a b c d e f : float) (r : Decomposed float) :
  Neo_decompose (N := F) (Elements a b c d e f) = Some r ->
  translateX_of r = e /\ translateY_of r = f.
Proof.
  cbn [Neo_decompose strict_eq sub mul of_Z F F64_number].
  destruct (PrimFloat.eqb _ _); [discriminate|].
  intros H. injection H as <-. repeat split.
Qed.

End Determinant.

(** C3, as the code has it: [inverse] tests nothing and reports no
    failure.  On every receiver the call returns a new instance, behind
    the existing ones, which stay as they were; its elements are the six
    quotients by the determinant [m0 * m3 - m2 * m1], every operation
    rounded to binary64.  When the determinant so computed is zero each
    of the six is NaN or an infinity: for [[ 1, 0, 0, 0, 0, 0 ]] they
    are NaN, NaN, NaN, Infinity, NaN, NaN, and for
    [[ 1e-200, 0, 0, 1e-200, 0, 0 ]], whose determinant rounds to zero,
    Infinity, NaN, NaN, Infinity, NaN, NaN.  In exact real arithmetic,
    and for a determinant other than zero, the result is the inverse:
    its product with the matrix is the identity on either side.  In
    binary64 the product is near the identity: for
    [[ 3, 1, -1, 3, 100, 100 ]] it is
    [[ 1 - 2^-53, -2^-54, 2^-54, 1 - 2^-53, 0, 0 ]], which [equals]
    accepts as the identity at its default tolerance. *)
Theorem inverse_reports_no_failure
    (f_cos f_sin f_tan f_acos f_atan : float -> float) (f_toFixed : float -> nat -> float) :
  let F := F64_number f_cos f_sin f_tan f_acos f_atan f_toFixed in
  (forall (h : Store.store float) (this : Store.ref) (o : Store.instance float),
     h !! this = Some o ->
     Store.inverse (N := F) this h
     = Some (List.length h,
             h ++ [Store.Instance (inverse (N := F) (Store.elements o))
                                  Store.reset_literal]))
  /\ (forall a b c d e f : float,
        inverse (N := F) (Elements a b c d e f)
        = Elements (d / (a * d - c * b)) (- b / (a * d - c * b))
                   (- c / (a * d - c * b)) (a / (a * d - c * b))
                   ((c * f - e * d) / (a * d - c * b))
                   ((e * b - a * f) / (a * d - c * b)))%float
  /\ (forall m : Neo float,
        PrimFloat.eqb (elt_a m * elt_d m - elt_c m * elt_b m)%float 0%float = true ->
        Forall (fun x => not_finite x = true) (to_list (inverse (N := F) m)))
  /\ inverse (N := F) (Elements 1 0 0 0 0 0)%float = Elements nan nan nan infinity nan nan
  /\ inverse (N := F) tiny_scale = Elements infinity nan nan infinity nan nan
  /\ (forall m : Neo R,
        det m <> 0%R ->
        multiply m (inverse m) = identity /\ multiply (inverse m) m = identity)
  /\ multiply (N := F) neo2 (inverse (N := F) neo2)
     = (Elements 0x1.fffffffffffffp-1 (-0x1p-54) 0x1p-54 0x1.fffffffffffffp-1 0 0)%float
  /\ equals (N := F) (multiply (N := F) neo2 (inverse (N := F) neo2)) identity None = true.
Proof.
  intros F.
  split; [intros h this o Ho; apply inverse_run, Ho|].
  split; [reflexivity|].
  split; [apply inverse_not_finite|].
  split; [vm_compute; reflexivity|].
  split; [vm_compute; reflexivity|].
  split; [|split; vm_compute; reflexivity].
  intros m Hdet. rewrite inverse_closed_form.
  destruct m as [a b c d e f]. unfold det, identity in *. cbn in Hdet |- *.
  split; f_equal; field; lra.
Qed.

(** [inverse] on [new Neo( 1, 0, 0, 0, 0, 0 )], alone in the store *)
Lemma inverse_reports_no_failure_witness :
  Store.inverse (N := F64_number (fun x => x) (fun x => x) (fun x => x) (fun x => x)
                                 (fun x => x) (fun x _ => x))
    0%nat [Store.Instance (Elements 1 0 0 0 0 0)%float Store.V_undefined]
  = Some (1%nat,
          [Store.Instance (Elements 1 0 0 0 0 0)%float Store.V_undefined]
          ++ [Store.Instance
                (inverse (N := F64_number (fun x => x) (fun x => x) (fun x => x) (fun x => x)
                                          (fun x => x) (fun x _ => x))
                         (Elements 1 0 0 0 0 0)%float)
                (Store.reset_literal
                   (N := F64_number (fun x => x) (fun x => x) (fun x => x) (fun x => x)
                                    (fun x => x) (fun x _ => x)))]).
Proof.
  apply (proj1 (inverse_reports_no_failure (fun x => x) (fun x => x) (fun x => x)
                  (fun x => x) (fun x => x) (fun x _ => x))
           [Store.Instance (Elements 1 0 0 0 0 0)%float Store.V_undefined] 0%nat
           (Store.Instance (Elements 1 0 0 0 0 0)%float Store.V_undefined)).
  reflexivity.
Defined.

(** C3 fails as stated: the determinant of [[ 1, 0, 0, 0, 0, 0 ]] is
    zero, and the call of [inverse] on it returns, whatever the engine:
    a new instance whose elements are NaN, NaN, NaN, Infinity, NaN,
    NaN. *)
Lemma inverse_singular_returns_counterexample :
  PrimFloat.eqb (1 * 0 - 0 * 0)%float 0%float = true
  /\ forall (f_cos f_sin f_tan f_acos f_atan : float -> float)
            (f_toFixed : float -> nat -> float),
       Store.inverse (N := F64_number f_cos f_sin f_tan f_acos f_atan f_toFixed)
         0%nat [Store.Instance (Elements 1 0 0 0 0 0)%float Store.V_undefined]
       = Some (1%nat,
               [ Store.Instance (Elements 1 0 0 0 0 0)%float Store.V_undefined;
                 Store.Instance (Elements nan nan nan infinity nan nan)
                   (Store.reset_literal
                      (N := F64_number f_cos f_sin f_tan f_acos f_atan f_toFixed)) ]).
Proof.
  split; [reflexivity|]. intros. vm_compute. reflexivity.
Qed.

(** C7, as the code has it: [Neo.decompose] returns [false] exactly when
    the two products [a * d] and [b * c], each rounded to binary64, are
    the same finite number; that is the one case in which their
    difference compares equal to zero.  In every other case it returns
    the record of components, whose translation is [e], [f].  It returns
    [false] on [[ 1, 0, 0, 0, 0, 0 ]], on [[ 1e-200, 0, 0, 1e-200, 0, 0 ]],
    where both products round to zero, and on
    [[ 1 + 2^-52, 1, 1, 1 - 2^-53, 0, 0 ]], where both round to 1; and a
    record on [[ 1e200, 1e200, 1e200, 1e200, 0, 0 ]], where both
    products are infinite. *)
Theorem decompose_fails_iff_products_equal
    (f_cos f_sin f_tan f_acos f_atan : float -> float) (f_toFixed : float -> nat -> float) :
  let F := F64_number f_cos f_sin f_tan f_acos f_atan f_toFixed in
  (forall a b c d e f : float,
     (Neo_decompose (N := F) (Elements a b c d e f) = None
      <-> PrimFloat.eqb (a * d) (b * c) = true /\ PrimFloat.is_infinity (a * d) = false)
     /\ (PrimFloat.eqb (a * d) (b * c) = false \/ PrimFloat.is_infinity (a * d) = true ->
         exists r, Neo_decompose (N := F) (Elements a b c d e f) = Some r
                   /\ translateX_of r = e /\ translateY_of r = f))
  /\ Neo_decompose (N := F) (Elements 1 0 0 0 0 0)%float = None
  /\ Neo_decompose (N := F) tiny_scale = None
  /\ Neo_decompose (N := F) almost_flat = None
  /\ (exists r, Neo_decompose (N := F) huge_flat = Some r).
Proof.
  intros F.
  assert (G : forall a b c d e f : float,
            PrimFloat.eqb (a * d) (b * c) = false \/ PrimFloat.is_infinity (a * d) = true ->
            exists r, Neo_decompose (N := F) (Elements a b c d e f) = Some r).
  { intros a b c d e f H.
    destruct (Neo_decompose (N := F) (Elements a b c d e f)) as [r|] eqn:E;
      [exists r; reflexivity|].
    apply decompose_guard in E as [E1 E2].
    destruct H as [H|H]; congruence. }
  split; [|split; [|split; [|split]]].
  - intros a b c d e f. split; [apply decompose_guard|].
    intros H. destruct (G a b c d e f H) as [r Hr].
    exists r. split; [exact Hr|].
    exact (decompose_translation _ _ _ _ _ _ a b c d e f r Hr).
  - vm_compute. reflexivity.
  - vm_compute. reflexivity.
  - vm_compute. reflexivity.
  - apply G. right. vm_compute. reflexivity.
Qed.

(** C7 fails as stated.  The determinants of
    [[ 1e-200, 0, 0, 1e-200, 0, 0 ]] and of
    [[ 1 + 2^-52, 1, 1, 1 - 2^-53, 0, 0 ]], computed on the real numbers
    that the elements are, are not zero, and [Neo.decompose] returns
    [false]; the determinant of [[ 1e200, 1e200, 1e200, 1e200, 0, 0 ]] is
    zero, and [Neo.decompose] returns a record; whatever the engine.
    The elements of the three matrices are finite. *)
Lemma decompose_determinant_counterexample :
  Forall (fun x => not_finite x = false)
         (to_list huge_flat ++ to_list tiny_scale ++ to_list almost_flat)
  /\ (exact_det huge_flat = 0%R
   /\ forall (f_cos f_sin f_tan f_acos f_atan : float -> float)
             (f_toFixed : float -> nat -> float),
        exists r,
          Neo_decompose (N := F64_number f_cos f_sin f_tan f_acos f_atan f_toFixed)
            huge_flat = Some r)
  /\ (exact_det tiny_scale <> 0%R
      /\ forall (f_cos f_sin f_tan f_acos f_atan : float -> float)
                (f_toFixed : float -> nat -> float),
           Neo_decompose (N := F64_number f_cos f_sin f_tan f_acos f_atan f_toFixed)
             tiny_scale = None)
  /\ (exact_det almost_flat <> 0%R
      /\ forall (f_cos f_sin f_tan f_acos f_atan : float -> float)
                (f_toFixed : float -> nat -> float),
           Neo_decompose (N := F64_number f_cos f_sin f_tan f_acos f_atan f_toFixed)
             almost_flat = None).
Proof.
  split; [vm_compute; repeat constructor|].
  split; [|split]; split.
  - unfold exact_det, huge_flat. cbn [elt_a elt_b elt_c elt_d]. ring.
  - intros.
    destruct (Neo_decompose
                (N := F64_number f_cos f_sin f_tan f_acos f_atan f_toFixed) huge_flat)
      as [r|] eqn:E; [exists r; reflexivity|].
    unfold huge_flat in E. apply decompose_guard in E as [_ E].
    vm_compute in E. discriminate E.
  - unfold exact_det, tiny_scale. cbn [elt_a elt_b elt_c elt_d].
    assert (Z0 : F64.to_R 0%float = 0%R) by (unfold F64.to_R; reflexivity).
    rewrite Z0.
    assert (N0 : F64.to_R (F64.decimal 1 200) <> 0%R).
    { apply (to_R_finite _ false 6894565328877484%positive (-717)%Z).
      vm_compute. reflexivity. }
    intros H. apply N0.
    assert (S : (F64.to_R (F64.decimal 1 200) * F64.to_R (F64.decimal 1 200) = 0)%R) by lra.
    apply Rmult_integral in S. tauto.
  - intros. vm_compute. reflexivity.
  - unfold exact_det, almost_flat. cbn [elt_a elt_b elt_c elt_d].
    rewrite (to_R_value _ false 4503599627370497 (-52)) by (vm_compute; reflexivity).
    rewrite (to_R_value _ false 9007199254740991 (-53)) by (vm_compute; reflexivity).
    rewrite (to_R_value 1%float false 4503599627370496 (-52)) by (vm_compute; reflexivity).
    rewrite !powerRZ_2_neg.
    change (2 ^ 52)%Z with 4503599627370496%Z.
    change (2 ^ 53)%Z with 9007199254740992%Z.
    lra.
  - intros. vm_compute. reflexivity.
Qed.
